(** * SphereScripter: the SCP line formatter (formatter/scp.formatter.js)

    A shallow embedding of the formatter class [SCPFormatter] and of the
    JavaScript string and regular-expression operations it is written with.

    Text is a list of code units, modelled over the 8-bit [ascii] type.  The
    patterns and the command keywords of the formatter are ASCII, and so is
    what their matching looks at.  [toUpperCase] is modelled on ASCII text:
    it maps [a-z] to [A-Z] and leaves every other code unit alone, where
    JavaScript also maps letters outside ASCII and can lengthen the text.
    A property that speaks of the length of an upper-cased text, or of its
    code units one by one, is therefore stated for ASCII text
    ([asciiText]). *)

From Stdlib Require Import Ascii String List Bool Arith Lia.
Import ListNotations.

(** ** Text and character classes *)

Definition str := list ascii.

Definition txt (s : string) : str := list_ascii_of_string s.

Definition code (c : ascii) : nat := nat_of_ascii c.

(** WhiteSpace and LineTerminator code units: what [trim] removes and what
    the class [\s] contains; among the code units below 256 these are TAB,
    LF, VT, FF, CR, SPACE and NO-BREAK SPACE. *)
Definition isWhiteSpace (c : ascii) : bool :=
  ((9 <=? code c) && (code c <=? 13)) || (code c =? 32) || (code c =? 160).

(** LineTerminator code units: what [.] does not match. *)
Definition isLineTerminator (c : ascii) : bool :=
  (code c =? 10) || (code c =? 13).

Definition notLineTerminator (c : ascii) : bool := negb (isLineTerminator c).

Definition isLower (c : ascii) : bool := (97 <=? code c) && (code c <=? 122).
Definition isUpper (c : ascii) : bool := (65 <=? code c) && (code c <=? 90).
Definition isDigit (c : ascii) : bool := (48 <=? code c) && (code c <=? 57).

(** The class [\w]: [A-Za-z0-9_]. *)
Definition isWordChar (c : ascii) : bool :=
  isLower c || isUpper c || isDigit c || (code c =? 95).

Definition upChar (c : ascii) : ascii :=
  if isLower c then ascii_of_nat (code c - 32) else c.

(** [String.prototype.toUpperCase]. *)
Definition toUpperCase (s : str) : str := map upChar s.

(** A text of ASCII code units; on such a text [toUpperCase] above is what
    [String.prototype.toUpperCase] computes. *)
Definition isAscii (c : ascii) : bool := code c <? 128.

Definition asciiText (s : str) : bool := forallb isAscii s.

(** [String.prototype.trimStart], [trimEnd] (alias [trimRight]) and [trim]. *)
Fixpoint trimStart (s : str) : str :=
  match s with
  | c :: s' => if isWhiteSpace c then trimStart s' else s
  | [] => []
  end.

Definition trimRight (s : str) : str := rev (trimStart (rev s)).

Definition trim (s : str) : str := trimRight (trimStart s).

(** [String.prototype.startsWith]. *)
Fixpoint startsWith (s p : str) : bool :=
  match p, s with
  | [], _ => true
  | a :: p', c :: s' => Ascii.eqb a c && startsWith s' p'
  | _ :: _, [] => false
  end.

(** [String.prototype.substring] for [from <= to]. *)
Definition substring (s : str) (from to : nat) : str :=
  firstn (to - from) (skipn from s).

(** ** Regular expressions

    The patterns of the formatter all carry the [i] flag and none carries
    [m], [s] or [u].  [exec] lists the match states a pattern can end in
    from a given state, in the order ECMAScript's backtracking matcher tries
    them; the first one is the match. *)

Module RegExp.

Inductive regex : Type :=
| Empty
| Class (p : ascii -> bool)
| Seq (a b : regex)
| Alt (a b : regex)
| Star (a : regex)
| Group (n : nat) (a : regex)
| Bol
| Eol
| WordB
| Look (a : regex)
| NLook (a : regex).

(** A match state: the input split at the end index of the match so far
    (the part before it is kept last code unit first) and the captures, each
    a group number with its start and end index. *)
Record MatchState : Type := mkState {
  before : str;
  after : str;
  captures : list (nat * (nat * nat))
}.

Definition endIndex (x : MatchState) : nat := length (before x).

Definition startState (X : str) (i : nat) : MatchState :=
  mkState (rev (firstn i X)) (skipn i X) [].

(** Canonicalize, with IgnoreCase set. *)
Definition canon (c : ascii) : ascii := upChar c.

(** IsWordChar at the end index and before it: false outside the input. *)
Definition wordNext (s : str) : bool :=
  match s with
  | c :: _ => isWordChar c
  | [] => false
  end.

(** RepeatMatcher for a greedy star: an iteration that matches the empty
    string is refused. *)
Fixpoint repeatMatcher (m : MatchState -> list MatchState) (fuel : nat)
    (x : MatchState) : list MatchState :=
  match fuel with
  | 0 => [x]
  | S fuel' =>
      flat_map (fun y => if endIndex x <? endIndex y
                         then repeatMatcher m fuel' y else []) (m x) ++ [x]
  end.

Fixpoint exec (r : regex) (x : MatchState) {struct r} : list MatchState :=
  match r with
  | Empty => [x]
  | Class p =>
      match after x with
      | c :: s => if p (canon c)
                  then [mkState (c :: before x) s (captures x)] else []
      | [] => []
      end
  | Seq a b => flat_map (exec b) (exec a x)
  | Alt a b => exec a x ++ exec b x
  | Star a => repeatMatcher (exec a) (S (length (after x))) x
  | Group n a =>
      map (fun y => mkState (before y) (after y)
                      ((n, (endIndex x, endIndex y)) :: captures y))
          (exec a x)
  | Bol => match before x with [] => [x] | _ :: _ => [] end
  | Eol => match after x with [] => [x] | _ :: _ => [] end
  | WordB => if xorb (wordNext (before x)) (wordNext (after x))
             then [x] else []
  | Look a =>
      match exec a x with
      | y :: _ => [mkState (before x) (after x) (captures y)]
      | [] => []
      end
  | NLook a =>
      match exec a x with
      | _ :: _ => []
      | [] => [x]
      end
  end.

Definition Plus (a : regex) : regex := Seq a (Star a).
Definition Opt (a : regex) : regex := Alt a Empty.

(** A literal character and a literal token, under the flag i. *)
Definition Chr (a : ascii) : regex :=
  Class (fun c => Ascii.eqb c (canon a)).

Fixpoint Lit (s : str) : regex :=
  match s with
  | [] => Empty
  | a :: s' => Seq (Chr a) (Lit s')
  end.

(** The classes the patterns use. *)
Definition cSpace : regex := Class isWhiteSpace.
Definition cNonSpace : regex := Class (fun c => negb (isWhiteSpace c)).
Definition cWord : regex := Class isWordChar.
Definition cDot : regex := Class notLineTerminator.

(** RegExpBuiltinExec: the first index from [lastIndex] on at which the
    pattern matches, with the match state. *)
Fixpoint searchFrom (r : regex) (X : str) (fuel i : nat)
    : option (nat * MatchState) :=
  match fuel with
  | 0 => None
  | S fuel' =>
      match exec r (startState X i) with
      | y :: _ => Some (i, y)
      | [] => searchFrom r X fuel' (S i)
      end
  end.

Definition regExpExec (r : regex) (X : str) (lastIndex : nat)
    : option (nat * MatchState) :=
  searchFrom r X (S (length X) - lastIndex) lastIndex.

Fixpoint lookup (n : nat) (caps : list (nat * (nat * nat)))
    : option (nat * nat) :=
  match caps with
  | [] => None
  | (k, v) :: caps' => if k =? n then Some v else lookup n caps'
  end.

(** The text of a capture group of a match, [None] for [undefined]. *)
Definition group (X : str) (y : MatchState) (n : nat) : option str :=
  match lookup n (captures y) with
  | Some (s, e) => Some (substring X s e)
  | None => None
  end.

(** What a replacer receives: the matched text and the groups. *)
Definition replacer : Type := str -> (nat -> option str) -> str.

(** [String.prototype.replace] with a pattern without the flag g: the
    first match only. *)
Definition replace (r : regex) (f : replacer) (X : str) : str :=
  match regExpExec r X 0 with
  | None => X
  | Some (p, y) =>
      firstn p X ++ f (substring X p (endIndex y)) (group X y)
        ++ skipn (endIndex y) X
  end.

(** With the flag g: all the matches are collected first, each search
    starting where the last match ended (one further after an empty match),
    and the result is put together from them. *)
Fixpoint collect (r : regex) (X : str) (fuel lastIndex : nat)
    : list (nat * MatchState) :=
  match fuel with
  | 0 => []
  | S fuel' =>
      match regExpExec r X lastIndex with
      | None => []
      | Some (p, y) =>
          (p, y) :: collect r X fuel'
                      (if endIndex y =? p then S (endIndex y) else endIndex y)
      end
  end.

Fixpoint assemble (X : str) (f : replacer) (results : list (nat * MatchState))
    (nextSourcePosition : nat) : str :=
  match results with
  | [] => skipn nextSourcePosition X
  | (p, y) :: results' =>
      if nextSourcePosition <=? p
      then substring X nextSourcePosition p
             ++ f (substring X p (endIndex y)) (group X y)
             ++ assemble X f results' (endIndex y)
      else assemble X f results' nextSourcePosition
  end.

Definition replaceAll (r : regex) (f : replacer) (X : str) : str :=
  assemble X f (collect r X (S (length X)) 0) 0.

End RegExp.

Import RegExp.

(** ** The keyword tables

    [formatter/constants.js] exports [VarsKeywords], [ScopedVarPrefixes] and
    [ControlKeywords]; the formatter is a function of them. *)

Record Tables : Type := mkTables {
  VarsKeywords : list str;
  ScopedVarPrefixes : list str;
  ControlKeywords : list str
}.

(** ** The host editor's document

    What the formatter uses of the editor: a document is its lines, a line
    has a [text], and an edit replaces a range by a new text.  A line's
    text is a JavaScript value; the editor promises a string. *)

Inductive value : Type :=
| VUndefined
| VNull
| VString (s : str).

Record TextLine : Type := mkTextLine { text : value }.

Record TextDocument : Type := mkTextDocument { lines : list TextLine }.

Definition lineCount (document : TextDocument) : nat :=
  length (lines document).

Record Position : Type := mkPosition { line : nat; character : nat }.

Record Range : Type := mkRange { rangeStart : Position; rangeEnd : Position }.

Record TextEdit : Type := mkTextEdit { range : Range; newText : str }.

Inductive exception : Type := TypeError.

(** How a call ends: with a value or with a thrown exception. *)
Inductive completion (A : Type) : Type :=
| Normal (a : A)
| Throw (e : exception).

Arguments Normal {A} a.
Arguments Throw {A} e.

(** ** The formatter *)

Module SCPFormatter.

Section Formatter.

Variable K : Tables.

Definition isCommentLine (line : str) : bool :=
  startsWith (trim line) (txt "//").

(** The class [^\s/]. *)
Definition notSpaceSlash (c : ascii) : bool :=
  negb (isWhiteSpace c || Ascii.eqb c "/"%char).

(** The class [ \t]. *)
Definition spaceTab (c : ascii) : bool :=
  Ascii.eqb c " "%char || Ascii.eqb c "009"%char.

(** [triggerPattern]: the literal of the source, with flags g and i; written
    here with a blank between its parts:
    ( \b on=@ \w+ \b [^\s/]* ) (?! \S ) *)
Definition triggerPattern : regex :=
  Seq (Group 1
         (Seq WordB (Seq (Lit (txt "on=@")) (Seq (Plus cWord) (Seq WordB
            (Star (Class notSpaceSlash)))))))
      (NLook cNonSpace).

Definition formatTriggers (sourceLine : str) : str :=
  replaceAll triggerPattern (fun m _ => toUpperCase m) sourceLine.

(** [assignmentPattern]: built from the token, with flag i:
    ^ [ \t]* ${varKeyword} = *)
Definition assignmentPattern (varKeyword : str) : regex :=
  Seq Bol (Seq (Star (Class spaceTab))
             (Seq (Lit varKeyword) (Chr "="%char))).

(** One turn of the loop of [formatAssignmentKeywords]. *)
Definition assignmentStep (sourceLine varKeyword : str) : str :=
  replace (assignmentPattern varKeyword)
    (fun _ _ => toUpperCase varKeyword ++ txt "=") sourceLine.

Definition formatAssignmentKeywords (sourceLine : str) : str :=
  fold_left assignmentStep (VarsKeywords K) sourceLine.

(** [scopedPattern]: built from the token, with flag i:
    ^ ( \s* ) ( ${prefix} ) (?= \. | = ) *)
Definition scopedPattern (prefix : str) : regex :=
  Seq Bol (Seq (Group 1 (Star cSpace))
             (Seq (Group 2 (Lit prefix))
                (Look (Alt (Chr "."%char) (Chr "="%char))))).

(** A group as a replacer uses it: [undefined] gives the empty text (the
    scoped and control groups always take part in the match; the header
    rule asks for the empty text itself when [rest] is undefined). *)
Definition orEmpty (g : option str) : str :=
  match g with
  | Some s => s
  | None => []
  end.

(** The replacer of the scoped and control rules:
    [whitespace + keyword.toUpperCase()]. *)
Definition keepSpaceUpper : replacer :=
  fun _ g => orEmpty (g 1) ++ toUpperCase (orEmpty (g 2)).

(** One turn of the loop of [formatScopedAssignments]. *)
Definition scopedStep (sourceLine prefix : str) : str :=
  replace (scopedPattern prefix) keepSpaceUpper sourceLine.

Definition formatScopedAssignments (sourceLine : str) : str :=
  fold_left scopedStep (ScopedVarPrefixes K) sourceLine.

(** [controlPattern]: built from the token, with flag i:
    ^ ( \s* ) ( ${control} ) \b *)
Definition controlPattern (control : str) : regex :=
  Seq Bol (Seq (Group 1 (Star cSpace))
             (Seq (Group 2 (Lit control)) WordB)).

(** One turn of the loop of [formatControlKeywords]. *)
Definition controlStep (sourceLine control : str) : str :=
  replace (controlPattern control) keepSpaceUpper sourceLine.

Definition formatControlKeywords (sourceLine : str) : str :=
  fold_left controlStep (ControlKeywords K) sourceLine.

(** [sectionPattern]: the literal of the source, with flag i:
    ^ \s* \[ ( \w+ ) ( \s+ .* )? \] \s* $ *)
Definition sectionPattern : regex :=
  Seq Bol (Seq (Star cSpace) (Seq (Chr "["%char)
    (Seq (Group 1 (Plus cWord))
       (Seq (Opt (Group 2 (Seq (Plus cSpace) (Star cDot))))
          (Seq (Chr "]"%char) (Seq (Star cSpace) Eol)))))).

Definition formatSectionHeaders (sourceLine : str) : str :=
  replace sectionPattern
    (fun _ g => txt "[" ++ toUpperCase (orEmpty (g 1)) ++ orEmpty (g 2)
                  ++ txt "]")
    sourceLine.

Definition commandKeywords : list str :=
  map txt
    ["SAY"; "EMOTE"; "SYSMESSAGE"; "DIALOG"; "NEWITEM"; "EQUIP"; "UNEQUIP";
     "GO"; "FACE"; "FOLLOW"; "SPEAK"; "BOUNCE"; "CONSUME"; "REMOVE"]%string.

(** [commandPattern]: built from the keyword, with flags g and i:
    \b ( ${func} ) \b (?= \s | \( | $ ) *)
Definition commandPattern (func : str) : regex :=
  Seq WordB (Seq (Group 1 (Lit func)) (Seq WordB
    (Look (Alt cSpace (Alt (Chr "("%char) Eol))))).

(** One turn of the loop of [formatCommandCalls]. *)
Definition commandStep (sourceLine func : str) : str :=
  replaceAll (commandPattern func) (fun _ _ => toUpperCase func) sourceLine.

Definition formatCommandCalls (sourceLine : str) : str :=
  fold_left commandStep commandKeywords sourceLine.

Definition formatLine (sourceLine : str) : str :=
  if isCommentLine sourceLine then sourceLine
  else
    let sourceLine := formatSectionHeaders sourceLine in
    let sourceLine := formatTriggers sourceLine in
    let sourceLine := formatScopedAssignments sourceLine in
    let sourceLine := formatAssignmentKeywords sourceLine in
    let sourceLine := formatControlKeywords sourceLine in
    let sourceLine := formatCommandCalls sourceLine in
    sourceLine.

(** The loop of [provideDocumentFormattingEdits], from line [i] on; reading
    [trimRight] or [length] off a text that is no string throws. *)
Fixpoint formatLoop (i : nat) (rest : list TextLine)
    (textEdits : list TextEdit) : completion (list TextEdit) :=
  match rest with
  | [] => Normal textEdits
  | l :: rest' =>
      match text l with
      | VString s =>
          let trimmedLine := trimRight s in
          let formattedLine := formatLine trimmedLine in
          let startPos := mkPosition i 0 in
          let endPos := mkPosition i (length s) in
          let range := mkRange startPos endPos in
          let textEdit := mkTextEdit range formattedLine in
          formatLoop (S i) rest' (textEdits ++ [textEdit])
      | VUndefined | VNull => Throw TypeError
      end
  end.

Definition provideDocumentFormattingEdits (document : TextDocument)
    : completion (list TextEdit) :=
  formatLoop 0 (lines document) [].

(** The replacement text the loop computes for a line's text. *)
Definition formattedLine (lineText : str) : str :=
  formatLine (trimRight lineText).

End Formatter.

End SCPFormatter.

(** ** The six-rule variant (src/unnamed/part_001)

    The same patterns and the same command keywords; five of the six rules
    test for a comment themselves, [formatVars] does not.  The variant reads
    its control keywords under the name [Controls]. *)

Module Variant.

Import SCPFormatter.

Section Formatter.

Variables VarsKeywords ScopedVarPrefixes Controls : list str.

Definition formatTriggers (line : str) : str :=
  if startsWith (trim line) (txt "//") then line
  else replaceAll triggerPattern (fun m _ => toUpperCase m) line.

Definition formatVars (line : str) : str :=
  fold_left
    (fun line varKeyword =>
       replace (assignmentPattern varKeyword)
         (fun _ _ => toUpperCase varKeyword ++ txt "=") line)
    VarsKeywords line.

Definition formatScopedVars (line : str) : str :=
  let trimmed := trim line in
  if startsWith trimmed (txt "//") then line
  else
    fold_left
      (fun line prefix => replace (scopedPattern prefix) keepSpaceUpper line)
      ScopedVarPrefixes line.

Definition formatControls (line : str) : str :=
  let trimmed := trim line in
  if startsWith trimmed (txt "//") then line
  else
    fold_left
      (fun line control =>
         replace (controlPattern control) keepSpaceUpper line)
      Controls line.

Definition formatSections (line : str) : str :=
  let trimmed := trim line in
  if startsWith trimmed (txt "//") then line
  else
    replace sectionPattern
      (fun _ g => txt "[" ++ toUpperCase (orEmpty (g 1)) ++ orEmpty (g 2)
                    ++ txt "]")
      line.

Definition formatFunctions (line : str) : str :=
  let trimmed := trim line in
  if startsWith trimmed (txt "//") then line
  else
    fold_left
      (fun line func =>
         replaceAll (commandPattern func) (fun _ _ => toUpperCase func) line)
      commandKeywords line.

Definition formatLine (line : str) : str :=
  if negb (startsWith (trim line) (txt "//")) then
    let line := formatSections line in
    let line := formatTriggers line in
    let line := formatScopedVars line in
    let line := formatVars line in
    let line := formatControls line in
    let line := formatFunctions line in
    line
  else line.

(** The loop of the variant's [provideDocumentFormattingEdits]: the same
    statements, over the variant's [formatLine]. *)
Fixpoint formatLoop (i : nat) (rest : list TextLine)
    (textEdits : list TextEdit) : completion (list TextEdit) :=
  match rest with
  | [] => Normal textEdits
  | l :: rest' =>
      match text l with
      | VString s =>
          let trimmedLine := trimRight s in
          let formattedLine := formatLine trimmedLine in
          let startPos := mkPosition i 0 in
          let endPos := mkPosition i (length s) in
          let range := mkRange startPos endPos in
          let textEdit := mkTextEdit range formattedLine in
          formatLoop (S i) rest' (textEdits ++ [textEdit])
      | VUndefined | VNull => Throw TypeError
      end
  end.

Definition provideDocumentFormattingEdits (document : TextDocument)
    : completion (list TextEdit) :=
  formatLoop 0 (lines document) [].

End Formatter.

End Variant.

(** ** The two-rule formatter (src/unnamed/part_000)

    The first version of the class: triggers and assignment keywords only.
    Its trigger rule tests for a comment itself; its assignment pattern is
    built from a template with a TAB in the class, which is the class of
    the later versions. *)

Module Legacy.

Import SCPFormatter.

Section Formatter.

Variable VarsKeywords : list str.

Definition formatTriggers (line : str) : str :=
  if startsWith (trim line) (txt "//") then line
  else replaceAll triggerPattern (fun m _ => toUpperCase m) line.

Definition formatVars (line : str) : str :=
  fold_left
    (fun line varKeyword =>
       replace (assignmentPattern varKeyword)
         (fun _ _ => toUpperCase varKeyword ++ txt "=") line)
    VarsKeywords line.

Definition formatLine (line : str) : str :=
  if negb (startsWith (trim line) (txt "//")) then
    let line := formatTriggers line in
    let line := formatVars line in
    line
  else line.

Fixpoint formatLoop (i : nat) (rest : list TextLine)
    (textEdits : list TextEdit) : completion (list TextEdit) :=
  match rest with
  | [] => Normal textEdits
  | l :: rest' =>
      match text l with
      | VString s =>
          let trimmedLine := trimRight s in
          let formattedLine := formatLine trimmedLine in
          let startPos := mkPosition i 0 in
          let endPos := mkPosition i (length s) in
          let range := mkRange startPos endPos in
          let textEdit := mkTextEdit range formattedLine in
          formatLoop (S i) rest' (textEdits ++ [textEdit])
      | VUndefined | VNull => Throw TypeError
      end
  end.

Definition provideDocumentFormattingEdits (document : TextDocument)
    : completion (list TextEdit) :=
  formatLoop 0 (lines document) [].

End Formatter.

End Legacy.

(** [String.prototype.includes]. *)
Fixpoint includes (s p : str) : bool :=
  startsWith s p
  || match s with
     | [] => false
     | _ :: s' => includes s' p
     end.

(** Modelled from the spec: the three tables of [formatter/constants.js],
    which is not among the sources, filled with the tokens the
    specification names as examples of each category.  The theorems hold
    for every table; this one serves where a concrete line is formatted. *)
Definition specTables : Tables :=
  mkTables (map txt ["DEFNAME"]%string) (map txt ["TAG"]%string)
           (map txt ["BEGIN"; "ENDIF"; "FOR"]%string).

(** A table entry is a literal token: a non-empty run of word characters.
    For such an entry [Lit] is the pattern the source builds from it, and
    the replacement text built from it holds no dollar sign. *)
Definition wordToken (s : str) : bool :=
  match s with
  | [] => false
  | _ :: _ => forallb isWordChar s
  end.

Definition wfTables (K : Tables) : bool :=
  forallb wordToken (VarsKeywords K)
  && forallb wordToken (ScopedVarPrefixes K)
  && forallb wordToken (ControlKeywords K).

(** * The vocabulary of the properties *)

Import SCPFormatter.

(** ** Letter case *)

(** [cle X Y]: [Y] is [X] with some code units upper-cased. *)
Definition cle (X Y : str) : Prop :=
  Forall2 (fun x y => y = x \/ y = upChar x) X Y.

(** Upper-casing the positions a mask selects. *)
Fixpoint upmask (m : list bool) (X : str) : str :=
  match m, X with
  | b :: m', c :: X' => (if b then upChar c else c) :: upmask m' X'
  | _, _ => X
  end.

(** The positions either mask selects. *)
Fixpoint orMask (m1 m2 : list bool) : list bool :=
  match m1, m2 with
  | b1 :: m1', b2 :: m2' => (b1 || b2) :: orMask m1' m2'
  | [], _ => m2
  | _, [] => m1
  end.

(** The positions from [a] up to [b]. *)
Definition rangeMask (a b : nat) : list bool :=
  repeat false a ++ repeat true (b - a).

(** A rule that upper-cases positions it selects without looking at the
    letter case of the line. *)
Definition caseRule (r : str -> str) : Prop :=
  exists M : str -> list bool,
    (forall X, r X = upmask (M X) X) /\ (forall X, M (toUpperCase X) = M X).

(** ** White space at the ends of a line *)

(** [Y] is [X] without some leading and trailing white space, with some
    code units upper-cased. *)
Definition shape (X Y : str) : Prop :=
  exists a M b, X = a ++ M ++ b /\ forallb isWhiteSpace a = true
    /\ forallb isWhiteSpace b = true /\ cle M Y.

(** The same for the part of a line before an occurrence, which can lose
    leading white space only, *)
Definition leftShape (pre pre' : str) : Prop :=
  exists a pre0, pre = a ++ pre0 /\ forallb isWhiteSpace a = true
    /\ cle pre0 pre'.

(** and for the part after it, which can lose trailing white space only. *)
Definition rightShape (suf suf' : str) : Prop :=
  exists suf0 b, suf = suf0 ++ b /\ forallb isWhiteSpace b = true
    /\ cle suf0 suf'.

(** [t] does not go on with a code unit of the class [p]. *)
Definition stops (p : ascii -> bool) (t : str) : bool :=
  match t with
  | [] => true
  | c :: _ => negb (p c)
  end.

(** The longest prefix in the class [p], and what follows it. *)
Fixpoint takeWhile (p : ascii -> bool) (s : str) : str :=
  match s with
  | c :: s' => if p c then c :: takeWhile p s' else []
  | [] => []
  end.

Fixpoint dropWhile (p : ascii -> bool) (s : str) : str :=
  match s with
  | c :: s' => if p c then dropWhile p s' else s
  | [] => []
  end.

(** No code unit of [s] is white space. *)
Definition noSpace (s : str) : bool :=
  forallb (fun c => negb (isWhiteSpace c)) s.

(** ** Match states *)

(** The state over the upper-cased input. *)
Definition upState (x : MatchState) : MatchState :=
  mkState (toUpperCase (before x)) (toUpperCase (after x)) (captures x).

Definition upResult (r : nat * MatchState) : nat * MatchState :=
  (fst r, upState (snd r)).

(** [y] is [x] moved forward over a piece [m] of the input. *)
Definition extends (x y : MatchState) : Prop :=
  exists m, before y = rev m ++ before x /\ after x = m ++ after y.

(** A pattern without capture groups. *)
Fixpoint groupFree (r : regex) : bool :=
  match r with
  | Empty | Class _ | Bol | Eol | WordB => true
  | Seq a b | Alt a b => groupFree a && groupFree b
  | Star a | Look a | NLook a => groupFree a
  | Group _ _ => false
  end.

(** The matches a global search collects come one after the other. *)
Fixpoint ordered (X : str) (results : list (nat * MatchState)) (next : nat)
    : Prop :=
  match results with
  | [] => True
  | (p, y) :: results' =>
      next <= p /\ p <= endIndex y /\ endIndex y <= length X
      /\ ordered X results' (endIndex y)
  end.

(** The positions the matches of a global search cover, from [next] on. *)
Fixpoint resultsMask (results : list (nat * MatchState)) (next : nat)
    : list bool :=
  match results with
  | [] => []
  | (p, y) :: results' =>
      if next <=? p
      then repeat false (p - next) ++ repeat true (endIndex y - p)
             ++ resultsMask results' (endIndex y)
      else resultsMask results' next
  end.

(** The second group of the first match of [r] in [X]. *)
Definition group2 (r : regex) (X : str) : option (nat * nat) :=
  match regExpExec r X 0 with
  | Some (_, y) => lookup 2 (captures y)
  | None => None
  end.

(** ** What the patterns ask of the line *)

(** Followed by white space, an opening parenthesis or the end: the
    lookahead of the command pattern. *)
Definition lookCommand (rest : str) : bool :=
  match rest with
  | [] => true
  | c :: _ => isWhiteSpace c || Ascii.eqb c "("%char
  end.

(** Followed by a dot or an equals sign: the lookahead of the scoped
    pattern. *)
Definition lookScoped (rest : str) : bool :=
  match rest with
  | [] => false
  | c :: _ => Ascii.eqb c "."%char || Ascii.eqb c "="%char
  end.

(** Followed by white space or the end: the negative lookahead of the
    trigger pattern. *)
Definition spaceOrEnd (rest : str) : bool :=
  match rest with
  | [] => true
  | c :: _ => isWhiteSpace c
  end.

(** A trigger: [on=@] in any letter case, then a run of code units other
    than white space and slashes that starts with a word character. *)
Definition triggerText (t : str) : bool :=
  startsWith (toUpperCase t) (txt "ON=@")
  && wordNext (skipn 4 t) && forallb notSpaceSlash (skipn 4 t).

(** [m] is an occurrence of the command keyword [k] between [pre] and
    [rest]: the keyword in any letter case, no word character before it,
    and the lookahead of the pattern after it. *)
Definition commandOcc (k pre m rest : str) : Prop :=
  toUpperCase m = toUpperCase k /\ wordNext (rev pre) = false
  /\ lookCommand rest = true.

(** A text the two global rules find nothing in: no at sign, which every
    trigger holds, and none of the command keywords in any letter case. *)
Definition plainText (s : str) : bool :=
  negb (existsb (Ascii.eqb "@"%char) s)
  && forallb (fun k => negb (includes (toUpperCase s) k)) commandKeywords.

(** What may stand between the word of a section header and its closing
    bracket: nothing, or white space followed by text on the same line. *)
Definition headerRest (g : str) : Prop :=
  g = [] \/ exists s d, g = s ++ d /\ s <> []
    /\ forallb isWhiteSpace s = true /\ forallb notLineTerminator d = true.

(** The same as a test. *)
Definition headerRestb (g : str) : bool :=
  match g with
  | [] => true
  | c :: _ => isWhiteSpace c && forallb notLineTerminator (trimStart g)
  end.

(** The same with the captures of the match: the second group takes part
    in the match exactly when that text is not empty. *)
Definition sectionRest (g : str) (caps : list (nat * (nat * nat)))
    (a : nat) : Prop :=
  (g = [] /\ caps = [])
  \/ (exists s d, g = s ++ d /\ s <> [] /\ forallb isWhiteSpace s = true
        /\ forallb notLineTerminator d = true
        /\ caps = [(2, (a, a + length g))]).

(** A line as the assignment rule leaves it: an upper-cased token at the
    very start, then the equals sign. *)
Definition assignedForm (Y : str) : Prop :=
  exists k v, wordToken k = true /\ Y = toUpperCase k ++ "="%char :: v.

(** ** Documents *)

(** The document whose lines have the given texts. *)
Definition documentOf (texts : list str) : TextDocument :=
  mkTextDocument (map (fun s => mkTextLine (VString s)) texts).

(** The edits for the texts of the lines from index [i] on. *)
Fixpoint editsFrom (K : Tables) (i : nat) (texts : list str) : list TextEdit :=
  match texts with
  | [] => []
  | s :: texts' =>
      mkTextEdit (mkRange (mkPosition i 0) (mkPosition i (length s)))
        (formatLine K (trimRight s))
      :: editsFrom K (S i) texts'
  end.

(** The text of the line is a string. *)
Definition isString (l : TextLine) : bool :=
  match text l with
  | VString _ => true
  | VUndefined | VNull => false
  end.

(** * Properties *)

(** ** Characters *)

Ltac ascii_cases c :=
  destruct c as [[] [] [] [] [] [] [] []]; vm_compute; reflexivity.

Lemma upChar_idem c : upChar (upChar c) = upChar c.
Proof. ascii_cases c. Qed.

Lemma isWhiteSpace_up c : isWhiteSpace (upChar c) = isWhiteSpace c.
Proof. ascii_cases c. Qed.

Lemma isWordChar_up c : isWordChar (upChar c) = isWordChar c.
Proof. ascii_cases c. Qed.

Lemma isLineTerminator_up c : isLineTerminator (upChar c) = isLineTerminator c.
Proof. ascii_cases c. Qed.

Lemma space_not_word c : isWhiteSpace c && isWordChar c = false.
Proof. ascii_cases c. Qed.

Lemma space_fixed c : isWhiteSpace c = true -> upChar c = c.
Proof.
  assert (H : implb (isWhiteSpace c) (Ascii.eqb (upChar c) c) = true)
    by ascii_cases c.
  intros Hc. rewrite Hc in H. now apply Ascii.eqb_eq.
Qed.

Lemma nonword_fixed c : isWordChar c = false -> upChar c = c.
Proof.
  assert (H : implb (negb (isWordChar c)) (Ascii.eqb (upChar c) c) = true)
    by ascii_cases c.
  intros Hc. rewrite Hc in H. now apply Ascii.eqb_eq.
Qed.

Lemma eqb_up_const (a c : ascii) :
  isWordChar a = false -> Ascii.eqb (upChar c) a = Ascii.eqb c a.
Proof.
  intros Ha. destruct (Ascii.eqb c a) eqn:E.
  - apply Ascii.eqb_eq in E. subst c. rewrite (nonword_fixed _ Ha).
    apply Ascii.eqb_refl.
  - apply Ascii.eqb_neq in E. apply Ascii.eqb_neq. intros E'. apply E.
    destruct (isWordChar c) eqn:Hc.
    + rewrite <- isWordChar_up, E' in Hc. congruence.
    + now rewrite (nonword_fixed _ Hc) in E'.
Qed.

(** ** Texts that differ in letter case only *)

Lemma toUpperCase_idem s : toUpperCase (toUpperCase s) = toUpperCase s.
Proof.
  unfold toUpperCase. rewrite map_map. apply map_ext. apply upChar_idem.
Qed.

Lemma toUpperCase_app s t :
  toUpperCase (s ++ t) = toUpperCase s ++ toUpperCase t.
Proof. apply map_app. Qed.

Lemma toUpperCase_length s : length (toUpperCase s) = length s.
Proof. apply length_map. Qed.

Lemma cle_refl X : cle X X.
Proof. induction X; constructor; auto. Qed.

Lemma cle_trans X Y Z : cle X Y -> cle Y Z -> cle X Z.
Proof.
  intros H. revert Z. induction H as [|x y X Y Hxy _ IH]; intros Z HZ.
  - inversion HZ. constructor.
  - inversion HZ as [|y' z Y' Z' Hyz HYZ]; subst.
    constructor; [|apply IH; exact HYZ].
    destruct Hxy as [Hxy|Hxy], Hyz as [Hyz|Hyz]; subst; auto.
    right. apply upChar_idem.
Qed.

Lemma cle_length X Y : cle X Y -> length X = length Y.
Proof. apply Forall2_length. Qed.

Lemma cle_upper X Y : cle X Y -> toUpperCase Y = toUpperCase X.
Proof.
  induction 1 as [|x y X Y Hxy _ IH]; simpl; [reflexivity|].
  rewrite IH. f_equal. destruct Hxy as [->| ->]; auto using upChar_idem.
Qed.

Lemma cle_app X1 X2 Y1 Y2 : cle X1 Y1 -> cle X2 Y2 -> cle (X1 ++ X2) (Y1 ++ Y2).
Proof. apply Forall2_app. Qed.

Lemma cle_app_inv X1 X2 Y :
  cle (X1 ++ X2) Y ->
  exists Y1 Y2, Y = Y1 ++ Y2 /\ cle X1 Y1 /\ cle X2 Y2.
Proof.
  intros H. apply Forall2_app_inv_l in H.
  destruct H as (Y1 & Y2 & H1 & H2 & ->). eauto.
Qed.

Lemma cle_cons_inv x X Y :
  cle (x :: X) Y -> exists y Y', Y = y :: Y' /\ (y = x \/ y = upChar x) /\ cle X Y'.
Proof. intros H. inversion H; subst; eauto. Qed.

Lemma cle_toUpperCase X : cle X (toUpperCase X).
Proof. induction X; constructor; auto. Qed.

(** An upper-cased text has only itself above it. *)
Lemma cle_of_upper X Y : cle (toUpperCase X) Y -> Y = toUpperCase X.
Proof.
  revert Y. induction X as [|x X IH]; intros Y H; inversion H; subst; simpl.
  - reflexivity.
  - f_equal; [|now apply IH].
    match goal with Hd : _ \/ _ |- _ => destruct Hd as [->| ->] end;
      auto using upChar_idem.
Qed.

Lemma cle_fixed_char x y : y = x \/ y = upChar x -> upChar x = x -> y = x.
Proof. intros [->| ->] E; congruence. Qed.

Lemma cle_antisym X Y : cle X Y -> cle Y X -> X = Y.
Proof.
  induction 1 as [|x y X Y Hxy _ IH]; intros H; [reflexivity|].
  inversion H as [|? ? ? ? Hyx HYX]; subst. f_equal; [|auto].
  destruct Hxy as [->| ->]; [reflexivity|].
  destruct Hyx as [E|E]; [auto|]. rewrite upChar_idem in E. auto.
Qed.

Lemma cle_upmask m X : cle X (upmask m X).
Proof.
  revert X. induction m as [|b m IH]; intros [|c X]; simpl;
    try apply cle_refl.
  constructor; [destruct b; auto | apply IH].
Qed.

Lemma upmask_nil_r m : upmask m [] = [].
Proof. now destruct m. Qed.

Lemma upmask_length m X : length (upmask m X) = length X.
Proof. symmetry. apply cle_length, cle_upmask. Qed.

Lemma upmask_upmask m1 m2 X :
  upmask m2 (upmask m1 X) = upmask (orMask m1 m2) X.
Proof.
  revert m2 X. induction m1 as [|b1 m1 IH]; intros [|b2 m2] [|c X]; simpl;
    try reflexivity.
  rewrite IH. f_equal. destruct b1, b2; simpl; auto using upChar_idem.
Qed.

Lemma orMask_diag m : orMask m m = m.
Proof. induction m as [|b m IH]; simpl; [|rewrite IH, orb_diag]; auto. Qed.

(** A mask that changes nothing in [X] changes nothing above [X]. *)
Lemma upmask_fixed_cle m X Y : cle X Y -> upmask m X = X -> upmask m Y = Y.
Proof.
  intros H. revert m. induction H as [|x y X Y Hxy _ IH]; intros [|b m] E;
    simpl in *; try reflexivity.
  injection E as E1 E2. f_equal; [|auto].
  destruct b; [|reflexivity].
  rewrite (cle_fixed_char _ _ Hxy E1). exact E1.
Qed.

Lemma upmask_app m1 m2 X1 X2 :
  length m1 = length X1 ->
  upmask (m1 ++ m2) (X1 ++ X2) = upmask m1 X1 ++ upmask m2 X2.
Proof.
  revert X1. induction m1 as [|b m1 IH]; intros [|c X1] E; simpl in *;
    try discriminate.
  - reflexivity.
  - f_equal. apply IH. lia.
Qed.

Lemma upmask_false n X : upmask (repeat false n) X = X.
Proof.
  revert X. induction n as [|n IH]; intros [|c X]; simpl; try reflexivity.
  now rewrite IH.
Qed.

Lemma upmask_true X : upmask (repeat true (length X)) X = toUpperCase X.
Proof. induction X as [|c X IH]; simpl; [|rewrite IH]; reflexivity. Qed.

Lemma upmask_true_ge n X :
  length X <= n -> upmask (repeat true n) X = toUpperCase X.
Proof.
  revert X. induction n as [|n IH]; intros [|c X] H; simpl in *;
    try reflexivity; try lia.
  rewrite IH by lia. reflexivity.
Qed.

(** Upper-casing the code units from [a] up to [b]. *)
Lemma upmask_range a b X :
  a <= b -> b <= length X ->
  upmask (rangeMask a b) X
  = firstn a X ++ toUpperCase (substring X a b) ++ skipn b X.
Proof.
  intros Hab Hb. unfold rangeMask, substring.
  rewrite <- (firstn_skipn a X) at 1.
  rewrite upmask_app by (rewrite repeat_length, length_firstn; lia).
  rewrite upmask_false. f_equal.
  rewrite <- (firstn_skipn (b - a) (skipn a X)) at 1.
  rewrite <- (app_nil_r (repeat true (b - a))).
  rewrite upmask_app
    by (rewrite repeat_length, length_firstn, length_skipn; lia).
  simpl. rewrite upmask_true_ge by (rewrite length_firstn; lia).
  f_equal. rewrite skipn_skipn. f_equal. lia.
Qed.

(** ** The matcher *)

Section Matcher.

Lemma extends_refl x : extends x x.
Proof. now exists []. Qed.

Lemma extends_trans x y z : extends x y -> extends y z -> extends x z.
Proof.
  intros (m1 & B1 & A1) (m2 & B2 & A2). exists (m1 ++ m2).
  rewrite B2, B1, A1, A2, rev_app_distr, !app_assoc. auto.
Qed.

Lemma extends_endIndex x y : extends x y -> endIndex x <= endIndex y.
Proof.
  intros (m & B & _). unfold endIndex. rewrite B, length_app. lia.
Qed.

Lemma in_repeat m fuel x y :
  In y (repeatMatcher m (S fuel) x) <->
  (exists z, In z (m x) /\ endIndex x < endIndex z
             /\ In y (repeatMatcher m fuel z)) \/ y = x.
Proof.
  cbn [repeatMatcher]. rewrite in_app_iff, in_flat_map. split.
  - intros [(z & Hz & Hy)|[->|[]]]; [left|now right].
    exists z. destruct (endIndex x <? endIndex z) eqn:E; [|contradiction].
    apply Nat.ltb_lt in E. auto.
  - intros [(z & Hz & Hlt & Hy)| ->]; [left|right; now left].
    exists z. split; [assumption|]. apply Nat.ltb_lt in Hlt. now rewrite Hlt.
Qed.

Lemma repeat_extends m :
  (forall x y, In y (m x) -> extends x y) ->
  forall fuel x y, In y (repeatMatcher m fuel x) -> extends x y.
Proof.
  intros Hm. induction fuel as [|fuel IH]; intros x y H.
  - destruct H as [->|[]]. apply extends_refl.
  - apply in_repeat in H. destruct H as [(z & Hz & _ & Hy)| ->].
    + eapply extends_trans; eauto.
    + apply extends_refl.
Qed.

Lemma exec_extends r : forall x y, In y (exec r x) -> extends x y.
Proof.
  induction r as [|p|a IHa b IHb|a IHa b IHb|a IHa|n a IHa| | | |a IHa|a IHa];
    intros x y H; cbn [exec] in H.
  - destruct H as [->|[]]. apply extends_refl.
  - destruct (after x) as [|c s] eqn:E; [contradiction|].
    destruct (p (canon c)); [|contradiction]. destruct H as [<-|[]].
    exists [c]. simpl. auto.
  - apply in_flat_map in H. destruct H as (z & Hz & Hy).
    eapply extends_trans; eauto.
  - apply in_app_iff in H. destruct H; auto.
  - eapply repeat_extends; eauto.
  - apply in_map_iff in H. destruct H as (z & <- & Hz).
    destruct (IHa _ _ Hz) as (m & B & A). exists m. simpl. auto.
  - destruct (before x); [|contradiction]. destruct H as [->|[]].
    apply extends_refl.
  - destruct (after x); [|contradiction]. destruct H as [->|[]].
    apply extends_refl.
  - destruct (xorb _ _); [|contradiction]. destruct H as [->|[]].
    apply extends_refl.
  - destruct (exec a x); [contradiction|]. destruct H as [<-|[]].
    exists []. simpl. auto.
  - destruct (exec a x); [|contradiction]. destruct H as [->|[]].
    apply extends_refl.
Qed.

(** *** Matching does not look at letter case *)

Lemma wordNext_up s : wordNext (toUpperCase s) = wordNext s.
Proof. destruct s; simpl; auto using isWordChar_up. Qed.

Lemma endIndex_upState x : endIndex (upState x) = endIndex x.
Proof. apply toUpperCase_length. Qed.

Lemma flat_map_commute {A} (f : A -> list A) (g : A -> A) l :
  (forall z, f (g z) = map g (f z)) ->
  flat_map f (map g l) = map g (flat_map f l).
Proof.
  intros H. induction l as [|z l IH]; simpl; [reflexivity|].
  now rewrite map_app, IH, H.
Qed.

Lemma repeat_ci m :
  (forall x, m (upState x) = map upState (m x)) ->
  forall fuel x,
    repeatMatcher m fuel (upState x) = map upState (repeatMatcher m fuel x).
Proof.
  intros Hm. induction fuel as [|fuel IH]; intros x; cbn [repeatMatcher].
  - reflexivity.
  - rewrite map_app, Hm. f_equal.
    induction (m x) as [|z l IHl]; simpl; [reflexivity|].
    rewrite map_app, IHl, !endIndex_upState. f_equal.
    destruct (endIndex x <? endIndex z); [apply IH|reflexivity].
Qed.

Lemma exec_ci r : forall x, exec r (upState x) = map upState (exec r x).
Proof.
  induction r as [|p|a IHa b IHb|a IHa b IHb|a IHa|n a IHa| | | |a IHa|a IHa];
    intros x; cbn [exec].
  - reflexivity.
  - destruct x as [bx [|c s] cx]; simpl; [reflexivity|].
    unfold canon. rewrite upChar_idem. now destruct (p (upChar c)).
  - rewrite IHa. now apply flat_map_commute.
  - now rewrite map_app, IHa, IHb.
  - destruct x as [bx ax cx]. unfold upState at 1. cbn [after before captures].
    rewrite toUpperCase_length. now apply repeat_ci.
  - rewrite IHa, !map_map, endIndex_upState. apply map_ext. intros y.
    now rewrite endIndex_upState.
  - destruct x as [[|c bx] ax cx]; reflexivity.
  - destruct x as [bx [|c ax] cx]; reflexivity.
  - destruct x as [bx ax cx]. cbn [upState before after captures].
    rewrite !wordNext_up. now destruct (xorb _ _).
  - rewrite IHa. now destruct (exec a x).
  - rewrite IHa. now destruct (exec a x).
Qed.

Lemma startState_up X i :
  startState (toUpperCase X) i = upState (startState X i).
Proof.
  unfold startState, upState, toUpperCase. cbn [before after captures].
  now rewrite firstn_map, skipn_map, map_rev.
Qed.

Lemma searchFrom_ci r X fuel i :
  searchFrom r (toUpperCase X) fuel i
  = option_map upResult (searchFrom r X fuel i).
Proof.
  revert i. induction fuel as [|fuel IH]; intros i; simpl; [reflexivity|].
  rewrite startState_up, exec_ci.
  destruct (exec r (startState X i)); simpl; auto.
Qed.

Lemma regExpExec_ci r X i :
  regExpExec r (toUpperCase X) i = option_map upResult (regExpExec r X i).
Proof.
  unfold regExpExec. rewrite toUpperCase_length. apply searchFrom_ci.
Qed.

Lemma collect_ci r X fuel i :
  collect r (toUpperCase X) fuel i = map upResult (collect r X fuel i).
Proof.
  revert i. induction fuel as [|fuel IH]; intros i; simpl; [reflexivity|].
  rewrite regExpExec_ci. destruct (regExpExec r X i) as [[p y]|]; simpl;
    [|reflexivity].
  now rewrite endIndex_upState, IH.
Qed.

(** *** What each construct matches *)

Lemma in_seq a b x y :
  In y (exec (Seq a b) x) <-> exists z, In z (exec a x) /\ In y (exec b z).
Proof. apply in_flat_map. Qed.

Lemma in_alt a b x y :
  In y (exec (Alt a b) x) <-> In y (exec a x) \/ In y (exec b x).
Proof. apply in_app_iff. Qed.

Lemma in_empty x y : In y (exec Empty x) <-> y = x.
Proof. simpl. intuition. Qed.

Lemma in_group n a x y :
  In y (exec (Group n a) x) <->
  exists z, In z (exec a x)
    /\ y = mkState (before z) (after z)
             ((n, (endIndex x, endIndex z)) :: captures z).
Proof.
  cbn [exec]. rewrite in_map_iff. split; intros (z & H1 & H2); eauto.
Qed.

Lemma in_class p x y :
  In y (exec (Class p) x) <->
  exists c s, after x = c :: s /\ p (canon c) = true
    /\ y = mkState (c :: before x) s (captures x).
Proof.
  cbn [exec]. split.
  - destruct (after x) as [|c s]; [contradiction|].
    destruct (p (canon c)) eqn:E; [|contradiction].
    intros [<-|[]]. eauto.
  - intros (c & s & -> & -> & ->). now left.
Qed.

Lemma in_chr a x y :
  In y (exec (Chr a) x) <->
  exists c s, after x = c :: s /\ upChar c = upChar a
    /\ y = mkState (c :: before x) s (captures x).
Proof.
  unfold Chr. rewrite in_class. unfold canon.
  split; intros (c & s & H1 & H2 & H3); exists c, s; repeat split; auto.
  - now apply Ascii.eqb_eq.
  - now apply Ascii.eqb_eq.
Qed.

Lemma in_bol x y : In y (exec Bol x) <-> before x = [] /\ y = x.
Proof.
  cbn [exec]. destruct (before x); simpl; intuition congruence.
Qed.

Lemma in_eol x y : In y (exec Eol x) <-> after x = [] /\ y = x.
Proof.
  cbn [exec]. destruct (after x); simpl; intuition congruence.
Qed.

Lemma in_wordb x y :
  In y (exec WordB x) <->
  xorb (wordNext (before x)) (wordNext (after x)) = true /\ y = x.
Proof.
  cbn [exec]. destruct (xorb _ _); simpl; intuition congruence.
Qed.

Lemma in_nlook a x y : In y (exec (NLook a) x) <-> exec a x = [] /\ y = x.
Proof.
  cbn [exec]. destruct (exec a x); simpl; intuition congruence.
Qed.

Lemma in_look a x y :
  In y (exec (Look a) x) <->
  exists z, hd_error (exec a x) = Some z
    /\ y = mkState (before x) (after x) (captures z).
Proof.
  cbn [exec]. destruct (exec a x) as [|z l]; simpl.
  - split; [contradiction|]. intros (z & H & _). discriminate.
  - split.
    + intros [<-|[]]. eauto.
    + intros (z' & [= <-] & ->). now left.
Qed.

Lemma in_star_class p x y :
  In y (exec (Star (Class p)) x) <->
  exists w s, after x = w ++ s
    /\ forallb (fun c => p (canon c)) w = true
    /\ y = mkState (rev w ++ before x) s (captures x).
Proof.
  cbn [exec].
  assert (Hs : forall fuel x y,
    In y (repeatMatcher (exec (Class p)) fuel x) ->
    exists w s, after x = w ++ s
      /\ forallb (fun c => p (canon c)) w = true
      /\ y = mkState (rev w ++ before x) s (captures x)).
  { clear. induction fuel as [|fuel IH]; intros x y H.
    - destruct H as [<-|[]]. exists [], (after x). now destruct x.
    - apply in_repeat in H. destruct H as [(z & Hz & _ & Hy)| ->].
      + apply in_class in Hz. destruct Hz as (c & s & E & Hc & ->).
        apply IH in Hy. cbn [before after captures] in Hy.
        destruct Hy as (w & t & -> & Hw & ->).
        exists (c :: w), t. simpl. rewrite Hc, Hw, <- app_assoc. auto.
      + exists [], (after x). now destruct x. }
  assert (Hc : forall w fuel x s,
    after x = w ++ s -> length (after x) < fuel ->
    forallb (fun c => p (canon c)) w = true ->
    In (mkState (rev w ++ before x) s (captures x))
       (repeatMatcher (exec (Class p)) fuel x)).
  { clear. induction w as [|c w IH]; intros fuel x s E Hf Hw.
    - simpl in *. subst s. destruct fuel; [lia|]. apply in_repeat. right.
      now destruct x.
    - destruct fuel as [|fuel]; [lia|]. simpl in Hw.
      apply andb_prop in Hw. destruct Hw as [Hc Hw].
      apply in_repeat. left.
      exists (mkState (c :: before x) (w ++ s) (captures x)). repeat split.
      + apply in_class. exists c, (w ++ s). auto.
      + unfold endIndex. simpl. lia.
      + specialize (IH fuel (mkState (c :: before x) (w ++ s) (captures x)) s).
        cbn [before after captures] in IH. simpl. rewrite <- app_assoc.
        apply IH; auto. rewrite E in Hf. simpl in Hf. lia. }
  split; [apply Hs|].
  intros (w & s & E & Hw & ->). apply Hc; auto.
Qed.

Lemma in_plus_class p x y :
  In y (exec (Plus (Class p)) x) <->
  exists w s, after x = w ++ s /\ w <> []
    /\ forallb (fun c => p (canon c)) w = true
    /\ y = mkState (rev w ++ before x) s (captures x).
Proof.
  unfold Plus. rewrite in_seq. split.
  - intros (z & Hz & Hy). apply in_class in Hz.
    destruct Hz as (c & s & E & Hc & ->). apply in_star_class in Hy.
    cbn [before after captures] in Hy. destruct Hy as (w & t & -> & Hw & ->).
    exists (c :: w), t. simpl. rewrite Hc, Hw, <- app_assoc.
    repeat split; auto. discriminate.
  - intros (w & s & E & Hne & Hw & ->). destruct w as [|c w]; [congruence|].
    simpl in Hw. apply andb_prop in Hw. destruct Hw as [Hc Hw].
    exists (mkState (c :: before x) (w ++ s) (captures x)). split.
    + apply in_class. exists c, (w ++ s). auto.
    + apply in_star_class. exists w, s. simpl. rewrite <- app_assoc. auto.
Qed.

Lemma in_lit k : forall x y,
  In y (exec (Lit k) x) <->
  exists w s, after x = w ++ s /\ toUpperCase w = toUpperCase k
    /\ y = mkState (rev w ++ before x) s (captures x).
Proof.
  induction k as [|a k IH]; intros x y; cbn [Lit].
  - rewrite in_empty. split.
    + intros ->. exists [], (after x). now destruct x.
    + intros (w & s & E & Hw & ->). destruct w; [|discriminate].
      simpl in *. subst. now destruct x.
  - rewrite in_seq. split.
    + intros (z & Hz & Hy). apply in_chr in Hz.
      destruct Hz as (c & s & E & Hc & ->). apply IH in Hy.
      cbn [before after captures] in Hy. destruct Hy as (w & t & -> & Hw & ->).
      exists (c :: w), t. simpl. rewrite Hc, Hw, <- app_assoc. auto.
    + intros (w & s & E & Hw & ->). destruct w as [|c w]; [discriminate|].
      simpl in Hw. injection Hw as Hc Hw.
      exists (mkState (c :: before x) (w ++ s) (captures x)). split.
      * apply in_chr. exists c, (w ++ s). auto.
      * apply IH. exists w, s. simpl. rewrite <- app_assoc. auto.
Qed.

(** The same, read as ways to build a match. *)

Lemma lit_intro k w s B caps :
  toUpperCase w = toUpperCase k ->
  In (mkState (rev w ++ B) s caps) (exec (Lit k) (mkState B (w ++ s) caps)).
Proof. intros H. apply in_lit. exists w, s. auto. Qed.

Lemma chr_intro a c s B caps :
  upChar c = upChar a ->
  In (mkState (c :: B) s caps) (exec (Chr a) (mkState B (c :: s) caps)).
Proof. intros H. apply in_chr. exists c, s. auto. Qed.

Lemma star_intro p w s B caps :
  (forall c, p (upChar c) = p c) -> forallb p w = true ->
  In (mkState (rev w ++ B) s caps)
     (exec (Star (Class p)) (mkState B (w ++ s) caps)).
Proof.
  intros Hp H. apply in_star_class. exists w, s. repeat split.
  rewrite <- H. clear H. induction w as [|c w IH]; simpl; [reflexivity|].
  unfold canon at 1. now rewrite Hp, IH.
Qed.

Lemma plus_intro p w s B caps :
  (forall c, p (upChar c) = p c) -> w <> [] -> forallb p w = true ->
  In (mkState (rev w ++ B) s caps)
     (exec (Plus (Class p)) (mkState B (w ++ s) caps)).
Proof.
  intros Hp Hne H. apply in_plus_class. exists w, s. repeat split; auto.
  rewrite <- H. clear H Hne. induction w as [|c w IH]; simpl; [reflexivity|].
  unfold canon at 1. now rewrite Hp, IH.
Qed.

Lemma wordb_intro B s caps :
  xorb (wordNext B) (wordNext s) = true ->
  In (mkState B s caps) (exec WordB (mkState B s caps)).
Proof. intros H. apply in_wordb. auto. Qed.

Lemma group_intro n a x z :
  In z (exec a x) ->
  In (mkState (before z) (after z)
        ((n, (endIndex x, endIndex z)) :: captures z))
     (exec (Group n a) x).
Proof. intros H. apply in_group. eauto. Qed.

Lemma seq_intro a b x z y :
  In z (exec a x) -> In y (exec b z) -> In y (exec (Seq a b) x).
Proof. intros H1 H2. apply in_seq. eauto. Qed.

End Matcher.

(** ** Searching and replacing *)

Section Replacing.

Lemma substring_mid (a m b : str) :
  substring (a ++ m ++ b) (length a) (length a + length m) = m.
Proof.
  unfold substring. rewrite skipn_app, skipn_all, Nat.sub_diag. simpl.
  replace (length a + length m - length a) with (length m + 0) by lia.
  rewrite firstn_app_2. simpl. apply app_nil_r.
Qed.

Lemma substring_pre (m b : str) : substring (m ++ b) 0 (length m) = m.
Proof. apply (substring_mid [] m b). Qed.

Lemma skipn_mid (a m b : str) :
  skipn (length a + length m) (a ++ m ++ b) = b.
Proof.
  rewrite app_assoc, <- length_app, skipn_app, skipn_all, Nat.sub_diag.
  reflexivity.
Qed.

Lemma firstn_pre (a b : str) : firstn (length a) (a ++ b) = a.
Proof.
  rewrite <- (Nat.add_0_r (length a)), firstn_app_2. simpl. apply app_nil_r.
Qed.

Lemma startState_app pre suf :
  startState (pre ++ suf) (length pre) = mkState (rev pre) suf [].
Proof.
  unfold startState. rewrite firstn_pre, skipn_app, skipn_all, Nat.sub_diag.
  reflexivity.
Qed.

(** A match found from index [p] splits the input around the matched text. *)
Lemma exec_start r X p y :
  In y (exec r (startState X p)) -> p <= length X ->
  exists pre m, X = pre ++ m ++ after y /\ length pre = p
    /\ before y = rev m ++ rev pre /\ endIndex y = p + length m.
Proof.
  intros H Hp. apply exec_extends in H. destruct H as (m & B & A).
  cbn [startState before after] in B, A.
  exists (firstn p X), m. repeat split.
  - rewrite <- A. symmetry. apply firstn_skipn.
  - rewrite length_firstn. lia.
  - exact B.
  - unfold endIndex. rewrite B, length_app, !length_rev, length_firstn. lia.
Qed.

Lemma searchFrom_some r X fuel i p y :
  searchFrom r X fuel i = Some (p, y) ->
  i <= p < i + fuel /\ hd_error (exec r (startState X p)) = Some y
  /\ forall j, i <= j < p -> exec r (startState X j) = [].
Proof.
  revert i. induction fuel as [|fuel IH]; intros i H; simpl in H;
    [discriminate|].
  destruct (exec r (startState X i)) as [|z l] eqn:E.
  - apply IH in H. destruct H as (H1 & H2 & H3). repeat split; try lia; auto.
    intros j Hj. destruct (Nat.eq_dec j i) as [->|]; [assumption|].
    apply H3. lia.
  - injection H as <- <-. repeat split; try lia. now rewrite E.
Qed.

Lemma searchFrom_none r X fuel i :
  searchFrom r X fuel i = None ->
  forall j, i <= j < i + fuel -> exec r (startState X j) = [].
Proof.
  revert i. induction fuel as [|fuel IH]; intros i H j Hj; simpl in H;
    [lia|].
  destruct (exec r (startState X i)) as [|z l] eqn:E; [|discriminate].
  destruct (Nat.eq_dec j i) as [->|]; [assumption|]. apply (IH _ H). lia.
Qed.

Lemma regExpExec_some r X i p y :
  regExpExec r X i = Some (p, y) ->
  i <= p <= length X /\ hd_error (exec r (startState X p)) = Some y
  /\ forall j, i <= j < p -> exec r (startState X j) = [].
Proof.
  intros H. apply searchFrom_some in H. destruct H as (H1 & H2 & H3).
  repeat split; auto; lia.
Qed.

Lemma regExpExec_none r X i :
  regExpExec r X i = None ->
  forall j, i <= j <= length X -> exec r (startState X j) = [].
Proof.
  intros H j Hj. apply (searchFrom_none _ _ _ _ H). lia.
Qed.

Lemma hd_error_in {A} (l : list A) y : hd_error l = Some y -> In y l.
Proof. destruct l; simpl; [discriminate|]. intros [= ->]. now left. Qed.

(** The first match of a pattern, in terms of the pieces of the input. *)
Lemma regExpExec_split r X i p y :
  regExpExec r X i = Some (p, y) ->
  exists pre m, X = pre ++ m ++ after y /\ length pre = p /\ i <= p
    /\ hd_error (exec r (mkState (rev pre) (m ++ after y) [])) = Some y
    /\ before y = rev m ++ rev pre /\ endIndex y = p + length m.
Proof.
  intros H. apply regExpExec_some in H. destruct H as (H1 & H2 & _).
  destruct (exec_start r X p y (hd_error_in _ _ H2)) as (pre & m & E & L & B & I);
    [lia|].
  exists pre, m. repeat split; auto; try lia.
  rewrite <- (startState_app pre (m ++ after y)), <- E, L. exact H2.
Qed.

Lemma replace_cases r f X :
  (regExpExec r X 0 = None /\ replace r f X = X)
  \/ exists pre m y,
       X = pre ++ m ++ after y
       /\ hd_error (exec r (mkState (rev pre) (m ++ after y) [])) = Some y
       /\ before y = rev m ++ rev pre
       /\ replace r f X = pre ++ f m (group X y) ++ after y.
Proof.
  unfold replace. destruct (regExpExec r X 0) as [[p y]|] eqn:E; [right|now left].
  apply regExpExec_split in E.
  destruct E as (pre & m & EX & L & _ & H & B & I).
  exists pre, m, y. repeat split; auto.
  rewrite I, <- L.
  assert (E1 : firstn (length pre) X = pre) by (rewrite EX; apply firstn_pre).
  assert (E2 : substring X (length pre) (length pre + length m) = m)
    by (rewrite EX; apply substring_mid).
  assert (E3 : skipn (length pre + length m) X = after y)
    by (rewrite EX; apply skipn_mid).
  now rewrite E1, E2, E3.
Qed.

Lemma regExpExec_bounds r X i p y :
  regExpExec r X i = Some (p, y) ->
  i <= p /\ p <= endIndex y /\ endIndex y <= length X.
Proof.
  intros H. apply regExpExec_split in H.
  destruct H as (pre & m & EX & L & Hi & _ & _ & I).
  repeat split; try lia. rewrite I, EX, !length_app. lia.
Qed.

Lemma collect_ordered r X fuel i next :
  next <= i -> ordered X (collect r X fuel i) next.
Proof.
  revert i next. induction fuel as [|fuel IH]; intros i next Hn; simpl;
    [exact I|].
  destruct (regExpExec r X i) as [[p y]|] eqn:E; simpl; [|exact I].
  apply regExpExec_bounds in E. repeat split; try lia.
  apply IH. destruct (endIndex y =? p); lia.
Qed.

Lemma collect_in r X fuel i p y :
  In (p, y) (collect r X fuel i) ->
  i <= p <= length X /\ hd_error (exec r (startState X p)) = Some y.
Proof.
  revert i. induction fuel as [|fuel IH]; intros i H; simpl in H;
    [contradiction|].
  destruct (regExpExec r X i) as [[q z]|] eqn:E; [|contradiction].
  pose proof (regExpExec_bounds _ _ _ _ _ E) as Hb.
  destruct H as [[= <- <-]|H].
  - apply regExpExec_some in E. intuition.
  - apply IH in H. destruct (endIndex z =? q); intuition lia.
Qed.

Lemma skipn_split (X : str) a b :
  a <= b -> skipn a X = substring X a b ++ skipn b X.
Proof.
  intros H. unfold substring.
  rewrite <- (firstn_skipn (b - a) (skipn a X)) at 1. f_equal.
  rewrite skipn_skipn. f_equal. lia.
Qed.

Lemma substring_length (X : str) a b :
  a <= b -> b <= length X -> length (substring X a b) = b - a.
Proof.
  intros. unfold substring. rewrite length_firstn, length_skipn. lia.
Qed.

Lemma assemble_upmask X results next :
  ordered X results next ->
  assemble X (fun m _ => toUpperCase m) results next
  = upmask (resultsMask results next) (skipn next X).
Proof.
  revert next. induction results as [|[p y] rs IH]; intros next H; simpl.
  - reflexivity.
  - destruct H as (H1 & H2 & H3 & H4).
    destruct (next <=? p) eqn:E; [|apply Nat.leb_gt in E; lia].
    rewrite (skipn_split X _ _ H1), (skipn_split X _ _ H2).
    rewrite !upmask_app
      by (rewrite repeat_length, substring_length; lia).
    rewrite upmask_false, upmask_true_ge by (rewrite substring_length; lia).
    now rewrite IH.
Qed.

Lemma assemble_ext X f g results next :
  (forall p y, In (p, y) results ->
     f (substring X p (endIndex y)) (group X y)
     = g (substring X p (endIndex y)) (group X y)) ->
  assemble X f results next = assemble X g results next.
Proof.
  revert next. induction results as [|[p y] rs IH]; intros next H; simpl;
    [reflexivity|].
  rewrite H by now left.
  rewrite !IH by (intros; apply H; now right). reflexivity.
Qed.

Lemma resultsMask_up rs next :
  resultsMask (map upResult rs) next = resultsMask rs next.
Proof.
  revert next. induction rs as [|[p y] rs IH]; intros next; simpl;
    [reflexivity|].
  now rewrite endIndex_upState, !IH.
Qed.

End Replacing.

(** ** Rules that change letter case only *)

Section CaseRules.

Lemma caseRule_cle r X : caseRule r -> cle X (r X).
Proof. intros (M & H & _). rewrite H. apply cle_upmask. Qed.

Lemma caseRule_upper r X : caseRule r -> toUpperCase (r X) = toUpperCase X.
Proof. intros H. apply cle_upper. now apply caseRule_cle. Qed.

Lemma caseRule_idem r X : caseRule r -> r (r X) = r X.
Proof.
  intros (M & H & Hi). rewrite (H (r X)), <- Hi.
  rewrite (cle_upper X), Hi by (rewrite H; apply cle_upmask).
  rewrite H at 1. now rewrite upmask_upmask, orMask_diag.
Qed.

Lemma caseRule_fixed r X Y : caseRule r -> cle X Y -> r X = X -> r Y = Y.
Proof.
  intros (M & H & Hi) HXY E. rewrite H, <- Hi, (cle_upper _ _ HXY), Hi.
  apply upmask_fixed_cle with X; auto. now rewrite <- H.
Qed.

Lemma caseRule_id : caseRule (fun X => X).
Proof.
  exists (fun _ => []). split; [intros X|reflexivity]. now destruct X.
Qed.

Lemma caseRule_compose r s :
  caseRule r -> caseRule s -> caseRule (fun X => s (r X)).
Proof.
  intros Hr Hs. pose proof Hr as (M & H & Hi). pose proof Hs as (N & G & Gi).
  exists (fun X => orMask (M X) (N (r X))). split; intros X.
  - rewrite <- upmask_upmask, <- H. apply G.
  - rewrite Hi. f_equal.
    rewrite <- Gi, (caseRule_upper _ _ Hr), toUpperCase_idem.
    now rewrite <- (caseRule_upper _ X Hr), Gi.
Qed.

Lemma caseRule_fold {A} (f : A -> str -> str) (ks : list A) :
  (forall k, caseRule (f k)) ->
  caseRule (fun X => fold_left (fun line k => f k line) ks X).
Proof.
  intros H. induction ks as [|k ks IH]; simpl; [apply caseRule_id|].
  apply (caseRule_compose _ _ (H k) IH).
Qed.

Lemma caseRule_ext r s : (forall X, r X = s X) -> caseRule r -> caseRule s.
Proof.
  intros E (M & H & Hi). exists M. split; [intros X|assumption].
  now rewrite <- E.
Qed.

End CaseRules.

(** ** Patterns without groups keep the captures *)

Lemma exec_captures r :
  groupFree r = true -> forall x y, In y (exec r x) -> captures y = captures x.
Proof.
  induction r as [|p|a IHa b IHb|a IHa b IHb|a IHa|n a IHa| | | |a IHa|a IHa];
    cbn [groupFree]; intros G x y H.
  - apply in_empty in H. now subst.
  - apply in_class in H. destruct H as (c & s & _ & _ & ->). reflexivity.
  - apply andb_prop in G. destruct G as [Ga Gb]. apply in_seq in H.
    destruct H as (z & Hz & Hy). rewrite (IHb Gb _ _ Hy). now apply IHa.
  - apply andb_prop in G. destruct G as [Ga Gb]. apply in_alt in H.
    destruct H; auto.
  - cbn [exec] in H. revert H. generalize (S (length (after x))).
    intros fuel. revert x y.
    induction fuel as [|fuel IH]; intros x y H.
    + destruct H as [<-|[]]. reflexivity.
    + apply in_repeat in H. destruct H as [(z & Hz & _ & Hy)| ->]; auto.
      rewrite (IH _ _ Hy). now apply IHa.
  - discriminate.
  - apply in_bol in H. now destruct H as [_ ->].
  - apply in_eol in H. now destruct H as [_ ->].
  - apply in_wordb in H. now destruct H as [_ ->].
  - apply in_look in H. destruct H as (z & Hz & ->). simpl.
    apply IHa; auto. now apply hd_error_in.
  - apply in_nlook in H. now destruct H as [_ ->].
Qed.

Lemma in_look_free a x y :
  groupFree a = true ->
  (In y (exec (Look a) x) <-> exec a x <> [] /\ y = x).
Proof.
  intros G. rewrite in_look. split.
  - intros (z & Hz & ->). split.
    + intros E. now rewrite E in Hz.
    + rewrite (exec_captures a G x z) by now apply hd_error_in.
      now destruct x.
  - intros (Hne & ->). destruct (exec a x) as [|z l] eqn:E; [congruence|].
    exists z. split; [reflexivity|].
    rewrite (exec_captures a G x z) by (rewrite E; now left).
    now destruct x.
Qed.

Lemma exec_nonempty r x : exec r x <> [] <-> exists y, In y (exec r x).
Proof.
  destruct (exec r x) as [|z l]; split.
  - congruence.
  - intros (y & []).
  - intros _. exists z. now left.
  - discriminate.
Qed.

Lemma exec_empty r x : exec r x = [] <-> forall y, ~ In y (exec r x).
Proof.
  destruct (exec r x) as [|z l]; split; auto.
  - discriminate.
  - intros H. exfalso. apply (H z). now left.
Qed.

(** Taking a match state apart, one construct at a time. *)
Ltac inv_exec :=
  repeat (match goal with
  | H : In _ (exec (Seq _ _) _) |- _ =>
      apply in_seq in H; destruct H as (? & ? & ?)
  | H : In _ (exec (Alt _ _) _) |- _ =>
      apply in_alt in H; destruct H as [H|H]
  | H : In _ (exec (Lit _) _) |- _ =>
      apply in_lit in H; destruct H as (? & ? & ? & ? & ?)
  | H : In _ (exec (Chr _) _) |- _ =>
      apply in_chr in H; destruct H as (? & ? & ? & ? & ?)
  | H : In _ (exec (Plus (Class _)) _) |- _ =>
      apply in_plus_class in H; destruct H as (? & ? & ? & ? & ? & ?)
  | H : In _ (exec (Star (Class _)) _) |- _ =>
      apply in_star_class in H; destruct H as (? & ? & ? & ? & ?)
  | H : In _ (exec (Class _) _) |- _ =>
      apply in_class in H; destruct H as (? & ? & ? & ? & ?)
  | H : In _ (exec (Group _ _) _) |- _ =>
      apply in_group in H; destruct H as (? & ? & ?)
  | H : In _ (exec Empty _) |- _ => apply in_empty in H
  | H : In _ (exec Bol _) |- _ => apply in_bol in H; destruct H as (? & ?)
  | H : In _ (exec Eol _) |- _ => apply in_eol in H; destruct H as (? & ?)
  | H : In _ (exec WordB _) |- _ => apply in_wordb in H; destruct H as (? & ?)
  | H : In _ (exec (NLook _) _) |- _ =>
      apply in_nlook in H; destruct H as (? & ?)
  | H : In _ (exec (Look _) _) |- _ =>
      apply in_look_free in H; [destruct H as (? & ?)|reflexivity]
  end; subst; cbn [before after captures] in *).

(** ** What the patterns of the formatter match *)

Section Patterns.

Lemma up_const (a c : ascii) :
  isWordChar a = false -> upChar c = a -> c = a.
Proof.
  intros Ha E. apply Ascii.eqb_eq. rewrite <- (eqb_up_const a c Ha).
  now apply Ascii.eqb_eq.
Qed.

Lemma forallb_canon (p : ascii -> bool) w :
  (forall c, p (upChar c) = p c) ->
  forallb (fun c => p (canon c)) w = forallb p w.
Proof.
  intros H. induction w as [|c w IH]; simpl; [reflexivity|].
  unfold canon at 1. now rewrite H, IH.
Qed.

Lemma notLineTerminator_up c :
  notLineTerminator (upChar c) = notLineTerminator c.
Proof. unfold notLineTerminator. now rewrite isLineTerminator_up. Qed.

Lemma notSpaceSlash_up c : notSpaceSlash (upChar c) = notSpaceSlash c.
Proof.
  unfold notSpaceSlash. rewrite isWhiteSpace_up, eqb_up_const; reflexivity.
Qed.

Lemma spaceTab_up c : spaceTab (upChar c) = spaceTab c.
Proof. unfold spaceTab. rewrite !eqb_up_const; reflexivity. Qed.

Lemma spaceTab_space c : spaceTab c = true -> isWhiteSpace c = true.
Proof.
  unfold spaceTab. intros H. apply orb_prop in H.
  destruct H as [H|H]; apply Ascii.eqb_eq in H; subst; reflexivity.
Qed.

Lemma class_nonempty p x :
  exec (Class p) x <> [] <->
  exists c s, after x = c :: s /\ p (canon c) = true.
Proof.
  rewrite exec_nonempty. split.
  - intros (y & H). apply in_class in H. destruct H as (c & s & ? & ? & _).
    eauto.
  - intros (c & s & E & H). eexists. apply in_class. eauto.
Qed.

Lemma look_command x :
  exec (Alt cSpace (Alt (Chr "("%char) Eol)) x <> []
  <-> lookCommand (after x) = true.
Proof.
  rewrite exec_nonempty. unfold cSpace. split.
  - intros (y & H). inv_exec.
    + rewrite H. simpl. unfold canon in *. rewrite isWhiteSpace_up in *.
      now rewrite H0.
    + rewrite H. simpl. apply up_const in H0; [|reflexivity]. subst.
      apply orb_true_r.
    + now rewrite H.
  - destruct x as [B [|c s] caps]; cbn [after lookCommand].
    + intros _. eexists. apply in_alt. right. apply in_alt. right.
      apply in_eol. eauto.
    + intros H. apply orb_prop in H. destruct H as [H|H].
      * eexists. apply in_alt. left. apply in_class. exists c, s.
        unfold canon. rewrite isWhiteSpace_up. eauto.
      * apply Ascii.eqb_eq in H. subst. eexists. apply in_alt. right.
        apply in_alt. left. apply in_chr. eexists _, _.
        cbn [after]. repeat split; reflexivity.
Qed.

Lemma look_scoped x :
  exec (Alt (Chr "."%char) (Chr "="%char)) x <> []
  <-> lookScoped (after x) = true.
Proof.
  rewrite exec_nonempty. split.
  - intros (y & H). inv_exec; rewrite H; simpl;
      (apply up_const in H0; [|reflexivity]); subst; reflexivity.
  - destruct x as [B [|c s] caps]; cbn [after lookScoped]; [discriminate|].
    intros H. apply orb_prop in H.
    destruct H as [H|H]; apply Ascii.eqb_eq in H; subst; eexists;
      apply in_alt; [left|right]; apply in_chr; eexists _, _;
      cbn [after]; repeat split; reflexivity.
Qed.

Lemma nlook_nonspace x :
  exec cNonSpace x = [] <-> spaceOrEnd (after x) = true.
Proof.
  unfold cNonSpace. cbn [exec]. destruct (after x) as [|c s]; simpl.
  - tauto.
  - unfold canon. rewrite isWhiteSpace_up.
    destruct (isWhiteSpace c); simpl; split; congruence.
Qed.

(** The command pattern at a position of the line. *)
Lemma command_iff k B suf y :
  In y (exec (commandPattern k) (mkState B suf [])) <->
  exists m rest,
    suf = m ++ rest /\ toUpperCase m = toUpperCase k
    /\ xorb (wordNext B) (wordNext suf) = true
    /\ xorb (wordNext (rev m ++ B)) (wordNext rest) = true
    /\ lookCommand rest = true
    /\ y = mkState (rev m ++ B) rest
             [(1, (length B, length (rev m ++ B)))].
Proof.
  unfold commandPattern. split.
  - intros H. inv_exec.
    match goal with
    | H : exec _ _ <> [] |- _ => apply look_command in H; cbn [after] in H
    end.
    eexists _, _. repeat split; eauto.
  - intros (m & rest & -> & Hm & H1 & H2 & H3 & ->).
    eapply seq_intro; [apply wordb_intro; assumption|].
    eapply seq_intro; [apply group_intro, lit_intro; eassumption|].
    cbn [before after captures].
    eapply seq_intro; [apply wordb_intro; assumption|].
    apply in_look_free; [reflexivity|]. split; [|reflexivity].
    now apply look_command.
Qed.

(** The trigger pattern at a position of the line. *)
Lemma trigger_iff B suf y :
  In y (exec triggerPattern (mkState B suf [])) <->
  exists h w t rest,
    suf = h ++ w ++ t ++ rest /\ toUpperCase h = txt "ON=@"
    /\ w <> [] /\ forallb isWordChar w = true
    /\ forallb notSpaceSlash t = true
    /\ xorb (wordNext B) (wordNext suf) = true
    /\ xorb (wordNext (rev w ++ rev h ++ B)) (wordNext (t ++ rest)) = true
    /\ spaceOrEnd rest = true
    /\ y = mkState (rev t ++ rev w ++ rev h ++ B) rest
             [(1, (length B, length (rev t ++ rev w ++ rev h ++ B)))].
Proof.
  unfold triggerPattern, cWord. split.
  - intros H. inv_exec.
    match goal with
    | H : exec _ _ = [] |- _ => apply nlook_nonspace in H; cbn [after] in H
    end.
    rewrite forallb_canon in * by apply isWordChar_up.
    rewrite forallb_canon in * by apply notSpaceSlash_up.
    eexists _, _, _, _. repeat split; eauto.
  - intros (h & w & t & rest & -> & Hh & Hw0 & Hw & Ht & H1 & H2 & H3 & ->).
    eapply seq_intro.
    2:{ apply in_nlook. split; [|reflexivity]. now apply nlook_nonspace. }
    apply (group_intro 1 _ (mkState B _ [])
             (mkState (rev t ++ rev w ++ rev h ++ B) rest [])).
    eapply seq_intro; [apply wordb_intro; assumption|].
    eapply seq_intro; [apply lit_intro; eassumption|].
    eapply seq_intro;
      [apply plus_intro; auto using isWordChar_up|].
    eapply seq_intro; [apply wordb_intro; assumption|].
    apply star_intro; auto using notSpaceSlash_up.
Qed.

Lemma In_eq (y y' : MatchState) l : y = y' -> In y' l -> In y l.
Proof. now intros ->. Qed.

Lemma state_ext b b' a a' c c' :
  b = b' -> a = a' -> c = c' -> mkState b a c = mkState b' a' c'.
Proof. now intros -> -> ->. Qed.

Lemma capture_ext (n s s' e e' : nat) (l l' : list (nat * (nat * nat))) :
  s = s' -> e = e' -> l = l' -> (n, (s, e)) :: l = (n, (s', e')) :: l'.
Proof. now intros -> -> ->. Qed.

Ltac norm_idx :=
  unfold endIndex; cbn [before after captures];
  repeat first
    [ rewrite length_app | rewrite length_rev | rewrite app_nil_r
    | progress cbn [length] ].

Ltac norm_rev :=
  repeat first
    [ rewrite rev_app_distr | rewrite rev_involutive | rewrite <- app_assoc
    | rewrite app_nil_r | progress cbn [rev app] ].

Ltac state_eq :=
  apply state_ext;
  [ norm_rev; reflexivity
  | norm_rev; reflexivity
  | cbn [app]; repeat (apply capture_ext; [norm_idx; lia|norm_idx; lia|]);
    reflexivity ].

Ltac fix_classes :=
  rewrite ?app_nil_r in *;
  repeat match goal with
  | H : forallb (fun c => isWhiteSpace (canon c)) _ = true |- _ =>
      rewrite (forallb_canon isWhiteSpace) in H by apply isWhiteSpace_up
  | H : forallb (fun c => isWordChar (canon c)) _ = true |- _ =>
      rewrite (forallb_canon isWordChar) in H by apply isWordChar_up
  | H : forallb (fun c => notSpaceSlash (canon c)) _ = true |- _ =>
      rewrite (forallb_canon notSpaceSlash) in H by apply notSpaceSlash_up
  | H : forallb (fun c => notLineTerminator (canon c)) _ = true |- _ =>
      rewrite (forallb_canon notLineTerminator) in H
        by apply notLineTerminator_up
  | H : forallb (fun c => spaceTab (canon c)) _ = true |- _ =>
      rewrite (forallb_canon spaceTab) in H by apply spaceTab_up
  | H : upChar _ = upChar _ |- _ =>
      apply up_const in H; [vm_compute in H|reflexivity]
  end; subst; rewrite ?app_nil_r in *.

(** The scoped-prefix pattern, from the start of the line. *)
Lemma scoped_iff k B X y :
  In y (exec (scopedPattern k) (mkState B X [])) <->
  B = [] /\ exists w m rest,
    X = w ++ m ++ rest /\ forallb isWhiteSpace w = true
    /\ toUpperCase m = toUpperCase k /\ lookScoped rest = true
    /\ y = mkState (rev m ++ rev w) rest
             [(2, (length w, length w + length m)); (1, (0, length w))].
Proof.
  unfold scopedPattern, cSpace. split.
  - intros H. inv_exec.
    match goal with
    | H : exec _ _ <> [] |- _ => apply look_scoped in H; cbn [after] in H
    end.
    fix_classes.
    split; [reflexivity|]. eexists _, _, _. repeat split; eauto.
    state_eq.
  - intros (-> & w & m & rest & -> & Hw & Hm & Hl & ->).
    eapply In_eq; cycle 1.
    + eapply seq_intro; [apply in_bol; split; reflexivity|].
      eapply seq_intro;
        [apply group_intro, star_intro; auto using isWhiteSpace_up|].
      cbn [before after captures].
      eapply seq_intro; [apply group_intro, lit_intro; eassumption|].
      cbn [before after captures].
      apply in_look_free; [reflexivity|]. split; [|reflexivity].
      now apply look_scoped.
    + state_eq.
Qed.

(** The control-keyword pattern, from the start of the line. *)
Lemma control_iff k B X y :
  In y (exec (controlPattern k) (mkState B X [])) <->
  B = [] /\ exists w m rest,
    X = w ++ m ++ rest /\ forallb isWhiteSpace w = true
    /\ toUpperCase m = toUpperCase k
    /\ xorb (wordNext (rev m ++ rev w)) (wordNext rest) = true
    /\ y = mkState (rev m ++ rev w) rest
             [(2, (length w, length w + length m)); (1, (0, length w))].
Proof.
  unfold controlPattern, cSpace. split.
  - intros H. inv_exec.
    fix_classes.
    split; [reflexivity|]. eexists _, _, _. repeat split; eauto.
    state_eq.
  - intros (-> & w & m & rest & -> & Hw & Hm & Hl & ->).
    eapply In_eq; cycle 1.
    + eapply seq_intro; [apply in_bol; split; reflexivity|].
      eapply seq_intro;
        [apply group_intro, star_intro; auto using isWhiteSpace_up|].
      cbn [before after captures].
      eapply seq_intro; [apply group_intro, lit_intro; eassumption|].
      cbn [before after captures].
      apply wordb_intro. now rewrite app_nil_r.
    + state_eq.
Qed.

(** The assignment-keyword pattern, from the start of the line. *)
Lemma assignment_iff k B X y :
  In y (exec (assignmentPattern k) (mkState B X [])) <->
  B = [] /\ exists w m rest,
    X = w ++ m ++ "="%char :: rest /\ forallb spaceTab w = true
    /\ toUpperCase m = toUpperCase k
    /\ y = mkState ("="%char :: rev m ++ rev w) rest [].
Proof.
  unfold assignmentPattern. split.
  - intros H. inv_exec.
    fix_classes.
    split; [reflexivity|]. eexists _, _, _. repeat split; eauto.
  - intros (-> & w & m & rest & -> & Hw & Hm & ->).
    eapply In_eq; cycle 1.
    + eapply seq_intro; [apply in_bol; split; reflexivity|].
      eapply seq_intro; [apply star_intro; auto using spaceTab_up|].
      eapply seq_intro; [apply lit_intro; eassumption|].
      apply chr_intro. reflexivity.
    + now rewrite app_nil_r.
Qed.

(** The section-header pattern, from the start of the line. *)
Lemma section_iff B X y :
  In y (exec sectionPattern (mkState B X [])) <->
  B = [] /\ exists w1 word g w2 caps,
    X = w1 ++ "["%char :: word ++ g ++ "]"%char :: w2
    /\ forallb isWhiteSpace w1 = true
    /\ word <> [] /\ forallb isWordChar word = true
    /\ sectionRest g caps (length w1 + 1 + length word)
    /\ forallb isWhiteSpace w2 = true
    /\ y = mkState (rev X) []
             (caps ++ [(1, (length w1 + 1, length w1 + 1 + length word))]).
Proof.
  unfold sectionPattern, cSpace, cWord, cDot, Opt. split.
  - intros H. inv_exec; fix_classes.
    + split; [reflexivity|].
      match goal with
      | |- exists _ _ _ _ _, ?a ++ _ :: ?b ++ ?c ++ ?d ++ _ :: ?e = _ /\ _ =>
          exists a, b, (c ++ d), e,
            [(2, (length a + 1 + length b,
                  length a + 1 + length b + length (c ++ d)))]
      end.
      repeat split; auto.
      * now rewrite <- !app_assoc.
      * right. eexists _, _. repeat split; eauto.
      * state_eq.
    + split; [reflexivity|].
      match goal with
      | |- exists _ _ _ _ _, ?a ++ _ :: ?b ++ _ :: ?e = _ /\ _ =>
          exists a, b, [], e, []
      end.
      repeat split; auto.
      * now left.
      * state_eq.
  - intros (-> & w1 & word & g & w2 & caps & -> & H1 & H2 & H3 & H4 & H5 & ->).
    destruct H4 as [(-> & ->)|(s & d & -> & Hs & Hws & Hd & ->)];
      (eapply In_eq; cycle 1; [|shelve]).
    + eapply seq_intro; [apply in_bol; split; reflexivity|].
      eapply seq_intro; [apply star_intro; auto using isWhiteSpace_up|].
      eapply seq_intro; [apply chr_intro; reflexivity|].
      eapply seq_intro;
        [apply group_intro, plus_intro; auto using isWordChar_up|].
      cbn [before after captures].
      eapply seq_intro; [apply in_alt; right; apply in_empty; reflexivity|].
      cbn [app].
      eapply seq_intro; [apply chr_intro; reflexivity|].
      eapply seq_intro.
      { rewrite <- (app_nil_r w2) at 1.
        apply star_intro; auto using isWhiteSpace_up. }
      apply in_eol. split; reflexivity.
    + eapply seq_intro; [apply in_bol; split; reflexivity|].
      eapply seq_intro; [apply star_intro; auto using isWhiteSpace_up|].
      eapply seq_intro; [apply chr_intro; reflexivity|].
      eapply seq_intro;
        [apply group_intro, plus_intro; auto using isWordChar_up|].
      cbn [before after captures].
      eapply seq_intro.
      { apply in_alt. left. apply group_intro.
        rewrite <- app_assoc.
        eapply seq_intro;
          [apply plus_intro; auto using isWhiteSpace_up|].
        apply (star_intro notLineTerminator);
          auto using notLineTerminator_up. }
      cbn [before after captures].
      eapply seq_intro; [apply chr_intro; reflexivity|].
      eapply seq_intro.
      { rewrite <- (app_nil_r w2) at 1.
        apply star_intro; auto using isWhiteSpace_up. }
      apply in_eol. split; reflexivity.
    Unshelve. all: state_eq.
Qed.

End Patterns.

(** ** The rules, one by one *)

Section Rules.

Lemma span_unique p w t w' t' :
  w ++ t = w' ++ t' ->
  forallb p w = true -> forallb p w' = true ->
  stops p t = true -> stops p t' = true ->
  w = w' /\ t = t'.
Proof.
  revert w'. induction w as [|c w IH]; intros [|c' w'] E Hw Hw' Ht Ht';
    simpl in *.
  - auto.
  - subst t. simpl in Ht. apply andb_prop in Hw'. destruct Hw' as [Hc _].
    rewrite Hc in Ht. discriminate.
  - subst t'. simpl in Ht'. apply andb_prop in Hw. destruct Hw as [Hc _].
    rewrite Hc in Ht'. discriminate.
  - injection E as <- E. apply andb_prop in Hw, Hw'.
    destruct Hw as [_ Hw], Hw' as [_ Hw'].
    destruct (IH w' E Hw Hw' Ht Ht') as [-> ->]. auto.
Qed.

Lemma substring_at (X a m b : str) s e :
  X = a ++ m ++ b -> s = length a -> e = length a + length m ->
  substring X s e = m.
Proof. intros -> -> ->. apply substring_mid. Qed.

Lemma rev_nil_inv (l : str) : rev l = [] -> l = [].
Proof.
  intros H. apply (f_equal (@rev ascii)) in H.
  now rewrite rev_involutive in H.
Qed.

(** A pattern that starts with [^] matches at index 0 or not at all. *)
Lemma replace_anchored r f X :
  (forall B s y, In y (exec r (mkState B s [])) -> B = []) ->
  (regExpExec r X 0 = None /\ replace r f X = X)
  \/ exists y,
       regExpExec r X 0 = Some (0, y)
       /\ In y (exec r (mkState [] X []))
       /\ replace r f X = f (rev (before y)) (group X y) ++ after y.
Proof.
  intros Hb. unfold replace.
  destruct (regExpExec r X 0) as [[p y]|] eqn:E; [right|now left].
  pose proof E as E'. apply regExpExec_split in E'.
  destruct E' as (pre & m & EX & L & _ & H & B & I).
  apply hd_error_in in H. pose proof (Hb _ _ _ H) as Hpre.
  apply rev_nil_inv in Hpre. subst pre. simpl in *. subst p.
  exists y. repeat split; auto.
  - now rewrite EX.
  - rewrite B, app_nil_r, rev_involutive, I. simpl.
    assert (E2 : substring X 0 (length m) = m)
      by (rewrite EX; apply substring_pre).
    assert (E3 : skipn (length m) X = after y)
      by (rewrite EX; apply (skipn_mid [])).
    now rewrite E2, E3.
Qed.

Lemma regExpExec_found r X y :
  In y (exec r (mkState [] X [])) -> regExpExec r X 0 <> None.
Proof.
  intros H E. pose proof (regExpExec_none _ _ _ E 0) as H0.
  unfold startState in H0. simpl in H0. rewrite H0 in H by lia.
  contradiction.
Qed.

Lemma scopedStep_cases X k :
  (regExpExec (scopedPattern k) X 0 = None /\ scopedStep X k = X)
  \/ exists y w m rest,
       regExpExec (scopedPattern k) X 0 = Some (0, y)
       /\ lookup 2 (captures y) = Some (length w, length w + length m)
       /\ X = w ++ m ++ rest /\ forallb isWhiteSpace w = true
       /\ toUpperCase m = toUpperCase k /\ lookScoped rest = true
       /\ scopedStep X k = w ++ toUpperCase m ++ rest.
Proof.
  unfold scopedStep.
  destruct (replace_anchored (scopedPattern k) keepSpaceUpper X)
    as [H|(y & E & H & R)]; [|now left|right].
  { intros B s y H. now apply scoped_iff in H. }
  apply scoped_iff in H.
  destruct H as (_ & w & m & rest & EX & Hw & Hm & Hl & ->).
  eexists _, w, m, rest. repeat split; eauto.
  rewrite R. unfold keepSpaceUpper. cbn [before after].
  unfold group. cbn [captures lookup Nat.eqb orEmpty].
  rewrite (substring_at X [] w (m ++ rest) 0 (length w)) by auto.
  rewrite (substring_at X w m rest (length w) (length w + length m)) by auto.
  now rewrite <- app_assoc.
Qed.

Lemma controlStep_cases X k :
  (regExpExec (controlPattern k) X 0 = None /\ controlStep X k = X)
  \/ exists y w m rest,
       regExpExec (controlPattern k) X 0 = Some (0, y)
       /\ lookup 2 (captures y) = Some (length w, length w + length m)
       /\ X = w ++ m ++ rest /\ forallb isWhiteSpace w = true
       /\ toUpperCase m = toUpperCase k
       /\ xorb (wordNext (rev m ++ rev w)) (wordNext rest) = true
       /\ controlStep X k = w ++ toUpperCase m ++ rest.
Proof.
  unfold controlStep.
  destruct (replace_anchored (controlPattern k) keepSpaceUpper X)
    as [H|(y & E & H & R)]; [|now left|right].
  { intros B s y H. now apply control_iff in H. }
  apply control_iff in H.
  destruct H as (_ & w & m & rest & EX & Hw & Hm & Hl & ->).
  eexists _, w, m, rest. repeat split; eauto.
  rewrite R. unfold keepSpaceUpper. cbn [before after].
  unfold group. cbn [captures lookup Nat.eqb orEmpty].
  rewrite (substring_at X [] w (m ++ rest) 0 (length w)) by auto.
  rewrite (substring_at X w m rest (length w) (length w + length m)) by auto.
  now rewrite <- app_assoc.
Qed.

Lemma assignmentStep_cases X k :
  (regExpExec (assignmentPattern k) X 0 = None /\ assignmentStep X k = X)
  \/ exists w m rest,
       X = w ++ m ++ "="%char :: rest /\ forallb spaceTab w = true
       /\ toUpperCase m = toUpperCase k
       /\ assignmentStep X k = toUpperCase k ++ "="%char :: rest.
Proof.
  unfold assignmentStep.
  destruct (replace_anchored (assignmentPattern k)
              (fun _ _ => toUpperCase k ++ txt "=") X)
    as [H|(y & E & H & R)]; [|now left|right].
  { intros B s y H. now apply assignment_iff in H. }
  apply assignment_iff in H.
  destruct H as (_ & w & m & rest & EX & Hw & Hm & ->).
  exists w, m, rest. repeat split; eauto.
  rewrite R. cbn [before after]. now rewrite <- app_assoc.
Qed.

Lemma formatSectionHeaders_cases X :
  (regExpExec sectionPattern X 0 = None /\ formatSectionHeaders X = X)
  \/ exists w1 word g w2,
       X = w1 ++ "["%char :: word ++ g ++ "]"%char :: w2
       /\ forallb isWhiteSpace w1 = true
       /\ word <> [] /\ forallb isWordChar word = true
       /\ headerRest g /\ forallb isWhiteSpace w2 = true
       /\ formatSectionHeaders X
          = "["%char :: toUpperCase word ++ g ++ ["]"%char].
Proof.
  unfold formatSectionHeaders.
  match goal with
  | |- context [replace _ ?f X] =>
      destruct (replace_anchored sectionPattern f X)
        as [H|(y & E & H & R)]; [|now left|right]
  end.
  { intros B s y H. now apply section_iff in H. }
  apply section_iff in H.
  destruct H as (_ & w1 & word & g & w2 & caps & EX & H1 & H2 & H3 & H4 & H5
                 & ->).
  exists w1, word, g, w2. rewrite R. cbn [before after]. unfold group.
  cbn [captures].
  assert (E1 : substring X (length w1 + 1) (length w1 + 1 + length word)
               = word).
  { apply (substring_at X (w1 ++ ["["%char]) word (g ++ "]"%char :: w2)).
    - now rewrite EX, <- app_assoc.
    - rewrite length_app. reflexivity.
    - rewrite length_app. reflexivity. }
  destruct H4 as [(-> & ->)|(s & d & -> & Hs & Hws & Hd & ->)].
  - repeat split; auto; [now left|]. cbn [app lookup Nat.eqb orEmpty].
    rewrite E1. now rewrite app_nil_r.
  - repeat split; auto.
    { right. exists s, d. auto. }
    cbn [app lookup Nat.eqb orEmpty]. rewrite E1.
    rewrite (substring_at X (w1 ++ "["%char :: word) (s ++ d)
               ("]"%char :: w2)).
    + now rewrite app_nil_r.
    + now rewrite EX, <- !app_assoc.
    + rewrite !length_app. simpl. lia.
    + rewrite !length_app. simpl. lia.
Qed.

(** *** Four rules change letter case only *)

Lemma caseRule_of_region (rule : str -> str) (R : str -> option (nat * nat)) :
  (forall X, R (toUpperCase X) = R X) ->
  (forall X, match R X with
             | None => rule X = X
             | Some (a, b) =>
                 a <= b <= length X
                 /\ rule X = firstn a X ++ toUpperCase (substring X a b)
                               ++ skipn b X
             end) ->
  caseRule rule.
Proof.
  intros Hi H.
  exists (fun X => match R X with
                   | Some (a, b) => rangeMask a b
                   | None => []
                   end).
  split; intros X.
  - specialize (H X). destruct (R X) as [[a b]|]; [|exact H].
    destruct H as [Hab ->]. symmetry. apply upmask_range; lia.
  - now rewrite Hi.
Qed.

Lemma group2_ci r X : group2 r (toUpperCase X) = group2 r X.
Proof.
  unfold group2. rewrite regExpExec_ci.
  now destruct (regExpExec r X 0) as [[p y]|].
Qed.

Lemma upRange_pieces (w m rest : str) :
  length w <= length w + length m <= length (w ++ m ++ rest)
  /\ w ++ toUpperCase m ++ rest
     = firstn (length w) (w ++ m ++ rest)
       ++ toUpperCase
            (substring (w ++ m ++ rest) (length w) (length w + length m))
       ++ skipn (length w + length m) (w ++ m ++ rest).
Proof.
  split; [rewrite !length_app; lia|].
  now rewrite firstn_pre, substring_mid, skipn_mid.
Qed.

Lemma scopedStep_caseRule k : caseRule (fun X => scopedStep X k).
Proof.
  apply caseRule_of_region with (R := group2 (scopedPattern k));
    [apply group2_ci|].
  intros X. unfold group2.
  destruct (scopedStep_cases X k)
    as [[E H]|(y & w & m & rest & E & Hc & EX & _ & _ & _ & H)]; rewrite E.
  - exact H.
  - rewrite Hc, H, EX. apply upRange_pieces.
Qed.

Lemma controlStep_caseRule k : caseRule (fun X => controlStep X k).
Proof.
  apply caseRule_of_region with (R := group2 (controlPattern k));
    [apply group2_ci|].
  intros X. unfold group2.
  destruct (controlStep_cases X k)
    as [[E H]|(y & w & m & rest & E & Hc & EX & _ & _ & _ & H)]; rewrite E.
  - exact H.
  - rewrite Hc, H, EX. apply upRange_pieces.
Qed.

Lemma formatScopedAssignments_caseRule K :
  caseRule (formatScopedAssignments K).
Proof.
  apply (caseRule_fold (fun k X => scopedStep X k)), scopedStep_caseRule.
Qed.

Lemma formatControlKeywords_caseRule K : caseRule (formatControlKeywords K).
Proof.
  apply (caseRule_fold (fun k X => controlStep X k)), controlStep_caseRule.
Qed.

Lemma replaceAll_upper_caseRule r :
  caseRule (replaceAll r (fun m _ => toUpperCase m)).
Proof.
  exists (fun X => resultsMask (collect r X (S (length X)) 0) 0).
  split; intros X.
  - unfold replaceAll. rewrite assemble_upmask; [reflexivity|].
    now apply collect_ordered.
  - now rewrite toUpperCase_length, collect_ci, resultsMask_up.
Qed.

Lemma formatTriggers_caseRule : caseRule formatTriggers.
Proof. apply replaceAll_upper_caseRule. Qed.

(** A match of a pattern at index [p], by the pieces of the line. *)
Lemma match_pieces r X p y :
  hd_error (exec r (startState X p)) = Some y -> p <= length X ->
  exists pre m,
    X = pre ++ m ++ after y /\ length pre = p
    /\ endIndex y = p + length m
    /\ substring X p (endIndex y) = m
    /\ In y (exec r (mkState (rev pre) (m ++ after y) [])).
Proof.
  intros H Hp. apply hd_error_in in H.
  destruct (exec_start r X p y H Hp) as (pre & m & EX & L & B & I).
  exists pre, m. repeat split; auto.
  - rewrite I, <- L. rewrite EX at 1. apply substring_mid.
  - rewrite <- (startState_app pre (m ++ after y)), <- EX, L. exact H.
Qed.

Lemma commandStep_upper X k :
  commandStep X k
  = replaceAll (commandPattern k) (fun m _ => toUpperCase m) X.
Proof.
  unfold commandStep, replaceAll. apply assemble_ext. intros p y H.
  apply collect_in in H. destruct H as [[_ Hp] H].
  destruct (match_pieces _ _ _ _ H Hp) as (pre & m & EX & L & I & Es & Hy).
  rewrite Es. apply command_iff in Hy.
  destruct Hy as (m' & rest & E & Hm & _ & _ & _ & ->).
  cbn [after] in E. apply app_inv_tail in E. now subst m'.
Qed.

Lemma commandStep_caseRule k : caseRule (fun X => commandStep X k).
Proof.
  apply caseRule_ext
    with (r := replaceAll (commandPattern k) (fun m _ => toUpperCase m)).
  - intros X. symmetry. apply commandStep_upper.
  - apply replaceAll_upper_caseRule.
Qed.

Lemma formatCommandCalls_caseRule : caseRule formatCommandCalls.
Proof.
  apply (caseRule_fold (fun k X => commandStep X k)), commandStep_caseRule.
Qed.

(** *** Global replacement reaches every occurrence *)

Lemma ordered_in X rs next p y :
  ordered X rs next -> In (p, y) rs ->
  next <= p /\ p <= endIndex y /\ endIndex y <= length X.
Proof.
  revert next. induction rs as [|[q z] rs IH]; intros next H Hin;
    [contradiction|].
  destruct H as (H1 & H2 & H3 & H4). destruct Hin as [[= <- <-]|Hin].
  - auto.
  - apply (IH _ H4) in Hin. lia.
Qed.

Lemma assemble_length X rs next :
  ordered X rs next ->
  length (assemble X (fun m _ => toUpperCase m) rs next) = length X - next.
Proof.
  intros H. now rewrite assemble_upmask, upmask_length, length_skipn.
Qed.

Lemma assemble_in X rs next p y :
  ordered X rs next -> In (p, y) rs ->
  exists A B,
    assemble X (fun m _ => toUpperCase m) rs next
    = A ++ toUpperCase (substring X p (endIndex y)) ++ B
    /\ length A = p - next.
Proof.
  revert next. induction rs as [|[q z] rs IH]; intros next H Hin;
    [contradiction|].
  pose proof H as (H1 & H2 & H3 & H4). cbn [assemble].
  destruct (next <=? q) eqn:E; [|apply Nat.leb_gt in E; lia].
  destruct Hin as [[= <- <-]|Hin].
  - eexists _, _. split; [reflexivity|]. apply substring_length; lia.
  - destruct (IH _ H4 Hin) as (A & B & EA & LA).
    pose proof (ordered_in _ _ _ _ _ H4 Hin) as Hb.
    exists (substring X next q ++ toUpperCase (substring X q (endIndex z))
              ++ A), B.
    split; [now rewrite EA, <- !app_assoc|].
    rewrite !length_app, toUpperCase_length, !substring_length by lia. lia.
Qed.

(** A match at index [i] that reaches [e] is reached by the global search,
    when no earlier match ends strictly between [i] and [e]. *)
Lemma collect_covers r X i e :
  i <= length X ->
  exec r (startState X i) <> [] ->
  (forall p y, p <= i -> hd_error (exec r (startState X p)) = Some y ->
     p < endIndex y /\ (endIndex y <= i \/ e <= endIndex y)) ->
  forall fuel last, last <= i -> i - last < fuel ->
  exists p y, In (p, y) (collect r X fuel last) /\ p <= i /\ e <= endIndex y.
Proof.
  intros Hi Hne Hst. induction fuel as [|fuel IH]; intros last Hl Hf; [lia|].
  cbn [collect]. destruct (regExpExec r X last) as [[p y]|] eqn:E.
  - apply regExpExec_some in E. destruct E as (Hp & Hy & Hmin).
    assert (Hpi : p <= i).
    { destruct (Nat.le_gt_cases p i) as [|Hgt]; [assumption|].
      exfalso. apply Hne. apply Hmin. lia. }
    destruct (Hst _ _ Hpi Hy) as [Hlt [Hend|Hend]].
    + assert (En : (endIndex y =? p) = false) by (apply Nat.eqb_neq; lia).
      rewrite En. destruct (IH (endIndex y)) as (p' & y' & Hin & H1 & H2);
        try lia.
      exists p', y'. repeat split; auto. now right.
    + exists p, y. repeat split; auto. now left.
  - exfalso. apply Hne. apply (regExpExec_none _ _ _ E). lia.
Qed.

Lemma app_eq_length {A} (a b a' b' : list A) :
  a ++ b = a' ++ b' -> length a = length a' -> a = a' /\ b = b'.
Proof.
  revert a'. induction a as [|x a IH]; intros [|x' a'] E L; simpl in *;
    try discriminate; auto.
  injection E as -> E. destruct (IH a' E) as [-> ->]; auto.
Qed.

Lemma substring_cover (pre t rest : str) p e :
  p <= length pre -> length pre + length t <= e ->
  substring (pre ++ t ++ rest) p e
  = skipn p pre ++ t ++ firstn (e - length pre - length t) rest.
Proof.
  intros Hp He. unfold substring.
  rewrite skipn_app. replace (p - length pre) with 0 by lia. cbn [skipn].
  rewrite firstn_app, firstn_all2 by (rewrite length_skipn; lia).
  f_equal. rewrite length_skipn.
  rewrite firstn_app, firstn_all2 by lia. f_equal. f_equal. lia.
Qed.

(** What a covering match does to an occurrence [t] of the line. *)
Lemma covered_output r X pre t rest p y :
  X = pre ++ t ++ rest ->
  In (p, y) (collect r X (S (length X)) 0) ->
  p <= length pre -> length pre + length t <= endIndex y ->
  exists pre' rest',
    replaceAll r (fun m _ => toUpperCase m) X
    = pre' ++ toUpperCase t ++ rest'
    /\ cle pre pre' /\ cle rest rest'.
Proof.
  intros EX Hin Hp He.
  pose proof (collect_ordered r X (S (length X)) 0 0 (Nat.le_refl 0)) as Ho.
  destruct (assemble_in _ _ _ _ _ Ho Hin) as (A & B & EO & LA).
  pose proof (caseRule_cle _ X (replaceAll_upper_caseRule r)) as Hc.
  unfold replaceAll in *. rewrite EO in *. clear EO.
  rewrite EX in Hc at 1. apply cle_app_inv in Hc.
  destruct Hc as (pre' & O2 & E1 & Hpre & Hc). apply cle_app_inv in Hc.
  destruct Hc as (t' & rest' & -> & Ht & Hrest).
  exists pre', rest'. repeat split; auto.
  rewrite EX, (substring_cover pre t rest p (endIndex y) Hp He) in E1.
  rewrite EX, (substring_cover pre t rest p (endIndex y) Hp He).
  rewrite !toUpperCase_app, <- !app_assoc, (app_assoc A) in E1.
  rewrite !toUpperCase_app, <- !app_assoc, (app_assoc A).
  apply app_eq_length in E1.
  - destruct E1 as [E0 E1]. apply app_eq_length in E1.
    + destruct E1 as [E1 E2]. now rewrite E0, E1, E2.
    + rewrite toUpperCase_length. now apply cle_length.
  - rewrite length_app, toUpperCase_length, length_skipn, LA.
    rewrite <- (cle_length _ _ Hpre). lia.
Qed.

(** When a global upper-casing leaves the line changed, some match was not
    in upper case. *)
Lemma assemble_fixed X rs next :
  ordered X rs next ->
  (forall p y, In (p, y) rs ->
     toUpperCase (substring X p (endIndex y)) = substring X p (endIndex y)) ->
  assemble X (fun m _ => toUpperCase m) rs next = skipn next X.
Proof.
  revert next. induction rs as [|[q z] rs IH]; intros next H Hf;
    [reflexivity|].
  destruct H as (H1 & H2 & H3 & H4). cbn [assemble].
  destruct (next <=? q) eqn:E; [|apply Nat.leb_gt in E; lia].
  rewrite Hf by now left. rewrite IH; auto.
  - now rewrite <- !skipn_split.
  - intros p y Hin. apply Hf. now right.
Qed.

Lemma str_eq_dec (a b : str) : {a = b} + {a <> b}.
Proof. apply list_eq_dec, ascii_dec. Qed.

Lemma replaceAll_changed r X :
  replaceAll r (fun m _ => toUpperCase m) X <> X ->
  exists p y, In (p, y) (collect r X (S (length X)) 0)
    /\ toUpperCase (substring X p (endIndex y)) <> substring X p (endIndex y).
Proof.
  intros Hne. unfold replaceAll in Hne.
  set (rs := collect r X (S (length X)) 0) in *.
  destruct (Exists_dec
              (fun q : nat * MatchState =>
                 toUpperCase (substring X (fst q) (endIndex (snd q)))
                 <> substring X (fst q) (endIndex (snd q))) rs)
    as [Hex|Hno].
  - intros q. destruct (str_eq_dec
      (toUpperCase (substring X (fst q) (endIndex (snd q))))
      (substring X (fst q) (endIndex (snd q)))); [right|left]; auto.
  - apply Exists_exists in Hex. destruct Hex as ([p y] & Hin & H). eauto.
  - exfalso. apply Hne. rewrite assemble_fixed.
    + reflexivity.
    + now apply collect_ordered.
    + intros p y Hin.
      destruct (str_eq_dec (toUpperCase (substring X p (endIndex y)))
                  (substring X p (endIndex y))) as [E|E]; [exact E|].
      exfalso. apply Hno. apply Exists_exists. exists (p, y). auto.
Qed.

(** *** Occurrences of triggers and of command keywords *)

Lemma takeWhile_dropWhile p s : takeWhile p s ++ dropWhile p s = s.
Proof.
  induction s as [|c s IH]; simpl; [reflexivity|].
  destruct (p c); simpl; [now rewrite IH|reflexivity].
Qed.

Lemma takeWhile_all p s : forallb p (takeWhile p s) = true.
Proof.
  induction s as [|c s IH]; simpl; [reflexivity|].
  destruct (p c) eqn:E; simpl; [now rewrite E, IH|reflexivity].
Qed.

Lemma dropWhile_stops p s : stops p (dropWhile p s) = true.
Proof.
  induction s as [|c s IH]; simpl; [reflexivity|].
  destruct (p c) eqn:E; simpl; [exact IH|now rewrite E].
Qed.

Lemma trimStart_dropWhile s : trimStart s = dropWhile isWhiteSpace s.
Proof. induction s as [|c s IH]; simpl; [|rewrite IH]; reflexivity. Qed.

Lemma noSpace_app s t : noSpace (s ++ t) = noSpace s && noSpace t.
Proof. apply forallb_app. Qed.

Lemma noSpace_up s : noSpace (toUpperCase s) = noSpace s.
Proof.
  induction s as [|c s IH]; simpl; [reflexivity|].
  now rewrite isWhiteSpace_up, IH.
Qed.

Lemma forallb_impl (p q : ascii -> bool) s :
  (forall c, p c = true -> q c = true) ->
  forallb p s = true -> forallb q s = true.
Proof.
  intros H. induction s as [|c s IH]; simpl; [reflexivity|].
  intros E. apply andb_prop in E. destruct E as [E1 E2].
  now rewrite (H _ E1), IH.
Qed.

Lemma word_noSpace s : forallb isWordChar s = true -> noSpace s = true.
Proof.
  apply forallb_impl. intros c H. pose proof (space_not_word c) as E.
  rewrite H in E. now destruct (isWhiteSpace c).
Qed.

Lemma notSpaceSlash_noSpace s :
  forallb notSpaceSlash s = true -> noSpace s = true.
Proof.
  apply forallb_impl. intros c H. unfold notSpaceSlash in H.
  now destruct (isWhiteSpace c).
Qed.

Lemma noSpace_in s c : noSpace s = true -> In c s -> isWhiteSpace c = false.
Proof.
  intros H Hin. unfold noSpace in H. rewrite forallb_forall in H.
  specialize (H _ Hin). now destruct (isWhiteSpace c).
Qed.

Lemma forallb_up (p : ascii -> bool) s :
  (forall c, p (upChar c) = p c) ->
  forallb p (toUpperCase s) = forallb p s.
Proof.
  intros H. induction s as [|c s IH]; simpl; [reflexivity|].
  now rewrite H, IH.
Qed.

Lemma wordNext_app_l s t : s <> [] -> wordNext (s ++ t) = wordNext s.
Proof. now destruct s. Qed.

Lemma wordNext_rev_all s t :
  s <> [] -> forallb isWordChar s = true -> wordNext (rev s ++ t) = true.
Proof.
  intros Hne H. rewrite wordNext_app_l.
  - destruct (rev s) as [|c l] eqn:E.
    + apply rev_nil_inv in E. contradiction.
    + simpl. rewrite forallb_forall in H. apply H. apply in_rev.
      rewrite E. now left.
  - intros E. apply rev_nil_inv in E. contradiction.
Qed.

Lemma wordNext_head_all s t :
  s <> [] -> forallb isWordChar s = true -> wordNext (s ++ t) = true.
Proof.
  destruct s as [|c s]; [congruence|]. simpl. intros _ H.
  now apply andb_prop in H.
Qed.

Lemma upper_word k m :
  toUpperCase m = toUpperCase k ->
  forallb isWordChar m = forallb isWordChar k /\ length m = length k.
Proof.
  intros E. split.
  - rewrite <- (forallb_up isWordChar m), <- (forallb_up isWordChar k), E
      by apply isWordChar_up. reflexivity.
  - rewrite <- (toUpperCase_length m), E. apply toUpperCase_length.
Qed.

Lemma wordToken_spec k :
  wordToken k = true <-> k <> [] /\ forallb isWordChar k = true.
Proof.
  destruct k as [|c k]; cbn [wordToken].
  - split; [discriminate|]. intros [H _]. congruence.
  - split; [intros H; split; [discriminate|assumption]|now intros [_ H]].
Qed.

Lemma upper_token k m :
  wordToken k = true -> toUpperCase m = toUpperCase k ->
  m <> [] /\ forallb isWordChar m = true.
Proof.
  intros Hk E. apply wordToken_spec in Hk. destruct Hk as [Hne Hw].
  destruct (upper_word k m E) as [E1 E2]. split; [|congruence].
  intros ->. destruct k; [congruence|discriminate].
Qed.

Lemma nth_error_at (a b : str) : nth_error (a ++ b) (length a) = hd_error b.
Proof.
  rewrite nth_error_app2, Nat.sub_diag by lia. now destruct b.
Qed.

Lemma nth_error_mid (a m b : str) q :
  length a <= q < length a + length m ->
  exists c, nth_error (a ++ m ++ b) q = Some c /\ In c m.
Proof.
  intros H. rewrite nth_error_app2, nth_error_app1 by lia.
  destruct (nth_error m (q - length a)) as [c|] eqn:E.
  - exists c. split; [reflexivity|]. eapply nth_error_In; eauto.
  - apply nth_error_None in E. lia.
Qed.

Lemma nth_error_last (pre b : str) :
  pre <> [] -> nth_error (pre ++ b) (length pre - 1) = hd_error (rev pre).
Proof.
  intros Hne. destruct (rev pre) as [|c l] eqn:E.
  - apply rev_nil_inv in E. contradiction.
  - apply (f_equal (@rev ascii)) in E. rewrite rev_involutive in E.
    subst pre. simpl. rewrite length_app, <- app_assoc. simpl.
    replace (length (rev l) + 1 - 1) with (length (rev l)) by lia.
    apply nth_error_at.
Qed.

Lemma startsWith_firstn s p :
  startsWith s p = true -> firstn (length p) s = p.
Proof.
  revert s. induction p as [|a p IH]; intros [|c s] H; simpl in *;
    try discriminate; try reflexivity.
  apply andb_prop in H. destruct H as [H1 H2]. apply Ascii.eqb_eq in H1.
  subst. now rewrite IH.
Qed.

Lemma triggerText_split t :
  triggerText t = true ->
  exists h tok, t = h ++ tok /\ toUpperCase h = txt "ON=@"
    /\ wordNext tok = true /\ forallb notSpaceSlash tok = true.
Proof.
  unfold triggerText. intros H. apply andb_prop in H. destruct H as [H H3].
  apply andb_prop in H. destruct H as [H1 H2].
  exists (firstn 4 t), (skipn 4 t). repeat split; auto.
  - symmetry. apply firstn_skipn.
  - apply startsWith_firstn in H1. unfold toUpperCase in *.
    now rewrite <- firstn_map.
Qed.

Lemma trigger_head_word h t :
  toUpperCase h = txt "ON=@" -> wordNext (h ++ t) = true.
Proof.
  destruct h as [|c h]; [discriminate|]. simpl. intros [= E _].
  rewrite <- isWordChar_up, E. reflexivity.
Qed.

Lemma trigger_head_noSpace h : toUpperCase h = txt "ON=@" -> noSpace h = true.
Proof. intros E. now rewrite <- noSpace_up, E. Qed.

Lemma spaceOrEnd_not_word rest : spaceOrEnd rest = true -> wordNext rest = false.
Proof.
  destruct rest as [|c rest]; simpl; [reflexivity|]. intros H.
  pose proof (space_not_word c) as E. now rewrite H in E.
Qed.

Lemma lookCommand_not_word rest :
  lookCommand rest = true -> wordNext rest = false.
Proof.
  destruct rest as [|c rest]; simpl; [reflexivity|]. intros H.
  apply orb_prop in H. destruct H as [H|H].
  - pose proof (space_not_word c) as E. now rewrite H in E.
  - apply Ascii.eqb_eq in H. now subst.
Qed.

(** The trigger pattern matches at an occurrence, up to its end. *)
Lemma trigger_match pre t rest :
  triggerText t = true -> wordNext (rev pre) = false ->
  spaceOrEnd rest = true ->
  exists y, In y (exec triggerPattern (mkState (rev pre) (t ++ rest) []))
    /\ endIndex y = length pre + length t.
Proof.
  intros Ht Hpre Hrest.
  destruct (triggerText_split t Ht) as (h & tok & -> & Hh & Hw & Htok).
  pose proof (takeWhile_dropWhile isWordChar tok) as Etok.
  set (w := takeWhile isWordChar tok) in *.
  set (t2 := dropWhile isWordChar tok) in *.
  assert (Hww : forallb isWordChar w = true) by apply takeWhile_all.
  assert (Hwne : w <> []).
  { subst w. destruct tok as [|c tok]; [discriminate|]. simpl in *.
    now rewrite Hw. }
  assert (Ht2 : forallb notSpaceSlash t2 = true).
  { rewrite <- Etok, forallb_app in Htok. now apply andb_prop in Htok. }
  eexists. split.
  - apply trigger_iff. exists h, w, t2, rest. repeat split; auto.
    + now rewrite <- Etok, <- !app_assoc.
    + rewrite <- Etok, <- !app_assoc, Hpre.
      now rewrite (trigger_head_word h _ Hh).
    + rewrite wordNext_rev_all by assumption.
      assert (E : wordNext (t2 ++ rest) = false).
      { pose proof (dropWhile_stops isWordChar tok) as Hs. fold t2 in Hs.
        destruct t2 as [|c t2]; simpl in *.
        - now apply spaceOrEnd_not_word.
        - now destruct (isWordChar c). }
      now rewrite E.
  - unfold endIndex. cbn [before]. rewrite <- Etok.
    rewrite !length_app, !length_rev. lia.
Qed.

(** A match of the trigger pattern, wherever it starts. *)
Lemma trigger_found X p y :
  hd_error (exec triggerPattern (startState X p)) = Some y ->
  p <= length X ->
  exists pre m,
    X = pre ++ m ++ after y /\ length pre = p
    /\ endIndex y = p + length m /\ substring X p (endIndex y) = m
    /\ triggerText m = true /\ wordNext (rev pre) = false
    /\ spaceOrEnd (after y) = true /\ noSpace m = true /\ m <> [].
Proof.
  intros H Hp.
  destruct (match_pieces _ _ _ _ H Hp) as (pre & m & EX & L & I & Es & Hy).
  exists pre, m. apply trigger_iff in Hy.
  destruct Hy as (h & w & t & rest & E & Hh & Hne & Hw & Ht & H1 & H2 & H3
                  & ->).
  cbn [after] in *. rewrite !app_assoc in E. apply app_inv_tail in E.
  rewrite <- !app_assoc in E. subst m.
  assert (Hlen : length h = 4).
  { rewrite <- (toUpperCase_length h), Hh. reflexivity. }
  repeat split; auto.
  - unfold triggerText.
    assert (E4 : skipn 4 (h ++ w ++ t) = w ++ t).
    { rewrite <- Hlen, skipn_app, skipn_all, Nat.sub_diag. reflexivity. }
    rewrite E4, toUpperCase_app, Hh. cbn [startsWith txt
      list_ascii_of_string app]. rewrite !Ascii.eqb_refl. cbn [andb].
    rewrite wordNext_head_all by assumption.
    rewrite forallb_app, Ht.
    assert (Hn : forallb notSpaceSlash w = true).
    { revert Hw. apply forallb_impl.
      intros c Hc. unfold notSpaceSlash. pose proof (space_not_word c) as E.
      rewrite Hc in E. destruct (isWhiteSpace c); [discriminate|].
      destruct (Ascii.eqb c "/"%char) eqn:E'; [|reflexivity].
      apply Ascii.eqb_eq in E'. subst. discriminate. }
    rewrite Hn. now destruct (toUpperCase (w ++ t)).
  - rewrite <- app_assoc, (trigger_head_word h _ Hh) in H1.
    now destruct (wordNext (rev pre)).
  - rewrite !noSpace_app, (trigger_head_noSpace h Hh), (word_noSpace w Hw).
    now rewrite (notSpaceSlash_noSpace t Ht).
  - destruct h; [discriminate|discriminate].
Qed.

Lemma triggerText_noSpace t : triggerText t = true -> noSpace t = true.
Proof.
  intros H. destruct (triggerText_split t H) as (h & tok & -> & Hh & _ & Ht).
  now rewrite noSpace_app, (trigger_head_noSpace h Hh),
    (notSpaceSlash_noSpace tok Ht).
Qed.

(** The trigger rule upper-cases every occurrence of a trigger. *)
Lemma trigger_covered X pre t rest :
  X = pre ++ t ++ rest ->
  triggerText t = true -> wordNext (rev pre) = false ->
  spaceOrEnd rest = true ->
  exists pre' rest',
    formatTriggers X = pre' ++ toUpperCase t ++ rest'
    /\ cle pre pre' /\ cle rest rest'.
Proof.
  intros EX Ht Hpre Hrest.
  destruct (trigger_match pre t rest Ht Hpre Hrest) as (y0 & Hy0 & I0).
  assert (Hi : length pre <= length X) by (rewrite EX, length_app; lia).
  destruct (collect_covers triggerPattern X (length pre)
              (length pre + length t) Hi) with (fuel := S (length X))
    (last := 0) as (p & y & Hin & Hp & He); try lia.
  - rewrite EX, startState_app. apply exec_nonempty. eauto.
  - intros p y Hp Hy.
    destruct (trigger_found X p y Hy) as
      (pre1 & m & EX1 & L & I & _ & _ & _ & Hs & Hm & Hne); [lia|].
    split.
    + rewrite I. destruct m; [congruence|]. simpl. lia.
    + destruct (Nat.le_gt_cases (endIndex y) (length pre)) as [|Hgt];
        [now left|right].
      destruct (Nat.le_gt_cases (length pre + length t) (endIndex y))
        as [|Hlt]; [assumption|exfalso].
      destruct (nth_error_mid pre t rest (endIndex y)) as (c & Hc & Hct);
        [lia|].
      rewrite <- EX in Hc.
      assert (E : nth_error X (endIndex y) = hd_error (after y)).
      { rewrite EX1 at 1. rewrite app_assoc, I, <- L, <- length_app.
        apply nth_error_at. }
      rewrite Hc in E. destruct (after y) as [|c' r]; [discriminate|].
      injection E as <-. simpl in Hs.
      rewrite (noSpace_in t c (triggerText_noSpace t Ht) Hct) in Hs.
      discriminate.
  - apply (covered_output triggerPattern X pre t rest p y); auto.
Qed.

Lemma wordNext_rev_up s : wordNext (rev (toUpperCase s)) = wordNext (rev s).
Proof. unfold toUpperCase. rewrite <- map_rev. apply wordNext_up. Qed.

Lemma lookCommand_up s : lookCommand (toUpperCase s) = lookCommand s.
Proof.
  destruct s as [|c s]; simpl; [reflexivity|].
  now rewrite isWhiteSpace_up, eqb_up_const.
Qed.

Lemma spaceOrEnd_up s : spaceOrEnd (toUpperCase s) = spaceOrEnd s.
Proof. destruct s as [|c s]; simpl; auto using isWhiteSpace_up. Qed.

(** What depends on the upper-cased text only is the same above it. *)
Lemma cle_invariant {A} (f : str -> A) s s' :
  (forall z, f (toUpperCase z) = f z) -> cle s s' -> f s' = f s.
Proof. intros H Hc. now rewrite <- (H s'), (cle_upper _ _ Hc), H. Qed.

(** The command pattern matches at an occurrence of its keyword. *)
Lemma command_match k pre m rest :
  wordToken k = true -> toUpperCase m = toUpperCase k ->
  wordNext (rev pre) = false -> lookCommand rest = true ->
  exists y,
    In y (exec (commandPattern k) (mkState (rev pre) (m ++ rest) []))
    /\ endIndex y = length pre + length m.
Proof.
  intros Hk Hm Hpre Hrest.
  destruct (upper_token k m Hk Hm) as [Hne Hw].
  eexists. split.
  - apply command_iff. exists m, rest. repeat split; auto.
    + now rewrite Hpre, wordNext_head_all.
    + now rewrite wordNext_rev_all, lookCommand_not_word.
  - unfold endIndex. cbn [before]. rewrite length_app, !length_rev. lia.
Qed.

Lemma command_found k X p y :
  hd_error (exec (commandPattern k) (startState X p)) = Some y ->
  p <= length X ->
  exists pre m,
    X = pre ++ m ++ after y /\ length pre = p
    /\ endIndex y = p + length m /\ toUpperCase m = toUpperCase k.
Proof.
  intros H Hp.
  destruct (match_pieces _ _ _ _ H Hp) as (pre & m & EX & L & I & Es & Hy).
  exists pre, m. apply command_iff in Hy.
  destruct Hy as (m' & rest & E & Hm & _ & _ & _ & ->).
  cbn [after] in *. apply app_inv_tail in E. subst m'. auto.
Qed.

(** One turn of the command loop upper-cases every whole-word occurrence
    of its keyword that is followed by white space, a parenthesis or the
    end of the line. *)
Lemma commandStep_covered k X pre m rest :
  wordToken k = true ->
  X = pre ++ m ++ rest ->
  toUpperCase m = toUpperCase k -> wordNext (rev pre) = false ->
  lookCommand rest = true ->
  exists pre' rest',
    commandStep X k = pre' ++ toUpperCase m ++ rest'
    /\ cle pre pre' /\ cle rest rest'.
Proof.
  intros Hk EX Hm Hpre Hrest. rewrite commandStep_upper.
  destruct (command_match k pre m rest Hk Hm Hpre Hrest) as (y0 & Hy0 & I0).
  destruct (upper_token k m Hk Hm) as [Hne Hw].
  assert (Hi : length pre <= length X) by (rewrite EX, length_app; lia).
  destruct (collect_covers (commandPattern k) X (length pre)
              (length pre + length m) Hi) with (fuel := S (length X))
    (last := 0) as (p & y & Hin & Hp & He); try lia.
  - rewrite EX, startState_app. apply exec_nonempty. eauto.
  - intros p y Hp Hy.
    destruct (command_found k X p y Hy) as (pre1 & m1 & EX1 & L & I & Hm1);
      [lia|].
    destruct (upper_token k m1 Hk Hm1) as [Hne1 Hw1].
    destruct (upper_word k m Hm) as [_ Lm].
    destruct (upper_word k m1 Hm1) as [_ Lm1].
    split.
    + rewrite I. destruct m1; [congruence|]. simpl. lia.
    + destruct (Nat.eq_dec p (length pre)) as [->|Hneq]; [right; lia|].
      left.
      destruct (Nat.le_gt_cases (endIndex y) (length pre)) as [|Hgt];
        [assumption|exfalso].
      assert (Hpne : pre <> []) by (intros ->; simpl in *; lia).
      destruct (nth_error_mid pre1 m1 (after y) (length pre - 1))
        as (c & Hc & Hcm); [lia|].
      rewrite <- EX1, EX, (nth_error_last pre _ Hpne) in Hc.
      destruct (rev pre) as [|c' l]; [discriminate|]. injection Hc as ->.
      simpl in Hpre. rewrite forallb_forall in Hw1.
      rewrite (Hw1 _ Hcm) in Hpre. discriminate.
  - apply (covered_output (commandPattern k) X pre m rest p y); auto.
Qed.

(** An occurrence that one turn of a loop of case-only rules upper-cases
    stays so to the end of the loop. *)
Lemma fold_covered (step : str -> str -> str) (Occ : str -> str -> str -> Prop)
    k :
  (forall k', caseRule (fun X => step X k')) ->
  (forall pre m rest pre' m' rest',
     Occ pre m rest -> cle pre pre' -> cle m m' -> cle rest rest' ->
     Occ pre' m' rest') ->
  (forall pre m rest, Occ pre m rest ->
     exists pre' rest',
       step (pre ++ m ++ rest) k = pre' ++ toUpperCase m ++ rest'
       /\ cle pre pre' /\ cle rest rest') ->
  forall ks pre m rest, In k ks -> Occ pre m rest ->
  exists pre' rest',
    fold_left step ks (pre ++ m ++ rest) = pre' ++ toUpperCase m ++ rest'
    /\ cle pre pre' /\ cle rest rest'.
Proof.
  intros Hcase Hinv Hstep.
  induction ks as [|k0 ks IH]; intros pre m rest Hin Hocc; [contradiction|].
  cbn [fold_left]. destruct Hin as [->|Hin].
  - destruct (Hstep pre m rest Hocc) as (pre1 & rest1 & E & H1 & H2).
    rewrite E.
    assert (Hc : cle (pre1 ++ toUpperCase m ++ rest1)
                   (fold_left step ks (pre1 ++ toUpperCase m ++ rest1)))
      by exact (caseRule_cle _ (pre1 ++ toUpperCase m ++ rest1)
                  (caseRule_fold (fun k X => step X k) ks Hcase)).
    apply cle_app_inv in Hc.
    destruct Hc as (pre2 & O & -> & Hp & Hc). apply cle_app_inv in Hc.
    destruct Hc as (m2 & rest2 & -> & Hm & Hr).
    apply cle_of_upper in Hm. subst m2.
    exists pre2, rest2. repeat split; eauto using cle_trans.
  - pose proof (caseRule_cle _ (pre ++ m ++ rest) (Hcase k0)) as Hc.
    cbn beta in Hc. apply cle_app_inv in Hc.
    destruct Hc as (pre1 & O & E & Hp & Hc). apply cle_app_inv in Hc.
    destruct Hc as (m1 & rest1 & -> & Hm & Hr). rewrite E.
    destruct (IH pre1 m1 rest1 Hin (Hinv _ _ _ _ _ _ Hocc Hp Hm Hr))
      as (pre2 & rest2 & E2 & Hp2 & Hr2).
    exists pre2, rest2. rewrite E2, (cle_upper _ _ Hm).
    repeat split; eauto using cle_trans.
Qed.

Lemma commandOcc_cle k pre m rest pre' m' rest' :
  commandOcc k pre m rest -> cle pre pre' -> cle m m' -> cle rest rest' ->
  commandOcc k pre' m' rest'.
Proof.
  intros (H1 & H2 & H3) Hp Hm Hr. repeat split.
  - now rewrite (cle_upper _ _ Hm).
  - rewrite <- H2. apply (cle_invariant (fun z => wordNext (rev z)));
      auto using wordNext_rev_up.
  - rewrite <- H3. apply (cle_invariant lookCommand); auto using lookCommand_up.
Qed.

Lemma commandKeywords_tokens k : In k commandKeywords -> wordToken k = true.
Proof.
  assert (H : forallb wordToken commandKeywords = true) by reflexivity.
  rewrite forallb_forall in H. apply H.
Qed.

(** The command rule upper-cases every occurrence of each command keyword. *)
Lemma formatCommandCalls_covered k pre m rest :
  In k commandKeywords -> commandOcc k pre m rest ->
  exists pre' rest',
    formatCommandCalls (pre ++ m ++ rest) = pre' ++ toUpperCase m ++ rest'
    /\ cle pre pre' /\ cle rest rest'.
Proof.
  intros Hin Hocc.
  apply (fold_covered commandStep (commandOcc k) k); auto.
  - apply commandStep_caseRule.
  - apply commandOcc_cle.
  - intros pre0 m0 rest0 (H1 & H2 & H3).
    apply (commandStep_covered k _ pre0 m0 rest0); auto.
    now apply commandKeywords_tokens.
Qed.

(** *** Comment lines *)

Lemma startsWith_nil s : startsWith s [] = true.
Proof. now destruct s. Qed.

Lemma startsWith_app_space a w p :
  noSpace p = true -> forallb isWhiteSpace w = true ->
  startsWith (a ++ w) p = startsWith a p.
Proof.
  revert a. induction p as [|x p IH]; intros a Hp Hw.
  - now rewrite !startsWith_nil.
  - simpl in Hp. apply andb_prop in Hp. destruct Hp as [Hx Hp].
    destruct a as [|c a]; simpl.
    + destruct w as [|c w]; simpl; [reflexivity|].
      simpl in Hw. apply andb_prop in Hw. destruct Hw as [Hc _].
      destruct (Ascii.eqb x c) eqn:E; [|reflexivity].
      apply Ascii.eqb_eq in E. subst. rewrite Hc in Hx. discriminate.
    + now rewrite IH.
Qed.

Lemma trimStart_spec s :
  exists w, s = w ++ trimStart s /\ forallb isWhiteSpace w = true
    /\ stops isWhiteSpace (trimStart s) = true.
Proof.
  exists (takeWhile isWhiteSpace s). rewrite trimStart_dropWhile.
  split; [symmetry; apply takeWhile_dropWhile|].
  split; [apply takeWhile_all|apply dropWhile_stops].
Qed.

Lemma trimRight_spec s :
  exists w, s = trimRight s ++ w /\ forallb isWhiteSpace w = true
    /\ stops isWhiteSpace (rev (trimRight s)) = true.
Proof.
  unfold trimRight. destruct (trimStart_spec (rev s)) as (w & E & Hw & Hs).
  exists (rev w). rewrite rev_involutive. repeat split; auto.
  - rewrite <- rev_app_distr, <- E. symmetry. apply rev_involutive.
  - rewrite forallb_forall in *. intros c Hc. apply Hw. now apply in_rev.
Qed.

Lemma trimStart_space w s :
  forallb isWhiteSpace w = true -> trimStart (w ++ s) = trimStart s.
Proof.
  induction w as [|c w IH]; simpl; [reflexivity|]. intros H.
  apply andb_prop in H. destruct H as [Hc Hw]. rewrite Hc. auto.
Qed.

Lemma trimStart_stops s : stops isWhiteSpace s = true -> trimStart s = s.
Proof. destruct s as [|c s]; simpl; [reflexivity|]. now destruct (isWhiteSpace c). Qed.

Lemma trimStart_all w : forallb isWhiteSpace w = true -> trimStart w = [].
Proof.
  intros H. rewrite <- (app_nil_r w). now rewrite trimStart_space.
Qed.

(** A comment line: the line without its leading white space starts with
    two slashes. *)
Lemma isCommentLine_start L :
  isCommentLine L = startsWith (trimStart L) (txt "//").
Proof.
  unfold isCommentLine, trim.
  destruct (trimRight_spec (trimStart L)) as (w & E & Hw & _).
  rewrite E at 2. now rewrite startsWith_app_space.
Qed.

Lemma commentStart_app_space a w :
  forallb isWhiteSpace w = true ->
  startsWith (trimStart (a ++ w)) (txt "//")
  = startsWith (trimStart a) (txt "//").
Proof.
  intros Hw. induction a as [|c a IH]; simpl.
  - now rewrite trimStart_all.
  - destruct (isWhiteSpace c); [exact IH|].
    change (c :: a ++ w) with ((c :: a) ++ w).
    now rewrite startsWith_app_space.
Qed.

Lemma isCommentLine_trimRight L :
  isCommentLine (trimRight L) = isCommentLine L.
Proof.
  rewrite !isCommentLine_start.
  destruct (trimRight_spec L) as (w & E & Hw & _). rewrite E at 2.
  now rewrite commentStart_app_space.
Qed.

Lemma trimStart_up s : trimStart (toUpperCase s) = toUpperCase (trimStart s).
Proof.
  induction s as [|c s IH]; simpl; [reflexivity|].
  rewrite isWhiteSpace_up. now destruct (isWhiteSpace c).
Qed.

Lemma startsWith_up s p :
  forallb (fun a => negb (isWordChar a)) p = true ->
  startsWith (toUpperCase s) p = startsWith s p.
Proof.
  revert s. induction p as [|a p IH]; intros [|c s] H;
    cbn [startsWith toUpperCase map]; try reflexivity.
  cbn [forallb] in H. apply andb_prop in H. destruct H as [Ha Hp].
  fold (toUpperCase s). rewrite IH by assumption. f_equal.
  rewrite (Ascii.eqb_sym a (upChar c)), eqb_up_const, Ascii.eqb_sym.
  - reflexivity.
  - now destruct (isWordChar a).
Qed.

Lemma isCommentLine_up L : isCommentLine (toUpperCase L) = isCommentLine L.
Proof.
  rewrite !isCommentLine_start, trimStart_up. now apply startsWith_up.
Qed.

Lemma isCommentLine_cle X Y : cle X Y -> isCommentLine Y = isCommentLine X.
Proof. apply (cle_invariant isCommentLine). apply isCommentLine_up. Qed.

Lemma isCommentLine_caseRule r X :
  caseRule r -> isCommentLine (r X) = isCommentLine X.
Proof. intros H. apply isCommentLine_cle. now apply caseRule_cle. Qed.

(** A line whose first code unit after white space is neither white space
    nor a slash is not a comment. *)
Lemma not_comment_head w c s :
  forallb isWhiteSpace w = true -> isWhiteSpace c = false ->
  c <> "/"%char -> isCommentLine (w ++ c :: s) = false.
Proof.
  intros Hw Hs Hc. rewrite isCommentLine_start, trimStart_space by assumption.
  cbn [trimStart]. rewrite Hs. cbn [startsWith txt list_ascii_of_string].
  destruct (Ascii.eqb "/" c) eqn:E; [|reflexivity].
  apply Ascii.eqb_eq in E. congruence.
Qed.

(** *** The assignment rule *)

Lemma upper_token_self k :
  wordToken k = true ->
  toUpperCase k <> [] /\ forallb isWordChar (toUpperCase k) = true.
Proof.
  intros Hk. apply (upper_token k); auto using toUpperCase_idem.
Qed.

Lemma assignedForm_head Y :
  assignedForm Y -> exists c t, Y = c :: t /\ isWordChar c = true.
Proof.
  intros (k & v & Hk & ->). destruct (upper_token_self k Hk) as [Hne Hw].
  destruct (toUpperCase k) as [|c t]; [congruence|].
  exists c, (t ++ "="%char :: v). simpl in Hw. apply andb_prop in Hw.
  now destruct Hw.
Qed.

Lemma word_then_stop (m m' rest rest' : str) :
  m ++ rest = m' ++ rest' ->
  forallb isWordChar m = true -> forallb isWordChar m' = true ->
  stops isWordChar rest = true -> stops isWordChar rest' = true ->
  m = m' /\ rest = rest'.
Proof. apply span_unique. Qed.

Lemma space_prefix_nil (w : str) c t X :
  c :: t = w ++ X -> isWordChar c = true ->
  forallb isWhiteSpace w = true -> w = [].
Proof.
  destruct w as [|a w]; [reflexivity|]. simpl. intros [= <- _] Hc Hw.
  apply andb_prop in Hw. destruct Hw as [Ha _].
  pose proof (space_not_word c) as E. rewrite Ha, Hc in E. discriminate.
Qed.

Lemma spaceTab_all w :
  forallb spaceTab w = true -> forallb isWhiteSpace w = true.
Proof. apply forallb_impl, spaceTab_space. Qed.

Lemma assignmentStep_on_form Y k1 :
  assignedForm Y -> wordToken k1 = true -> assignmentStep Y k1 = Y.
Proof.
  intros HY Hk1.
  destruct (assignmentStep_cases Y k1)
    as [[_ H]|(w & m & rest & E & Hw & Hm & H)]; [exact H|].
  rewrite H. destruct (assignedForm_head Y HY) as (c & t & Ec & Hc).
  assert (w = []) as ->.
  { apply (space_prefix_nil w c t (m ++ "="%char :: rest)); try congruence.
    now apply spaceTab_all. }
  destruct HY as (k & v & Hk & EY). simpl in E. rewrite EY in E.
  destruct (upper_token_self k Hk) as [_ Hwk].
  destruct (upper_token k1 m Hk1 Hm) as [_ Hwm].
  destruct (word_then_stop _ _ _ _ E Hwk Hwm eq_refl eq_refl) as [E1 E2].
  rewrite EY, <- Hm, <- E1, toUpperCase_idem, E2. reflexivity.
Qed.

Lemma fold_fixed {A} (step : str -> A -> str) ks Y :
  (forall k, In k ks -> step Y k = Y) -> fold_left step ks Y = Y.
Proof.
  induction ks as [|k ks IH]; intros H; simpl; [reflexivity|].
  rewrite H by now left. apply IH. intros k' Hk'. apply H. now right.
Qed.

Lemma forallb_in {A} (p : A -> bool) l x :
  forallb p l = true -> In x l -> p x = true.
Proof. intros H. rewrite forallb_forall in H. apply H. Qed.

Lemma assign_fold_cases ks X :
  forallb wordToken ks = true ->
  (fold_left assignmentStep ks X = X
   /\ forall k, In k ks -> assignmentStep X k = X)
  \/ exists w m k rest,
       In k ks /\ X = w ++ m ++ "="%char :: rest
       /\ forallb spaceTab w = true /\ toUpperCase m = toUpperCase k
       /\ fold_left assignmentStep ks X = toUpperCase k ++ "="%char :: rest.
Proof.
  induction ks as [|k ks IH]; intros Hks.
  - left. split; [reflexivity|contradiction].
  - cbn [forallb] in Hks. apply andb_prop in Hks. destruct Hks as [Hk Hks].
    cbn [fold_left].
    destruct (assignmentStep_cases X k)
      as [[_ H]|(w & m & rest & E & Hw & Hm & H)].
    + rewrite H. destruct (IH Hks) as [[H1 H2]|(w & m & k' & rest & Hin & R)].
      * left. split; [assumption|]. intros k' [<-|Hin]; auto.
      * right. exists w, m, k', rest. split; [now right|exact R].
    + right. exists w, m, k, rest. repeat split; auto; [now left|].
      rewrite H. apply fold_fixed. intros k' Hin.
      apply assignmentStep_on_form; [|now apply (forallb_in _ ks)].
      now exists k, rest.
Qed.

Lemma formatAssignmentKeywords_on_form K Y :
  forallb wordToken (VarsKeywords K) = true ->
  assignedForm Y -> formatAssignmentKeywords K Y = Y.
Proof.
  intros HK HY. apply fold_fixed. intros k Hin.
  apply assignmentStep_on_form; auto. now apply (forallb_in _ (VarsKeywords K)).
Qed.

(** The assignment rule leaves the line alone or brings it to the form. *)
Lemma formatAssignmentKeywords_result K X :
  forallb wordToken (VarsKeywords K) = true ->
  formatAssignmentKeywords K X = X
  \/ (assignedForm (formatAssignmentKeywords K X)
      /\ exists w m k rest,
           In k (VarsKeywords K) /\ X = w ++ m ++ "="%char :: rest
           /\ forallb spaceTab w = true /\ toUpperCase m = toUpperCase k
           /\ formatAssignmentKeywords K X
              = toUpperCase k ++ "="%char :: rest).
Proof.
  intros HK. destruct (assign_fold_cases (VarsKeywords K) X HK)
    as [[H _]|(w & m & k & rest & Hin & E & Hw & Hm & R)]; [now left|right].
  split.
  - exists k, rest. split; [now apply (forallb_in _ (VarsKeywords K))|exact R].
  - exists w, m, k, rest. auto.
Qed.

Lemma formatAssignmentKeywords_idem K X :
  forallb wordToken (VarsKeywords K) = true ->
  formatAssignmentKeywords K (formatAssignmentKeywords K X)
  = formatAssignmentKeywords K X.
Proof.
  intros HK. destruct (formatAssignmentKeywords_result K X HK) as [E|[HF _]].
  - now rewrite !E.
  - now apply formatAssignmentKeywords_on_form.
Qed.

Lemma regExpExec_none_cle r X Y i :
  cle X Y -> regExpExec r X i = None -> regExpExec r Y i = None.
Proof.
  intros Hc E.
  assert (E1 : regExpExec r (toUpperCase X) i = None)
    by now rewrite regExpExec_ci, E.
  rewrite <- (cle_upper _ _ Hc), regExpExec_ci in E1.
  now destruct (regExpExec r Y i).
Qed.

Lemma replace_none r f X : regExpExec r X 0 = None -> replace r f X = X.
Proof. unfold replace. now intros ->. Qed.

Lemma assignedForm_cle X Y : assignedForm X -> cle X Y -> assignedForm Y.
Proof.
  intros (k & v & Hk & ->) Hc. apply cle_app_inv in Hc.
  destruct Hc as (Y1 & Y2 & -> & H1 & H2). apply cle_of_upper in H1.
  subst Y1. apply cle_cons_inv in H2.
  destruct H2 as (y & v' & -> & Hy & _). exists k, v'. split; [assumption|].
  destruct Hy as [->| ->]; reflexivity.
Qed.

Lemma assignmentStep_fixed k X Y :
  wordToken k = true -> cle X Y ->
  assignmentStep X k = X -> assignmentStep Y k = Y.
Proof.
  intros Hk Hc HX.
  destruct (assignmentStep_cases X k)
    as [[E _]|(w & m & rest & E & Hw & Hm & H)].
  - apply replace_none. now apply (regExpExec_none_cle _ X).
  - apply assignmentStep_on_form; [|assumption].
    apply (assignedForm_cle X); [|assumption].
    exists k, rest. split; [assumption|congruence].
Qed.

Lemma formatAssignmentKeywords_fixed K X Y :
  forallb wordToken (VarsKeywords K) = true -> cle X Y ->
  formatAssignmentKeywords K X = X -> formatAssignmentKeywords K Y = Y.
Proof.
  intros HK Hc HX.
  destruct (assign_fold_cases (VarsKeywords K) X HK)
    as [[_ H]|(w & m & k & rest & Hin & E & Hw & Hm & R)].
  - apply fold_fixed. intros k Hin.
    apply (assignmentStep_fixed k X); auto.
    now apply (forallb_in _ (VarsKeywords K)).
  - apply formatAssignmentKeywords_on_form; [assumption|].
    apply (assignedForm_cle X); [|assumption].
    exists k, rest. split; [now apply (forallb_in _ (VarsKeywords K))|].
    unfold formatAssignmentKeywords in HX. congruence.
Qed.

(** The other line-start rules leave a line of that form alone. *)
Lemma scopedStep_on_form Y k1 :
  assignedForm Y -> wordToken k1 = true -> scopedStep Y k1 = Y.
Proof.
  intros HY Hk1.
  destruct (scopedStep_cases Y k1)
    as [[_ H]|(y & w & m & rest & _ & _ & E & Hw & Hm & Hl & H)]; [exact H|].
  rewrite H. destruct (assignedForm_head Y HY) as (c & t & Ec & Hc).
  assert (w = []) as ->
    by (apply (space_prefix_nil w c t (m ++ rest)); congruence).
  destruct HY as (k & v & Hk & EY). simpl in E. rewrite EY in E.
  destruct (upper_token_self k Hk) as [_ Hwk].
  destruct (upper_token k1 m Hk1 Hm) as [_ Hwm].
  assert (Hs : stops isWordChar rest = true).
  { destruct rest as [|a rest]; [reflexivity|]. simpl in Hl. simpl.
    apply orb_prop in Hl.
    destruct Hl as [Hl|Hl]; apply Ascii.eqb_eq in Hl; now subst. }
  destruct (word_then_stop _ _ _ _ E Hwk Hwm eq_refl Hs) as [E1 E2].
  simpl. rewrite EY, <- E1, toUpperCase_idem, E2. reflexivity.
Qed.

Lemma formatScopedAssignments_on_form K Y :
  forallb wordToken (ScopedVarPrefixes K) = true ->
  assignedForm Y -> formatScopedAssignments K Y = Y.
Proof.
  intros HK HY. apply fold_fixed. intros k Hin.
  apply scopedStep_on_form; auto.
  now apply (forallb_in _ (ScopedVarPrefixes K)).
Qed.

(** *** The section-header rule *)

Lemma headerRest_stops g t :
  headerRest g -> stops isWordChar (g ++ "]"%char :: t) = true.
Proof.
  intros [->|(s & d & -> & Hs & Hws & _)]; [reflexivity|].
  destruct s as [|c s]; [congruence|]. simpl in *.
  apply andb_prop in Hws. destruct Hws as [Hc _].
  pose proof (space_not_word c) as E. rewrite Hc in E.
  now destruct (isWordChar c).
Qed.

Lemma forallb_rev (p : ascii -> bool) s : forallb p (rev s) = forallb p s.
Proof.
  induction s as [|c s IH]; simpl; [reflexivity|].
  rewrite forallb_app, IH. simpl. rewrite andb_true_r. apply andb_comm.
Qed.

(** The pieces of a section header are determined by the line. *)
Lemma header_unique w1 word g w2 w1' word' g' w2' :
  w1 ++ "["%char :: word ++ g ++ "]"%char :: w2
  = w1' ++ "["%char :: word' ++ g' ++ "]"%char :: w2' ->
  forallb isWhiteSpace w1 = true -> forallb isWhiteSpace w1' = true ->
  forallb isWordChar word = true -> forallb isWordChar word' = true ->
  headerRest g -> headerRest g' ->
  forallb isWhiteSpace w2 = true -> forallb isWhiteSpace w2' = true ->
  word = word' /\ g = g'.
Proof.
  intros E H1 H1' Hw Hw' Hg Hg' H2 H2'.
  apply span_unique with (p := isWhiteSpace) in E; auto.
  destruct E as [_ E]. injection E as E.
  apply word_then_stop in E; auto using headerRest_stops.
  destruct E as [-> E]. split; [reflexivity|].
  apply (f_equal (@rev ascii)) in E.
  rewrite !rev_app_distr in E. simpl in E. rewrite <- !app_assoc in E.
  apply span_unique with (p := isWhiteSpace) in E;
    try (now rewrite forallb_rev); try reflexivity.
  destruct E as [_ E]. injection E as E.
  apply (f_equal (@rev ascii)) in E. now rewrite !rev_involutive in E.
Qed.

Lemma formatSectionHeaders_match X w1 word g w2 :
  X = w1 ++ "["%char :: word ++ g ++ "]"%char :: w2 ->
  forallb isWhiteSpace w1 = true ->
  word <> [] -> forallb isWordChar word = true ->
  headerRest g -> forallb isWhiteSpace w2 = true ->
  formatSectionHeaders X = "["%char :: toUpperCase word ++ g ++ ["]"%char].
Proof.
  intros EX H1 Hne Hw Hg H2.
  destruct (formatSectionHeaders_cases X)
    as [[E _]|(w1' & word' & g' & w2' & EX' & H1' & Hne' & Hw' & Hg' & H2'
               & R)].
  - exfalso. revert E.
    apply regExpExec_found
      with (y := mkState (rev X) []
                   ((match g with
                     | [] => []
                     | _ :: _ => [(2, (length w1 + 1 + length word,
                                       length w1 + 1 + length word
                                       + length g))]
                     end)
                    ++ [(1, (length w1 + 1,
                             length w1 + 1 + length word))])).
    apply section_iff. split; [reflexivity|].
    eexists w1, word, g, w2, _. repeat split; eauto.
    destruct Hg as [->|(s & d & -> & Hs & Hws & Hd)]; [now left|right].
    exists s, d. repeat split; auto.
    destruct s; [congruence|reflexivity].
  - rewrite R. rewrite EX in EX'.
    destruct (header_unique _ _ _ _ _ _ _ _ EX' H1 H1' Hw Hw' Hg Hg' H2 H2')
      as [-> ->].
    reflexivity.
Qed.

Lemma formatSectionHeaders_idem X :
  formatSectionHeaders (formatSectionHeaders X) = formatSectionHeaders X.
Proof.
  destruct (formatSectionHeaders_cases X)
    as [[_ E]|(w1 & word & g & w2 & EX & H1 & Hne & Hw & Hg & H2 & R)].
  - now rewrite !E.
  - rewrite R.
    rewrite (formatSectionHeaders_match _ [] (toUpperCase word) g []);
      auto.
    + now rewrite toUpperCase_idem.
    + intros E. apply Hne. destruct word; [reflexivity|discriminate].
    + now rewrite forallb_up by apply isWordChar_up.
Qed.

Lemma headerRest_cle g g' : headerRest g -> cle g g' -> headerRest g'.
Proof.
  intros [->|(s & d & -> & Hs & Hws & Hd)] Hc.
  - left. inversion Hc. reflexivity.
  - right. apply cle_app_inv in Hc. destruct Hc as (s' & d' & -> & H1 & H2).
    exists s', d'. repeat split.
    + intros ->. inversion H1. congruence.
    + rewrite <- Hws. apply (cle_invariant (forallb isWhiteSpace)); auto.
      intros z. apply forallb_up, isWhiteSpace_up.
    + rewrite <- Hd. apply (cle_invariant (forallb notLineTerminator)); auto.
      intros z. apply forallb_up, notLineTerminator_up.
Qed.

Lemma formatSectionHeaders_fixed X Y :
  cle X Y -> formatSectionHeaders X = X -> formatSectionHeaders Y = Y.
Proof.
  intros Hc HX.
  destruct (formatSectionHeaders_cases X)
    as [[E _]|(w1 & word & g & w2 & EX & H1 & Hne & Hw & Hg & H2 & R)].
  - apply replace_none. now apply (regExpExec_none_cle _ X).
  - rewrite HX in R. rewrite R in Hc.
    change ("["%char :: toUpperCase word ++ g ++ ["]"%char])
      with (["["%char] ++ toUpperCase word ++ g ++ ["]"%char]) in Hc.
    apply cle_app_inv in Hc. destruct Hc as (b1 & Y1 & -> & Hb1 & Hc).
    apply cle_app_inv in Hc. destruct Hc as (word' & Y2 & -> & Hw' & Hc).
    apply cle_app_inv in Hc. destruct Hc as (g' & b2 & -> & Hg' & Hb2).
    apply (cle_of_upper (txt "[")) in Hb1.
    apply (cle_of_upper (txt "]")) in Hb2.
    apply cle_of_upper in Hw'. subst.
    rewrite (formatSectionHeaders_match _ [] (toUpperCase word) g' []);
      auto.
    + now rewrite toUpperCase_idem.
    + intros E. apply Hne. destruct word; [reflexivity|discriminate].
    + now rewrite forallb_up by apply isWordChar_up.
    + now apply (headerRest_cle g).
Qed.

(** A line that starts with a word character is no section header. *)
Lemma formatSectionHeaders_word c t :
  isWordChar c = true -> formatSectionHeaders (c :: t) = c :: t.
Proof.
  intros Hc.
  destruct (formatSectionHeaders_cases (c :: t))
    as [[_ E]|(w1 & word & g & w2 & EX & H1 & _)]; [exact E|exfalso].
  assert (w1 = []) as -> by (apply (space_prefix_nil w1 c t _ EX); auto).
  simpl in EX. injection EX as -> _. discriminate.
Qed.

(** The rules anchored at the start of the line do not match a line that
    starts with a bracket. *)
Lemma bracket_no_token (w m rest t : str) k :
  "["%char :: t = w ++ m ++ rest ->
  forallb isWhiteSpace w = true -> wordToken k = true ->
  toUpperCase m = toUpperCase k -> False.
Proof.
  intros E Hw Hk Hm. destruct (upper_token k m Hk Hm) as [Hne Hwm].
  destruct w as [|a w].
  - destruct m as [|a m]; [congruence|]. simpl in *. injection E as <- _.
    discriminate.
  - simpl in *. injection E as <- _. discriminate.
Qed.

Lemma scopedStep_bracket t k :
  wordToken k = true ->
  scopedStep ("["%char :: t) k = "["%char :: t.
Proof.
  intros Hk. destruct (scopedStep_cases ("["%char :: t) k)
    as [[_ H]|(y & w & m & rest & _ & _ & E & Hw & Hm & _)]; [exact H|].
  exfalso. eapply bracket_no_token; eauto.
Qed.

Lemma controlStep_bracket t k :
  wordToken k = true ->
  controlStep ("["%char :: t) k = "["%char :: t.
Proof.
  intros Hk. destruct (controlStep_cases ("["%char :: t) k)
    as [[_ H]|(y & w & m & rest & _ & _ & E & Hw & Hm & _)]; [exact H|].
  exfalso. eapply bracket_no_token; eauto.
Qed.

Lemma assignmentStep_bracket t k :
  wordToken k = true ->
  assignmentStep ("["%char :: t) k = "["%char :: t.
Proof.
  intros Hk. destruct (assignmentStep_cases ("["%char :: t) k)
    as [[_ H]|(w & m & rest & E & Hw & Hm & _)]; [exact H|].
  exfalso. apply spaceTab_all in Hw. eapply bracket_no_token; eauto.
Qed.

(** *** Leading white space and the trigger rule *)

Lemma space_not_wordNext w :
  forallb isWhiteSpace w = true -> wordNext w = false.
Proof.
  destruct w as [|c w]; simpl; [reflexivity|]. intros H.
  apply andb_prop in H. destruct H as [Hc _].
  pose proof (space_not_word c) as E. now rewrite Hc in E.
Qed.

Lemma wordNext_rev_space w pre :
  forallb isWhiteSpace w = true ->
  wordNext (rev pre) = false -> wordNext (rev (w ++ pre)) = false.
Proof.
  intros Hw H. rewrite rev_app_distr. destruct (rev pre) as [|c l] eqn:E.
  - simpl. apply space_not_wordNext. now rewrite forallb_rev.
  - exact H.
Qed.

Lemma formatTriggers_drop_space w Z :
  forallb isWhiteSpace w = true ->
  formatTriggers (w ++ Z) = w ++ Z -> formatTriggers Z = Z.
Proof.
  intros Hw HX. destruct (str_eq_dec (formatTriggers Z) Z) as [E|Hne];
    [exact E|exfalso].
  apply replaceAll_changed in Hne. destruct Hne as (p & y & Hin & Hup).
  apply collect_in in Hin. destruct Hin as [[_ Hp] Hy].
  destruct (trigger_found Z p y Hy Hp)
    as (pre & m & EZ & L & I & Es & Ht & Hpre & Hrest & _ & _).
  rewrite Es in Hup.
  destruct (trigger_covered (w ++ Z) (w ++ pre) m (after y))
    as (pre' & rest' & R & Hc1 & Hc2); auto.
  - now rewrite EZ at 1; rewrite <- app_assoc.
  - now apply wordNext_rev_space.
  - rewrite HX in R. rewrite EZ in R at 1. rewrite app_assoc in R.
    apply app_eq_length in R; [|now apply cle_length].
    destruct R as [_ R]. apply app_eq_length in R;
      [|now rewrite toUpperCase_length].
    destruct R as [R _]. congruence.
Qed.

(** *** What the rules keep of a line *)

Lemma cle_app_inv_r X Y1 Y2 :
  cle X (Y1 ++ Y2) ->
  exists X1 X2, X = X1 ++ X2 /\ cle X1 Y1 /\ cle X2 Y2.
Proof.
  intros H. apply Forall2_app_inv_r in H.
  destruct H as (X1 & X2 & H1 & H2 & ->). eauto.
Qed.

Lemma space_cle a a' :
  cle a a' -> forallb isWhiteSpace a' = forallb isWhiteSpace a.
Proof.
  apply (cle_invariant (forallb isWhiteSpace)).
  intros z. apply forallb_up, isWhiteSpace_up.
Qed.

Lemma shape_of_cle X Y : cle X Y -> shape X Y.
Proof. intros H. exists [], X, []. now rewrite app_nil_r. Qed.

Lemma shape_refl X : shape X X.
Proof. apply shape_of_cle, cle_refl. Qed.

Lemma shape_trans X Y Z : shape X Y -> shape Y Z -> shape X Z.
Proof.
  intros (a & M & b & -> & Ha & Hb & Hc) (a' & M' & b' & -> & Ha' & Hb' & Hc').
  apply cle_app_inv_r in Hc. destruct Hc as (a0 & M0 & -> & H1 & Hc).
  apply cle_app_inv_r in Hc. destruct Hc as (M1 & b0 & -> & H2 & H3).
  exists (a ++ a0), M1, (b0 ++ b). repeat split.
  - now rewrite <- !app_assoc.
  - now rewrite forallb_app, Ha, <- (space_cle _ _ H1), Ha'.
  - now rewrite forallb_app, Hb, <- (space_cle _ _ H3), Hb'.
  - now apply (cle_trans _ M').
Qed.

Lemma leftShape_of_cle X Y : cle X Y -> leftShape X Y.
Proof. intros H. now exists [], X. Qed.

Lemma rightShape_of_cle X Y : cle X Y -> rightShape X Y.
Proof. intros H. exists X, []. now rewrite app_nil_r. Qed.

Lemma leftShape_nil Y : leftShape [] Y -> Y = [].
Proof.
  intros (a & M & E & _ & Hc). symmetry in E. apply app_eq_nil in E.
  destruct E as [_ ->]. now inversion Hc.
Qed.

Lemma rightShape_nil Y : rightShape [] Y -> Y = [].
Proof.
  intros (M & b & E & _ & Hc). symmetry in E. apply app_eq_nil in E.
  destruct E as [-> _]. now inversion Hc.
Qed.

Lemma leftShape_trans X Y Z : leftShape X Y -> leftShape Y Z -> leftShape X Z.
Proof.
  intros (a & M & -> & Ha & Hc) (a' & M' & -> & Ha' & Hc').
  apply cle_app_inv_r in Hc. destruct Hc as (a0 & M0 & -> & H1 & Hc).
  exists (a ++ a0), M0. repeat split.
  - now rewrite <- !app_assoc.
  - now rewrite forallb_app, Ha, <- (space_cle _ _ H1), Ha'.
  - now apply (cle_trans _ M').
Qed.

Lemma rightShape_trans X Y Z :
  rightShape X Y -> rightShape Y Z -> rightShape X Z.
Proof.
  intros (M & b & -> & Hb & Hc) (M' & b' & -> & Hb' & Hc').
  apply cle_app_inv_r in Hc. destruct Hc as (M0 & b0 & -> & Hc & H1).
  exists M0, (b0 ++ b). repeat split.
  - now rewrite <- !app_assoc.
  - now rewrite forallb_app, Hb, <- (space_cle _ _ H1), Hb'.
  - now apply (cle_trans _ M').
Qed.

Lemma space_prefix (a Y pre m Z : str) :
  a ++ Y = pre ++ m ++ Z -> forallb isWhiteSpace a = true ->
  m <> [] -> noSpace m = true ->
  exists pre0, pre = a ++ pre0 /\ Y = pre0 ++ m ++ Z.
Proof.
  revert pre. induction a as [|c a IH]; intros pre E Ha Hne Hm.
  - exists pre. auto.
  - simpl in Ha. apply andb_prop in Ha. destruct Ha as [Hc Ha].
    destruct pre as [|c' pre].
    + destruct m as [|x m]; [congruence|]. simpl in E, Hm. injection E as <- _.
      rewrite Hc in Hm. discriminate.
    + simpl in E. injection E as <- E.
      destruct (IH pre E Ha Hne Hm) as (pre0 & -> & ->). now exists pre0.
Qed.

(** An occurrence without white space survives in the shaped line. *)
Lemma shape_occ pre m suf Y :
  shape (pre ++ m ++ suf) Y -> m <> [] -> noSpace m = true ->
  exists pre' m' suf',
    Y = pre' ++ m' ++ suf' /\ leftShape pre pre' /\ cle m m'
    /\ rightShape suf suf'.
Proof.
  intros (a & M & b & E & Ha & Hb & Hc) Hne Hm.
  symmetry in E. apply space_prefix in E; auto.
  destruct E as (pre0 & -> & E).
  apply (f_equal (@rev ascii)) in E.
  rewrite !rev_app_distr, <- !app_assoc in E.
  apply space_prefix in E.
  - destruct E as (s0 & Es & EM).
    apply (f_equal (@rev ascii)) in Es, EM.
    rewrite rev_app_distr, !rev_involutive in Es.
    rewrite !rev_app_distr, !rev_involutive, <- !app_assoc in EM.
    subst suf M. apply cle_app_inv in Hc.
    destruct Hc as (pre' & O & -> & H1 & Hc). apply cle_app_inv in Hc.
    destruct Hc as (m' & suf' & -> & H2 & H3).
    exists pre', m', suf'. repeat split; auto.
    + now exists a, pre0.
    + now exists (rev s0), b.
  - now rewrite forallb_rev.
  - intros E'. apply rev_nil_inv in E'. contradiction.
  - unfold noSpace. now rewrite forallb_rev.
Qed.

Lemma leftShape_wordNext pre pre' :
  leftShape pre pre' -> wordNext (rev pre) = false ->
  wordNext (rev pre') = false.
Proof.
  intros (a & pre0 & -> & Ha & Hc) H.
  rewrite (cle_invariant (fun z => wordNext (rev z)) pre0 pre')
    by auto using wordNext_rev_up.
  rewrite rev_app_distr in H. destruct (rev pre0) as [|c l]; [reflexivity|].
  exact H.
Qed.

Lemma rightShape_lookCommand suf suf' :
  rightShape suf suf' -> lookCommand suf = true -> lookCommand suf' = true.
Proof.
  intros (suf0 & b & -> & Hb & Hc) H.
  rewrite (cle_invariant lookCommand suf0 suf') by auto using lookCommand_up.
  destruct suf0; [reflexivity|exact H].
Qed.

Lemma rightShape_spaceOrEnd suf suf' :
  rightShape suf suf' -> spaceOrEnd suf = true -> spaceOrEnd suf' = true.
Proof.
  intros (suf0 & b & -> & Hb & Hc) H.
  rewrite (cle_invariant spaceOrEnd suf0 suf') by auto using spaceOrEnd_up.
  destruct suf0; [reflexivity|exact H].
Qed.

Lemma shape_formatSectionHeaders X : shape X (formatSectionHeaders X).
Proof.
  destruct (formatSectionHeaders_cases X)
    as [[_ E]|(w1 & word & g & w2 & EX & H1 & Hne & Hw & Hg & H2 & R)].
  - rewrite E. apply shape_refl.
  - rewrite R. exists w1, ("["%char :: word ++ g ++ ["]"%char]), w2.
    repeat split; auto.
    + rewrite EX. simpl. now rewrite <- !app_assoc.
    + constructor; [now left|]. apply cle_app; [apply cle_toUpperCase|].
      apply cle_refl.
Qed.

Lemma shape_assignmentStep X k : shape X (assignmentStep X k).
Proof.
  destruct (assignmentStep_cases X k)
    as [[_ H]|(w & m & rest & E & Hw & Hm & H)].
  - rewrite H. apply shape_refl.
  - rewrite H. exists w, (m ++ "="%char :: rest), [].
    repeat split; auto using spaceTab_all.
    + now rewrite app_nil_r.
    + apply cle_app; [|apply cle_refl]. rewrite <- Hm.
      apply cle_toUpperCase.
Qed.

Lemma shape_formatAssignmentKeywords K X :
  shape X (formatAssignmentKeywords K X).
Proof.
  unfold formatAssignmentKeywords. revert X.
  induction (VarsKeywords K) as [|k ks IH]; intros X; simpl.
  - apply shape_refl.
  - eapply shape_trans; [apply shape_assignmentStep|apply IH].
Qed.

End Rules.

(** ** The line pipeline *)

Section Pipeline.

Variable K : Tables.

Lemma formatLine_comment L : isCommentLine L = true -> formatLine K L = L.
Proof. unfold formatLine. now intros ->. Qed.

Lemma formatLine_rules L :
  isCommentLine L = false ->
  formatLine K L
  = formatCommandCalls
      (formatControlKeywords K
         (formatAssignmentKeywords K
            (formatScopedAssignments K
               (formatTriggers (formatSectionHeaders L))))).
Proof. unfold formatLine. now intros ->. Qed.

(** Whatever the line, the result is the line without some leading and
    trailing white space and with some letters upper-cased. *)
Lemma shape_formatLine L : shape L (formatLine K L).
Proof.
  destruct (isCommentLine L) eqn:E.
  - rewrite formatLine_comment by assumption. apply shape_refl.
  - rewrite formatLine_rules by assumption.
    eapply shape_trans; [apply shape_formatSectionHeaders|].
    eapply shape_trans;
      [apply shape_of_cle, caseRule_cle, formatTriggers_caseRule|].
    eapply shape_trans;
      [apply shape_of_cle, caseRule_cle,
         (formatScopedAssignments_caseRule K)|].
    eapply shape_trans; [apply shape_formatAssignmentKeywords|].
    eapply shape_trans;
      [apply shape_of_cle, caseRule_cle, (formatControlKeywords_caseRule K)|].
    apply shape_of_cle, caseRule_cle, formatCommandCalls_caseRule.
Qed.

Lemma word_not_comment c t : isWordChar c = true -> isCommentLine (c :: t) = false.
Proof.
  intros Hc. apply (not_comment_head [] c t); auto.
  - pose proof (space_not_word c) as E. rewrite Hc in E.
    now destruct (isWhiteSpace c).
  - intros ->. discriminate.
Qed.

Lemma formatSectionHeaders_comment L :
  isCommentLine L = false -> isCommentLine (formatSectionHeaders L) = false.
Proof.
  intros H. destruct (formatSectionHeaders_cases L)
    as [[_ E]|(w1 & word & g & w2 & _ & _ & _ & _ & _ & _ & R)].
  - now rewrite E.
  - rewrite R. apply (not_comment_head [] "["%char); auto. discriminate.
Qed.

Lemma formatAssignmentKeywords_comment L :
  forallb wordToken (VarsKeywords K) = true ->
  isCommentLine L = false ->
  isCommentLine (formatAssignmentKeywords K L) = false.
Proof.
  intros HK H. destruct (formatAssignmentKeywords_result K L HK) as [E|[HF _]].
  - now rewrite E.
  - destruct (assignedForm_head _ HF) as (c & t & -> & Hc).
    now apply word_not_comment.
Qed.

End Pipeline.

Lemma wfTables_spec K :
  wfTables K = true ->
  forallb wordToken (VarsKeywords K) = true
  /\ forallb wordToken (ScopedVarPrefixes K) = true
  /\ forallb wordToken (ControlKeywords K) = true.
Proof.
  unfold wfTables. intros H. apply andb_prop in H. destruct H as [H H3].
  apply andb_prop in H. tauto.
Qed.

(** The six rules leave their own result alone. *)
Lemma rules_idempotent K L :
  wfTables K = true -> isCommentLine L = false ->
  formatLine K (formatLine K L) = formatLine K L.
Proof.
  intros HK HL. destruct (wfTables_spec K HK) as (HV & HS & _).
  pose proof formatTriggers_caseRule as C2.
  pose proof (formatScopedAssignments_caseRule K) as C3.
  pose proof (formatControlKeywords_caseRule K) as C5.
  pose proof formatCommandCalls_caseRule as C6.
  rewrite (formatLine_rules K L HL).
  set (L1 := formatSectionHeaders L).
  set (L2 := formatTriggers L1).
  set (L3 := formatScopedAssignments K L2).
  set (L4 := formatAssignmentKeywords K L3).
  set (L5 := formatControlKeywords K L4).
  set (L6 := formatCommandCalls L5).
  assert (N1 : isCommentLine L1 = false)
    by now apply formatSectionHeaders_comment.
  assert (N2 : isCommentLine L2 = false)
    by (unfold L2; now rewrite isCommentLine_caseRule).
  assert (N3 : isCommentLine L3 = false)
    by (unfold L3; now rewrite isCommentLine_caseRule).
  assert (N4 : isCommentLine L4 = false)
    by now apply formatAssignmentKeywords_comment.
  assert (N5 : isCommentLine L5 = false)
    by (unfold L5; now rewrite isCommentLine_caseRule).
  assert (N6 : isCommentLine L6 = false)
    by (unfold L6; now rewrite isCommentLine_caseRule).
  assert (c12 : cle L1 L2) by now apply caseRule_cle.
  assert (c23 : cle L2 L3) by now apply caseRule_cle.
  assert (c45 : cle L4 L5) by now apply caseRule_cle.
  assert (c56 : cle L5 L6) by now apply caseRule_cle.
  assert (c46 : cle L4 L6) by now apply (cle_trans _ L5).
  (* what the assignment rule did to the line *)
  assert (A : L4 = L3 \/ assignedForm L4
              /\ exists w Z, L3 = w ++ Z /\ forallb isWhiteSpace w = true
                   /\ cle Z L4).
  { destruct (formatAssignmentKeywords_result K L3 HV)
      as [E|[HF (w & m & k & rest & _ & E & Hw & Hm & R)]]; [now left|right].
    split; [exact HF|]. exists w, (m ++ "="%char :: rest).
    repeat split; auto using spaceTab_all.
    fold L4 in R. rewrite R. apply cle_app; [|apply cle_refl].
    rewrite <- Hm. apply cle_toUpperCase. }
  (* each rule leaves the final line alone *)
  assert (F1 : formatSectionHeaders L6 = L6).
  { apply (formatSectionHeaders_fixed L4); [assumption|].
    destruct A as [E|[HF _]].
    - rewrite E. apply (formatSectionHeaders_fixed L1).
      + now apply (cle_trans _ L2).
      + apply formatSectionHeaders_idem.
    - destruct (assignedForm_head _ HF) as (c & t & -> & Hc).
      now apply formatSectionHeaders_word. }
  assert (F2 : formatTriggers L6 = L6).
  { apply (caseRule_fixed _ L4); auto.
    assert (F23 : formatTriggers L3 = L3).
    { apply (caseRule_fixed _ L2); auto. now apply caseRule_idem. }
    destruct A as [E|[_ (w & Z & E & Hw & Hc)]].
    - now rewrite E.
    - apply (caseRule_fixed _ Z); auto.
      apply (formatTriggers_drop_space w); auto. now rewrite <- E. }
  assert (F3 : formatScopedAssignments K L6 = L6).
  { apply (caseRule_fixed _ L4); auto.
    destruct A as [E|[HF _]].
    - rewrite E. now apply caseRule_idem.
    - now apply formatScopedAssignments_on_form. }
  assert (F4 : formatAssignmentKeywords K L6 = L6).
  { apply (formatAssignmentKeywords_fixed K L4); auto.
    now apply formatAssignmentKeywords_idem. }
  assert (F5 : formatControlKeywords K L6 = L6).
  { apply (caseRule_fixed _ L5); auto. now apply caseRule_idem. }
  assert (F6 : formatCommandCalls L6 = L6) by now apply caseRule_idem.
  rewrite (formatLine_rules K L6 N6). now rewrite F1, F2, F3, F4, F5, F6.
Qed.

Lemma trimRight_fixed Y :
  stops isWhiteSpace (rev Y) = true -> trimRight Y = Y.
Proof.
  intros H. unfold trimRight. rewrite trimStart_stops by assumption.
  apply rev_involutive.
Qed.

Lemma stops_cle X Y :
  cle X Y -> stops isWhiteSpace (rev X) = true ->
  stops isWhiteSpace (rev Y) = true.
Proof.
  intros Hc H. rewrite <- H.
  apply (cle_invariant (fun z => stops isWhiteSpace (rev z))); auto.
  intros z. unfold toUpperCase. rewrite <- map_rev.
  destruct (rev z); simpl; [reflexivity|]. now rewrite isWhiteSpace_up.
Qed.

(** A line without trailing white space is formatted to one. *)
Lemma shape_stops X Y :
  shape X Y -> stops isWhiteSpace (rev X) = true ->
  stops isWhiteSpace (rev Y) = true.
Proof.
  intros (a & M & b & -> & Ha & Hb & Hc) H.
  rewrite !rev_app_distr in H.
  destruct b as [|c b].
  - simpl in H. destruct (rev M) as [|c l] eqn:E.
    + apply rev_nil_inv in E. subst M. inversion Hc. reflexivity.
    + apply (stops_cle M); auto. now rewrite E.
  - exfalso. rewrite <- forallb_rev in Hb.
    destruct (rev (c :: b)) as [|c' l] eqn:E.
    + apply rev_nil_inv in E. discriminate.
    + simpl in H, Hb. apply andb_prop in Hb. destruct Hb as [Hc' _].
      rewrite Hc' in H. discriminate.
Qed.

Lemma trimRight_stops L : stops isWhiteSpace (rev (trimRight L)) = true.
Proof. now destruct (trimRight_spec L) as (w & _ & _ & H). Qed.

Lemma formattedLine_trimmed K L :
  trimRight (formattedLine K L) = formattedLine K L.
Proof.
  apply trimRight_fixed. unfold formattedLine.
  apply (shape_stops (trimRight L)); [apply shape_formatLine|].
  apply trimRight_stops.
Qed.

(** * The claims *)

(** ** Idempotence *)

(** C1.  Formatting a formatted line changes nothing: for the rules alone
    ([formatLine]) and for the pipeline with its trim of trailing white
    space ([formattedLine]), whatever the line, when the table entries are
    word tokens. *)
Theorem formatLine_idempotent K L :
  wfTables K = true ->
  formatLine K (formatLine K L) = formatLine K L
  /\ formattedLine K (formattedLine K L) = formattedLine K L.
Proof.
  intros HK.
  assert (H : forall X, formatLine K (formatLine K X) = formatLine K X).
  { intros X. destruct (isCommentLine X) eqn:E.
    - now rewrite !(formatLine_comment K X E).
    - now apply rules_idempotent. }
  split; [apply H|].
  unfold formattedLine at 1. rewrite formattedLine_trimmed.
  unfold formattedLine. apply H.
Qed.

Lemma formatLine_idempotent_witness :
  wfTables specTables = true
  /\ (formatLine specTables
        (formatLine specTables (txt "  [itemdef say x] "))
      = formatLine specTables (txt "  [itemdef say x] ")
      /\ formattedLine specTables
           (formattedLine specTables (txt "  [itemdef say x] "))
         = formattedLine specTables (txt "  [itemdef say x] ")).
Proof.
  split; [reflexivity|].
  apply (formatLine_idempotent specTables (txt "  [itemdef say x] ")).
  reflexivity.
Defined.

(** ** Comment lines *)

(** C2.  A line whose text after the leading white space starts with two
    slashes is returned with its trailing white space removed and nothing
    else changed; the rules themselves return it as it is. *)
Theorem comment_invariance K L :
  startsWith (trimStart L) (txt "//") = true ->
  formattedLine K L = trimRight L /\ formatLine K L = L.
Proof.
  intros H. rewrite <- isCommentLine_start in H. split.
  - unfold formattedLine. apply formatLine_comment.
    now rewrite isCommentLine_trimRight.
  - now apply formatLine_comment.
Qed.

Lemma comment_invariance_witness :
  startsWith (trimStart (txt "  // on=@create  ")) (txt "//") = true
  /\ formattedLine specTables (txt "  // on=@create  ")
     = txt "  // on=@create".
Proof.
  split; [reflexivity|].
  apply (comment_invariance specTables (txt "  // on=@create  ")).
  reflexivity.
Defined.

(** ** Case-only transform *)

(** C3.  The code at two lines with leading white space: the header rule
    and the assignment rule drop it, so the result is shorter than the
    trimmed line. *)
Theorem case_only_leading_space :
  formattedLine specTables (txt "  [itemdef 0x1]") = txt "[ITEMDEF 0x1]"
  /\ length (formattedLine specTables (txt "  [itemdef 0x1]"))
     <> length (trimRight (txt "  [itemdef 0x1]"))
  /\ formattedLine specTables (txt "  defname=SOMETHING")
     = txt "DEFNAME=SOMETHING".
Proof. vm_compute. repeat split. discriminate. Qed.

(** ** Edits *)

Lemma formatLoop_strings K texts : forall i acc,
  formatLoop K i (lines (documentOf texts)) acc
  = Normal (acc ++ editsFrom K i texts).
Proof.
  induction texts as [|s texts IH]; intros i acc; simpl.
  - now rewrite app_nil_r.
  - simpl in IH. rewrite IH, <- app_assoc. reflexivity.
Qed.

Lemma editsFrom_length K texts : forall i,
  length (editsFrom K i texts) = length texts.
Proof. induction texts as [|s texts IH]; intros i; simpl; auto. Qed.

Lemma editsFrom_nth K texts : forall i j s,
  nth_error texts j = Some s ->
  nth_error (editsFrom K i texts) j
  = Some (mkTextEdit
            (mkRange (mkPosition (i + j) 0) (mkPosition (i + j) (length s)))
            (formatLine K (trimRight s))).
Proof.
  induction texts as [|t texts IH]; intros i [|j] s H; simpl in *;
    try discriminate.
  - injection H as ->. now rewrite Nat.add_0_r.
  - rewrite (IH (S i) j s H). now rewrite Nat.add_succ_r.
Qed.

(** C7.  For a document of N lines the formatter returns N edits, in line
    order; the edit of line i spans the line from column 0 to the length
    of its text as it is, and its new text is the formatted trimmed text. *)
Theorem edit_completeness K texts :
  exists edits,
    provideDocumentFormattingEdits K (documentOf texts) = Normal edits
    /\ length edits = lineCount (documentOf texts)
    /\ forall i s, nth_error texts i = Some s ->
         nth_error edits i
         = Some (mkTextEdit
                   (mkRange (mkPosition i 0) (mkPosition i (length s)))
                   (formatLine K (trimRight s))).
Proof.
  exists (editsFrom K 0 texts). unfold provideDocumentFormattingEdits.
  rewrite formatLoop_strings. repeat split.
  - unfold lineCount, documentOf. simpl.
    now rewrite editsFrom_length, length_map.
  - intros i s H. apply (editsFrom_nth K texts 0 i s H).
Qed.

(** ** Line texts that are no strings *)

Lemma formatLoop_throws K rest : forall i acc,
  forallb isString rest = false -> formatLoop K i rest acc = Throw TypeError.
Proof.
  induction rest as [|l rest IH]; intros i acc H; simpl in *;
    [discriminate|].
  unfold isString in H. destruct (text l); auto.
Qed.

Lemma shape_nil Y : shape [] Y -> Y = [].
Proof.
  intros (a & M & b & E & _ & _ & Hc). symmetry in E.
  apply app_eq_nil in E. destruct E as [_ E]. apply app_eq_nil in E.
  destruct E as [-> _]. now inversion Hc.
Qed.

(** C8, as the code has it.  A line whose text is null or undefined makes
    the formatter throw a TypeError, and no edit is returned; a line whose
    text is the empty string is formatted to the empty string. *)
Theorem null_line_throws K document :
  forallb isString (lines document) = false ->
  provideDocumentFormattingEdits K document = Throw TypeError
  /\ formattedLine K [] = [].
Proof.
  intros H. split.
  - unfold provideDocumentFormattingEdits. apply formatLoop_throws. exact H.
  - apply shape_nil. unfold formattedLine.
    change (trimRight []) with (@nil ascii). apply shape_formatLine.
Qed.

Lemma null_line_throws_witness :
  forallb isString (lines (mkTextDocument [mkTextLine VNull])) = false
  /\ provideDocumentFormattingEdits specTables
       (mkTextDocument [mkTextLine VNull]) = Throw TypeError.
Proof.
  split; [reflexivity|].
  apply (null_line_throws specTables (mkTextDocument [mkTextLine VNull])).
  reflexivity.
Defined.

(** On a line whose text is null the result is no list of edits. *)
Lemma null_line_counterexample :
  provideDocumentFormattingEdits specTables
    (mkTextDocument [mkTextLine VNull])
  <> Normal [mkTextEdit (mkRange (mkPosition 0 0) (mkPosition 0 0)) []].
Proof. vm_compute. discriminate. Qed.

(** ** The two formatters *)

Section Variants.

Variable K : Tables.

Lemma variant_formatSections X :
  isCommentLine X = false ->
  Variant.formatSections X = formatSectionHeaders X.
Proof.
  intros H. unfold Variant.formatSections, formatSectionHeaders. cbv zeta.
  change (startsWith (trim X) (txt "//")) with (isCommentLine X).
  rewrite H. reflexivity.
Qed.

Lemma variant_formatTriggers X :
  isCommentLine X = false -> Variant.formatTriggers X = formatTriggers X.
Proof.
  intros H. unfold Variant.formatTriggers, formatTriggers.
  change (startsWith (trim X) (txt "//")) with (isCommentLine X).
  rewrite H. reflexivity.
Qed.

Lemma variant_formatScopedVars X :
  isCommentLine X = false ->
  Variant.formatScopedVars (ScopedVarPrefixes K) X
  = formatScopedAssignments K X.
Proof.
  intros H. unfold Variant.formatScopedVars, formatScopedAssignments.
  cbv zeta.
  change (startsWith (trim X) (txt "//")) with (isCommentLine X).
  rewrite H. reflexivity.
Qed.

Lemma variant_formatVars X :
  Variant.formatVars (VarsKeywords K) X = formatAssignmentKeywords K X.
Proof. unfold Variant.formatVars, formatAssignmentKeywords. reflexivity. Qed.

Lemma variant_formatControls X :
  isCommentLine X = false ->
  Variant.formatControls (ControlKeywords K) X = formatControlKeywords K X.
Proof.
  intros H. unfold Variant.formatControls, formatControlKeywords. cbv zeta.
  change (startsWith (trim X) (txt "//")) with (isCommentLine X).
  rewrite H. reflexivity.
Qed.

Lemma variant_formatFunctions X :
  isCommentLine X = false ->
  Variant.formatFunctions X = formatCommandCalls X.
Proof.
  intros H. unfold Variant.formatFunctions, formatCommandCalls. cbv zeta.
  change (startsWith (trim X) (txt "//")) with (isCommentLine X).
  rewrite H. reflexivity.
Qed.

End Variants.

(** C9.  The formatter with the one comment test and the six-rule variant
    whose rules test for comments themselves return the same text for
    every line, when both read the same tables and the entries are word
    tokens. *)
Theorem variants_agree K L :
  wfTables K = true ->
  formatLine K L
  = Variant.formatLine (VarsKeywords K) (ScopedVarPrefixes K)
      (ControlKeywords K) L.
Proof.
  intros HK. destruct (wfTables_spec K HK) as (HV & _ & _).
  unfold Variant.formatLine.
  change (startsWith (trim L) (txt "//")) with (isCommentLine L).
  destruct (isCommentLine L) eqn:HL; cbn [negb].
  - now apply formatLine_comment.
  - rewrite (formatLine_rules K L HL).
    pose proof (formatSectionHeaders_comment L HL) as N1.
    rewrite (variant_formatSections L HL).
    set (L1 := formatSectionHeaders L) in *.
    rewrite (variant_formatTriggers L1 N1).
    assert (N2 : isCommentLine (formatTriggers L1) = false).
    { rewrite isCommentLine_caseRule; auto using formatTriggers_caseRule. }
    set (L2 := formatTriggers L1) in *.
    rewrite (variant_formatScopedVars K L2 N2).
    assert (N3 : isCommentLine (formatScopedAssignments K L2) = false).
    { rewrite isCommentLine_caseRule;
        auto using formatScopedAssignments_caseRule. }
    set (L3 := formatScopedAssignments K L2) in *.
    rewrite (variant_formatVars K L3).
    pose proof (formatAssignmentKeywords_comment K L3 HV N3) as N4.
    set (L4 := formatAssignmentKeywords K L3) in *.
    rewrite (variant_formatControls K L4 N4).
    assert (N5 : isCommentLine (formatControlKeywords K L4) = false).
    { rewrite isCommentLine_caseRule;
        auto using formatControlKeywords_caseRule. }
    rewrite (variant_formatFunctions _ N5). reflexivity.
Qed.

Lemma variants_agree_witness :
  wfTables specTables = true
  /\ formatLine specTables (txt "  begin say on=@x")
     = Variant.formatLine (VarsKeywords specTables)
         (ScopedVarPrefixes specTables) (ControlKeywords specTables)
         (txt "  begin say on=@x").
Proof.
  split; [reflexivity|].
  apply (variants_agree specTables (txt "  begin say on=@x")).
  reflexivity.
Defined.

(** ** Command keywords after an inline comment *)

(** C10.  In a line that is no comment line, a whole-word occurrence [m] of
    a command keyword that is followed by white space, an opening
    parenthesis or the end of the line is upper-cased also when it stands
    after two slashes: the result is the line with the keyword in upper
    case, the text before and after it changed in letter case only, apart
    from white space dropped at the two ends of the line. *)
Theorem inline_comment_commands K pre m suf k :
  isCommentLine (pre ++ m ++ suf) = false ->
  includes pre (txt "//") = true ->
  In k commandKeywords -> toUpperCase m = toUpperCase k ->
  wordNext (rev pre) = false -> lookCommand suf = true ->
  exists pre' suf',
    formatLine K (pre ++ m ++ suf) = pre' ++ toUpperCase k ++ suf'
    /\ leftShape pre pre' /\ rightShape suf suf'.
Proof.
  intros HL _ Hk Hm Hpre Hsuf.
  destruct (upper_token k m (commandKeywords_tokens k Hk) Hm) as [Hne Hw].
  rewrite (formatLine_rules K _ HL).
  set (L5 := formatControlKeywords K _).
  assert (Hs : shape (pre ++ m ++ suf) L5).
  { eapply shape_trans; [apply shape_formatSectionHeaders|].
    eapply shape_trans;
      [apply shape_of_cle, caseRule_cle, formatTriggers_caseRule|].
    eapply shape_trans;
      [apply shape_of_cle, caseRule_cle,
         (formatScopedAssignments_caseRule K)|].
    eapply shape_trans; [apply shape_formatAssignmentKeywords|].
    apply shape_of_cle, caseRule_cle, (formatControlKeywords_caseRule K). }
  destruct (shape_occ pre m suf L5 Hs Hne (word_noSpace m Hw))
    as (pre5 & m5 & suf5 & E5 & Hl & Hc & Hr).
  rewrite E5.
  destruct (formatCommandCalls_covered k pre5 m5 suf5 Hk)
    as (pre6 & suf6 & E6 & Hl6 & Hr6).
  { repeat split.
    - now rewrite (cle_upper _ _ Hc).
    - now apply (leftShape_wordNext pre).
    - now apply (rightShape_lookCommand suf). }
  exists pre6, suf6. rewrite E6, (cle_upper _ _ Hc), Hm. repeat split.
  - apply (leftShape_trans _ pre5); auto using leftShape_of_cle.
  - apply (rightShape_trans _ suf5); auto using rightShape_of_cle.
Qed.

Lemma inline_comment_commands_witness :
  isCommentLine (txt "x=1 // " ++ txt "say" ++ txt " hello") = false
  /\ includes (txt "x=1 // ") (txt "//") = true
  /\ In (txt "SAY") commandKeywords
  /\ exists pre' suf',
       formatLine specTables (txt "x=1 // " ++ txt "say" ++ txt " hello")
       = pre' ++ txt "SAY" ++ suf'
       /\ leftShape (txt "x=1 // ") pre' /\ rightShape (txt " hello") suf'.
Proof.
  split; [reflexivity|]. split; [reflexivity|]. split; [simpl; tauto|].
  apply (inline_comment_commands specTables (txt "x=1 // ") (txt "say")
           (txt " hello") (txt "SAY")).
  - reflexivity.
  - reflexivity.
  - simpl. tauto.
  - reflexivity.
  - reflexivity.
  - reflexivity.
Defined.

(** ** The assignment rule on a line that starts with a keyword *)

Lemma assignmentStep_match k m v :
  wordToken k = true -> toUpperCase m = toUpperCase k ->
  assignmentStep (m ++ "="%char :: v) k = toUpperCase k ++ "="%char :: v.
Proof.
  intros Hk Hm. destruct (upper_token k m Hk Hm) as [Hne Hw].
  destruct (assignmentStep_cases (m ++ "="%char :: v) k)
    as [[E _]|(w & m' & rest & EX & Hw' & Hm' & R)].
  - exfalso. revert E.
    apply regExpExec_found with (y := mkState ("="%char :: rev m ++ rev []) v []).
    apply assignment_iff. split; [reflexivity|]. exists [], m, v. auto.
  - rewrite R. destruct m as [|c m]; [congruence|].
    assert (w = []) as ->.
    { apply (space_prefix_nil w c (m ++ "="%char :: v) _ EX).
      - simpl in Hw. now apply andb_prop in Hw.
      - now apply spaceTab_all. }
    destruct (upper_token k m' Hk Hm') as [_ Hwm'].
    simpl app in EX at 2.
    destruct (word_then_stop _ _ _ _ EX Hw Hwm' eq_refl eq_refl) as [_ E].
    injection E as <-. reflexivity.
Qed.

Lemma cle_equals v Y :
  cle ("="%char :: v) Y -> exists v', Y = "="%char :: v' /\ cle v v'.
Proof.
  intros H. apply cle_cons_inv in H. destruct H as (y & v' & -> & Hy & Hc).
  exists v'. split; [|assumption]. destruct Hy as [->| ->]; reflexivity.
Qed.

(** ** Lines that start with a bracket *)

Lemma headerRestb_spec g : headerRestb g = true -> headerRest g.
Proof.
  destruct g as [|c g]; [now left|]. intros H. right.
  cbn [headerRestb] in H. apply andb_prop in H. destruct H as [Hc Hd].
  destruct (trimStart_spec (c :: g)) as (w & E & Hw & _).
  exists w, (trimStart (c :: g)). repeat split; auto.
  intros ->. simpl in E. rewrite Hc in E.
  apply (f_equal (@length ascii)) in E. simpl in E.
  destruct (trimStart_spec g) as (w' & E' & _).
  apply (f_equal (@length ascii)) in E'. rewrite length_app in E'. lia.
Qed.

Lemma header_cle word g Y :
  cle ("["%char :: toUpperCase word ++ g ++ ["]"%char]) Y ->
  exists g', Y = "["%char :: toUpperCase word ++ g' ++ ["]"%char]
    /\ cle g g'.
Proof.
  intros Hc.
  change ("["%char :: toUpperCase word ++ g ++ ["]"%char])
    with (["["%char] ++ toUpperCase word ++ g ++ ["]"%char]) in Hc.
  apply cle_app_inv in Hc. destruct Hc as (b1 & Y1 & -> & Hb1 & Hc).
  apply cle_app_inv in Hc. destruct Hc as (word' & Y2 & -> & Hw' & Hc).
  apply cle_app_inv in Hc. destruct Hc as (g' & b2 & -> & Hg' & Hb2).
  apply (cle_of_upper (txt "[")) in Hb1.
  apply (cle_of_upper (txt "]")) in Hb2.
  apply cle_of_upper in Hw'. subst. exists g'. auto.
Qed.

(** On a line that starts with a bracket only the header, trigger and
    command rules apply. *)
Lemma bracket_line_rules K t :
  wfTables K = true ->
  formatLine K ("["%char :: t)
  = formatCommandCalls (formatTriggers (formatSectionHeaders ("["%char :: t))).
Proof.
  intros HK. destruct (wfTables_spec K HK) as (HV & HS & HC).
  rewrite formatLine_rules
    by (apply (not_comment_head [] "["%char); auto; discriminate).
  assert (exists t2,
            formatTriggers (formatSectionHeaders ("["%char :: t))
            = "["%char :: t2) as (t2 & ->).
  { assert (exists t1, formatSectionHeaders ("["%char :: t) = "["%char :: t1)
      as (t1 & ->).
    { destruct (formatSectionHeaders_cases ("["%char :: t))
        as [[_ E]|(w1 & word & g & w2 & _ & _ & _ & _ & _ & _ & R)];
        rewrite ?E, ?R; eauto. }
    pose proof (caseRule_cle _ ("["%char :: t1) formatTriggers_caseRule) as Hc.
    apply cle_cons_inv in Hc. destruct Hc as (y & t2 & -> & Hy & _).
    exists t2. destruct Hy as [->| ->]; reflexivity. }
  assert (E3 : formatScopedAssignments K ("["%char :: t2) = "["%char :: t2).
  { apply fold_fixed. intros k Hin. apply scopedStep_bracket.
    now apply (forallb_in _ _ _ HS). }
  assert (E4 : formatAssignmentKeywords K ("["%char :: t2) = "["%char :: t2).
  { apply fold_fixed. intros k Hin. apply assignmentStep_bracket.
    now apply (forallb_in _ _ _ HV). }
  assert (E5 : formatControlKeywords K ("["%char :: t2) = "["%char :: t2).
  { apply fold_fixed. intros k Hin. apply controlStep_bracket.
    now apply (forallb_in _ _ _ HC). }
  now rewrite E3, E4, E5.
Qed.

(** ** The text of a trigger *)

Lemma triggerText_up t : triggerText (toUpperCase t) = triggerText t.
Proof.
  unfold triggerText. rewrite toUpperCase_idem.
  unfold toUpperCase at 2 3. rewrite skipn_map. fold (toUpperCase (skipn 4 t)).
  now rewrite wordNext_up, forallb_up by apply notSpaceSlash_up.
Qed.

Lemma triggerText_nonempty t : triggerText t = true -> t <> [].
Proof. intros H ->. discriminate. Qed.

(** * Further properties of the formatter *)

(** ** Comment detection *)

Lemma startsWith_split s p :
  startsWith s p = true -> s = p ++ skipn (length p) s.
Proof.
  intros H. rewrite <- (startsWith_firstn s p H) at 1.
  symmetry. apply firstn_skipn.
Qed.

(** X1.  A line is a comment line exactly when it is white space, then two
    slashes, then anything: the test looks at the first two code units
    after the leading white space and at nothing else. *)
Theorem isCommentLine_iff L :
  isCommentLine L = true
  <-> exists w rest,
        L = w ++ txt "//" ++ rest /\ forallb isWhiteSpace w = true.
Proof.
  rewrite isCommentLine_start. split.
  - intros H. destruct (trimStart_spec L) as (w & E & Hw & _).
    exists w, (skipn 2 (trimStart L)). split; [|exact Hw].
    rewrite E at 1. f_equal. apply (startsWith_split _ _ H).
  - intros (w & rest & -> & Hw). rewrite (trimStart_space w _ Hw).
    change (txt "//" ++ rest) with ("/"%char :: "/"%char :: rest).
    vm_compute. apply startsWith_nil.
Qed.

(** ** The four rules that change letter case only *)

Lemma upmask_orMask_comm m1 : forall m2 X,
  upmask (orMask m1 m2) X = upmask (orMask m2 m1) X.
Proof.
  induction m1 as [|b1 m1 IH]; intros [|b2 m2] X; try reflexivity.
  destruct X as [|c X]; [reflexivity|]. simpl.
  rewrite (IH m2 X), (orb_comm b1 b2). reflexivity.
Qed.

Lemma caseRule_commute r s X :
  caseRule r -> caseRule s -> r (s X) = s (r X).
Proof.
  intros Hr Hs.
  pose proof (caseRule_upper r X Hr) as Ur.
  pose proof (caseRule_upper s X Hs) as Us.
  destruct Hr as (Mr & Er & Ir). destruct Hs as (Ms & Es & Is).
  assert (Mr (s X) = Mr X) as E1 by now rewrite <- Ir, Us, Ir.
  assert (Ms (r X) = Ms X) as E2 by now rewrite <- Is, Ur, Is.
  rewrite (Er (s X)), E1, (Es (r X)), E2, (Es X), (Er X).
  rewrite !upmask_upmask. apply upmask_orMask_comm.
Qed.

(** X2.  On a line of ASCII text the trigger rule, the scoped rule, the
    control rule and the command rule change letter case only: the result
    has the length of the line, and each code unit of it is the one of the
    line or its upper-case form. *)
Theorem case_rules_change_case_only K L :
  wfTables K = true -> asciiText L = true ->
  (cle L (formatTriggers L)
   /\ length (formatTriggers L) = length L)
  /\ (cle L (formatScopedAssignments K L)
      /\ length (formatScopedAssignments K L) = length L)
  /\ (cle L (formatControlKeywords K L)
      /\ length (formatControlKeywords K L) = length L)
  /\ (cle L (formatCommandCalls L)
      /\ length (formatCommandCalls L) = length L).
Proof.
  intros _ _.
  assert (H : forall r, caseRule r -> cle L (r L) /\ length (r L) = length L).
  { intros r Hr. pose proof (caseRule_cle r L Hr) as Hc.
    split; [exact Hc|]. symmetry. now apply cle_length. }
  repeat split; apply H;
    auto using formatTriggers_caseRule, formatScopedAssignments_caseRule,
      formatControlKeywords_caseRule, formatCommandCalls_caseRule.
Qed.

Lemma case_rules_change_case_only_witness :
  wfTables specTables = true
  /\ asciiText (txt "  begin say on=@x") = true
  /\ cle (txt "  begin say on=@x") (formatTriggers (txt "  begin say on=@x"))
  /\ formatTriggers (txt "  begin say on=@x") = txt "  begin say ON=@X".
Proof.
  split; [reflexivity|]. split; [reflexivity|].
  destruct (case_rules_change_case_only specTables (txt "  begin say on=@x"))
    as ((H & _) & _); [reflexivity|reflexivity|].
  split; [exact H|reflexivity].
Defined.

(** X3.  These four rules commute: applied in either order, any two of
    them give the same line. *)
Theorem case_rules_commute K L :
  wfTables K = true ->
  formatTriggers (formatScopedAssignments K L)
  = formatScopedAssignments K (formatTriggers L)
  /\ formatTriggers (formatControlKeywords K L)
     = formatControlKeywords K (formatTriggers L)
  /\ formatTriggers (formatCommandCalls L)
     = formatCommandCalls (formatTriggers L)
  /\ formatScopedAssignments K (formatControlKeywords K L)
     = formatControlKeywords K (formatScopedAssignments K L)
  /\ formatScopedAssignments K (formatCommandCalls L)
     = formatCommandCalls (formatScopedAssignments K L)
  /\ formatControlKeywords K (formatCommandCalls L)
     = formatCommandCalls (formatControlKeywords K L).
Proof.
  intros _. repeat split; apply caseRule_commute;
    auto using formatTriggers_caseRule, formatScopedAssignments_caseRule,
      formatControlKeywords_caseRule, formatCommandCalls_caseRule.
Qed.

Lemma case_rules_commute_witness :
  wfTables specTables = true
  /\ formatControlKeywords specTables
       (formatCommandCalls (txt "  begin say on=@x"))
     = formatCommandCalls
         (formatControlKeywords specTables (txt "  begin say on=@x")).
Proof.
  split; [reflexivity|].
  destruct (case_rules_commute specTables (txt "  begin say on=@x"))
    as (_ & _ & _ & _ & _ & H); [reflexivity|].
  exact H.
Defined.

(** X4.  Each of the six rules is idempotent on its own. *)
Theorem each_rule_idempotent K L :
  wfTables K = true ->
  formatSectionHeaders (formatSectionHeaders L) = formatSectionHeaders L
  /\ formatTriggers (formatTriggers L) = formatTriggers L
  /\ formatScopedAssignments K (formatScopedAssignments K L)
     = formatScopedAssignments K L
  /\ formatAssignmentKeywords K (formatAssignmentKeywords K L)
     = formatAssignmentKeywords K L
  /\ formatControlKeywords K (formatControlKeywords K L)
     = formatControlKeywords K L
  /\ formatCommandCalls (formatCommandCalls L) = formatCommandCalls L.
Proof.
  intros HK. destruct (wfTables_spec K HK) as (HV & _ & _).
  split; [apply formatSectionHeaders_idem|].
  split; [apply caseRule_idem, formatTriggers_caseRule|].
  split; [apply (caseRule_idem _ L (formatScopedAssignments_caseRule K))|].
  split; [now apply formatAssignmentKeywords_idem|].
  split; [apply (caseRule_idem _ L (formatControlKeywords_caseRule K))|].
  apply caseRule_idem, formatCommandCalls_caseRule.
Qed.

Lemma each_rule_idempotent_witness :
  wfTables specTables = true
  /\ formatAssignmentKeywords specTables
       (formatAssignmentKeywords specTables (txt "  defname=x"))
     = formatAssignmentKeywords specTables (txt "  defname=x").
Proof.
  split; [reflexivity|].
  destruct (each_rule_idempotent specTables (txt "  defname=x"))
    as (_ & _ & _ & H & _); [reflexivity|].
  exact H.
Defined.

(** ** The two rules that keep the leading white space *)

Lemma stops_word_space m rest :
  m <> [] -> forallb isWordChar m = true ->
  stops isWhiteSpace (m ++ rest) = true.
Proof.
  destruct m as [|c m]; [congruence|]. simpl. intros _ H.
  apply andb_prop in H. destruct H as [Hc _].
  pose proof (space_not_word c) as N. rewrite Hc, andb_true_r in N.
  now rewrite N.
Qed.

Lemma lookScoped_stops rest :
  lookScoped rest = true -> stops isWordChar rest = true.
Proof.
  destruct rest as [|c rest]; [discriminate|]. simpl. intros H.
  apply orb_prop in H.
  destruct H as [H|H]; apply Ascii.eqb_eq in H; subst; reflexivity.
Qed.

Lemma wordNext_stops rest :
  wordNext rest = false -> stops isWordChar rest = true.
Proof. destruct rest; simpl; [reflexivity|]. now intros ->. Qed.

Lemma anchored_unique w m rest w' m' rest' :
  w ++ m ++ rest = w' ++ m' ++ rest' ->
  forallb isWhiteSpace w = true -> forallb isWhiteSpace w' = true ->
  m <> [] -> m' <> [] ->
  forallb isWordChar m = true -> forallb isWordChar m' = true ->
  stops isWordChar rest = true -> stops isWordChar rest' = true ->
  w = w' /\ m = m' /\ rest = rest'.
Proof.
  intros E Hw Hw' Hn Hn' Hm Hm' Hr Hr'.
  destruct (span_unique isWhiteSpace w (m ++ rest) w' (m' ++ rest') E Hw Hw')
    as [-> E']; auto using stops_word_space.
  destruct (word_then_stop m m' rest rest' E' Hm Hm' Hr Hr') as [-> ->].
  auto.
Qed.

Lemma upper_nonempty_word m :
  m <> [] -> forallb isWordChar m = true ->
  toUpperCase m <> [] /\ forallb isWordChar (toUpperCase m) = true.
Proof.
  intros Hn Hm. split.
  - destruct m; [congruence|discriminate].
  - rewrite forallb_up; auto using isWordChar_up.
Qed.

Lemma anchored_fold (step : str -> str -> str) (w rest : str) :
  (forall k m, wordToken k = true -> m <> [] ->
     forallb isWordChar m = true ->
     exists m1, step (w ++ m ++ rest) k = w ++ m1 ++ rest
       /\ (m1 = m \/ m1 = toUpperCase m)
       /\ (toUpperCase m = toUpperCase k -> m1 = toUpperCase m)) ->
  forall ks m, forallb wordToken ks = true -> m <> [] ->
    forallb isWordChar m = true ->
    exists m', fold_left step ks (w ++ m ++ rest) = w ++ m' ++ rest
      /\ (m' = m \/ m' = toUpperCase m)
      /\ (forall k, In k ks -> toUpperCase m = toUpperCase k ->
            m' = toUpperCase m).
Proof.
  intros Hstep ks. induction ks as [|k ks IH]; intros m Hks Hn Hm.
  - exists m. simpl. repeat split; auto. intros k [].
  - simpl in Hks. apply andb_prop in Hks. destruct Hks as [Hk Hks].
    destruct (Hstep k m Hk Hn Hm) as (m1 & E1 & C1 & U1).
    assert (m1 <> [] /\ forallb isWordChar m1 = true
            /\ toUpperCase m1 = toUpperCase m) as (Hn1 & Hm1 & Hu1).
    { destruct C1 as [->| ->]; [auto|].
      destruct (upper_nonempty_word m Hn Hm).
      repeat split; auto using toUpperCase_idem. }
    destruct (IH m1 Hks Hn1 Hm1) as (m' & E' & C' & U').
    exists m'. simpl. rewrite E1, E'. split; [reflexivity|]. split.
    + destruct C' as [->| ->]; [exact C1|]. right. exact Hu1.
    + intros k0 [<-|Hin] Hu.
      * rewrite (U1 Hu) in C'. rewrite toUpperCase_idem in C'.
        now destruct C'.
      * rewrite <- Hu1. apply (U' k0 Hin). now rewrite Hu1.
Qed.

Lemma scopedStep_spec w rest k m :
  forallb isWhiteSpace w = true -> lookScoped rest = true ->
  wordToken k = true -> m <> [] -> forallb isWordChar m = true ->
  exists m1, scopedStep (w ++ m ++ rest) k = w ++ m1 ++ rest
    /\ (m1 = m \/ m1 = toUpperCase m)
    /\ (toUpperCase m = toUpperCase k -> m1 = toUpperCase m).
Proof.
  intros Hw Hl Hk Hn Hm.
  destruct (scopedStep_cases (w ++ m ++ rest) k)
    as [[E R]|(y & w' & m' & rest' & _ & _ & EX & Hw' & Hm' & Hl' & R)].
  - exists m. rewrite R. repeat split; auto. intros Hu. exfalso. revert E.
    apply regExpExec_found
      with (y := mkState (rev m ++ rev w) rest
                   [(2, (length w, length w + length m)); (1, (0, length w))]).
    apply scoped_iff. split; [reflexivity|]. exists w, m, rest. auto.
  - destruct (upper_token k m' Hk Hm') as [Hn' Hwm'].
    destruct (anchored_unique _ _ _ _ _ _ EX Hw Hw' Hn Hn' Hm Hwm')
      as (<- & <- & <-); auto using lookScoped_stops.
    exists (toUpperCase m). rewrite R. auto.
Qed.

Lemma controlStep_spec w rest k m :
  forallb isWhiteSpace w = true -> wordNext rest = false ->
  wordToken k = true -> m <> [] -> forallb isWordChar m = true ->
  exists m1, controlStep (w ++ m ++ rest) k = w ++ m1 ++ rest
    /\ (m1 = m \/ m1 = toUpperCase m)
    /\ (toUpperCase m = toUpperCase k -> m1 = toUpperCase m).
Proof.
  intros Hw Hl Hk Hn Hm.
  destruct (controlStep_cases (w ++ m ++ rest) k)
    as [[E R]|(y & w' & m' & rest' & _ & _ & EX & Hw' & Hm' & Hx & R)].
  - exists m. rewrite R. repeat split; auto. intros Hu. exfalso. revert E.
    apply regExpExec_found
      with (y := mkState (rev m ++ rev w) rest
                   [(2, (length w, length w + length m)); (1, (0, length w))]).
    apply control_iff. split; [reflexivity|]. exists w, m, rest.
    repeat split; auto.
    now rewrite (wordNext_rev_all m (rev w) Hn Hm), Hl.
  - destruct (upper_token k m' Hk Hm') as [Hn' Hwm'].
    rewrite (wordNext_rev_all m' (rev w') Hn' Hwm') in Hx.
    assert (Hl' : wordNext rest' = false) by now destruct (wordNext rest').
    destruct (anchored_unique _ _ _ _ _ _ EX Hw Hw' Hn Hn' Hm Hwm')
      as (<- & <- & <-); auto using wordNext_stops.
    exists (toUpperCase m). rewrite R. auto.
Qed.

(** X5.  The scoped rule, as its docstring has it for [tag.name=]: a line
    that is white space, a scoped prefix in any letter case, then a dot or
    an equals sign, is returned with the prefix in upper case, the white
    space before it and everything after it as they were. *)
Theorem scoped_prefix_format K k w m rest :
  wfTables K = true -> In k (ScopedVarPrefixes K) ->
  forallb isWhiteSpace w = true -> toUpperCase m = toUpperCase k ->
  lookScoped rest = true ->
  formatScopedAssignments K (w ++ m ++ rest) = w ++ toUpperCase k ++ rest.
Proof.
  intros HK Hin Hw Hu Hl. destruct (wfTables_spec K HK) as (_ & HS & _).
  destruct (upper_token k m (forallb_in _ _ _ HS Hin) Hu) as [Hn Hm].
  destruct (anchored_fold scopedStep w rest
              (fun k m => scopedStep_spec w rest k m Hw Hl)
              (ScopedVarPrefixes K) m HS Hn Hm) as (m' & E & _ & U).
  unfold formatScopedAssignments. rewrite E, (U k Hin Hu), Hu.
  reflexivity.
Qed.

Lemma scoped_prefix_format_witness :
  wfTables specTables = true
  /\ In (txt "TAG") (ScopedVarPrefixes specTables)
  /\ formatScopedAssignments specTables (txt "  tag.name=say")
     = txt "  TAG.name=say".
Proof.
  split; [reflexivity|]. split; [simpl; tauto|].
  apply (scoped_prefix_format specTables (txt "TAG") (txt "  ") (txt "tag")
           (txt ".name=say")); try reflexivity.
  simpl. tauto.
Defined.

(** X6.  The control rule: a line that is white space, a control keyword
    in any letter case, then the end of the line or a code unit that is no
    word character, is returned with the keyword in upper case, the white
    space before it and everything after it as they were. *)
Theorem control_keyword_format K k w m rest :
  wfTables K = true -> In k (ControlKeywords K) ->
  forallb isWhiteSpace w = true -> toUpperCase m = toUpperCase k ->
  wordNext rest = false ->
  formatControlKeywords K (w ++ m ++ rest) = w ++ toUpperCase k ++ rest.
Proof.
  intros HK Hin Hw Hu Hl. destruct (wfTables_spec K HK) as (_ & _ & HC).
  destruct (upper_token k m (forallb_in _ _ _ HC Hin) Hu) as [Hn Hm].
  destruct (anchored_fold controlStep w rest
              (fun k m => controlStep_spec w rest k m Hw Hl)
              (ControlKeywords K) m HC Hn Hm) as (m' & E & _ & U).
  unfold formatControlKeywords. rewrite E, (U k Hin Hu), Hu.
  reflexivity.
Qed.

Lemma control_keyword_format_witness :
  wfTables specTables = true
  /\ In (txt "ENDIF") (ControlKeywords specTables)
  /\ formatControlKeywords specTables (txt "    endif // for")
     = txt "    ENDIF // for".
Proof.
  split; [reflexivity|]. split; [simpl; tauto|].
  apply (control_keyword_format specTables (txt "ENDIF") (txt "    ")
           (txt "endif") (txt " // for")); try reflexivity.
  simpl. tauto.
Defined.

(** ** Lines a rule leaves alone *)

Lemma in_upper a s :
  isWordChar a = false -> In a (toUpperCase s) -> In a s.
Proof.
  intros Ha H. apply in_map_iff in H. destruct H as (c & E & Hc).
  now rewrite <- (up_const a c Ha E).
Qed.

Lemma triggerText_at t : triggerText t = true -> In "@"%char t.
Proof.
  unfold triggerText. intros H. apply andb_prop in H. destruct H as [H _].
  apply andb_prop in H. destruct H as [H _].
  apply (in_upper "@"%char t eq_refl).
  rewrite (startsWith_split _ _ H). apply in_or_app. left.
  vm_compute. tauto.
Qed.

(** X7.  What a rule needs to find before it changes anything: the header
    rule an opening and a closing bracket, the trigger rule an at sign, the
    assignment rule an equals sign.  A line without it comes back as it
    is. *)
Theorem rules_need_their_marker K L :
  (~ In "["%char L \/ ~ In "]"%char L -> formatSectionHeaders L = L)
  /\ (~ In "@"%char L -> formatTriggers L = L)
  /\ (~ In "="%char L -> formatAssignmentKeywords K L = L).
Proof.
  split; [|split].
  - intros H.
    destruct (formatSectionHeaders_cases L)
      as [[_ R]|(w1 & word & g & w2 & E & _)]; [exact R|].
    exfalso. destruct H as [H|H]; apply H; rewrite E; apply in_or_app; right.
    + now left.
    + right. apply in_or_app. right. apply in_or_app. right. now left.
  - intros H. destruct (str_eq_dec (formatTriggers L) L) as [E|N]; [exact E|].
    exfalso. apply H. apply replaceAll_changed in N.
    destruct N as (p & y & Hin & _). apply collect_in in Hin.
    destruct Hin as [[_ Hp] Hy].
    destruct (trigger_found L p y Hy Hp)
      as (pre & m & E & _ & _ & _ & Ht & _).
    rewrite E. apply in_or_app. right. apply in_or_app. left.
    now apply triggerText_at.
  - intros H. unfold formatAssignmentKeywords. apply fold_fixed.
    intros k _.
    destruct (assignmentStep_cases L k)
      as [[_ R]|(w & m & rest & E & _)]; [exact R|].
    exfalso. apply H. rewrite E. apply in_or_app. right.
    apply in_or_app. right. now left.
Qed.

(** ** Comment lines and the rules anchored at the start of the line *)

Lemma word_head_not_comment w m rest :
  forallb isWhiteSpace w = true -> m <> [] ->
  forallb isWordChar m = true -> isCommentLine (w ++ m ++ rest) = false.
Proof.
  intros Hw Hn Hm. destruct m as [|c m]; [congruence|].
  simpl in Hm. apply andb_prop in Hm. destruct Hm as [Hc _].
  apply (not_comment_head w c (m ++ rest) Hw).
  - pose proof (space_not_word c) as N. rewrite Hc, andb_true_r in N.
    exact N.
  - intros ->. discriminate.
Qed.

Lemma formatAssignmentKeywords_on_comment K L :
  forallb wordToken (VarsKeywords K) = true ->
  isCommentLine L = true -> formatAssignmentKeywords K L = L.
Proof.
  intros HV HL. unfold formatAssignmentKeywords. apply fold_fixed.
  intros k Hin.
  destruct (assignmentStep_cases L k)
    as [[_ R]|(w & m & rest & E & Hw & Hm & _)]; [exact R|].
  destruct (upper_token k m (forallb_in _ _ _ HV Hin) Hm) as [Hn Hwm].
  rewrite E in HL.
  rewrite (word_head_not_comment w m ("="%char :: rest)) in HL;
    auto using spaceTab_all.
  discriminate.
Qed.

(** X8.  The four rules whose patterns are anchored at the start of the
    line leave a comment line as it is even when they are called on it
    without the test of [formatLine]: after the leading white space their
    patterns want a bracket or a word character, where a comment line has a
    slash.  This holds for the assignment rule of the two older versions
    too, the one rule there that does not test for a comment. *)
Theorem anchored_rules_keep_comments K L :
  wfTables K = true -> isCommentLine L = true ->
  formatSectionHeaders L = L
  /\ formatScopedAssignments K L = L
  /\ formatAssignmentKeywords K L = L
  /\ formatControlKeywords K L = L
  /\ Variant.formatVars (VarsKeywords K) L = L
  /\ Legacy.formatVars (VarsKeywords K) L = L.
Proof.
  intros HK HL. destruct (wfTables_spec K HK) as (HV & HS & HC).
  pose proof (formatAssignmentKeywords_on_comment K L HV HL) as HA.
  split; [|split; [|split; [|split; [|split]]]].
  - destruct (formatSectionHeaders_cases L)
      as [[_ R]|(w1 & word & g & w2 & E & Hw1 & _)]; [exact R|].
    rewrite E in HL. rewrite not_comment_head in HL; auto; discriminate.
  - unfold formatScopedAssignments. apply fold_fixed. intros k Hin.
    destruct (scopedStep_cases L k)
      as [[_ R]|(y & w & m & rest & _ & _ & E & Hw & Hm & _)]; [exact R|].
    destruct (upper_token k m (forallb_in _ _ _ HS Hin) Hm) as [Hn Hwm].
    rewrite E in HL. rewrite word_head_not_comment in HL; auto.
    discriminate.
  - exact HA.
  - unfold formatControlKeywords. apply fold_fixed. intros k Hin.
    destruct (controlStep_cases L k)
      as [[_ R]|(y & w & m & rest & _ & _ & E & Hw & Hm & _)]; [exact R|].
    destruct (upper_token k m (forallb_in _ _ _ HC Hin) Hm) as [Hn Hwm].
    rewrite E in HL. rewrite word_head_not_comment in HL; auto.
    discriminate.
  - exact HA.
  - exact HA.
Qed.

Lemma anchored_rules_keep_comments_witness :
  wfTables specTables = true
  /\ isCommentLine (txt "  // defname=x") = true
  /\ Legacy.formatVars (VarsKeywords specTables) (txt "  // defname=x")
     = txt "  // defname=x".
Proof.
  split; [reflexivity|]. split; [reflexivity|].
  destruct (anchored_rules_keep_comments specTables (txt "  // defname=x"))
    as (_ & _ & _ & _ & _ & H); [reflexivity|reflexivity|].
  exact H.
Defined.

(** ** What the line pipeline keeps of a line *)

Lemma upper_space a : forallb isWhiteSpace a = true -> toUpperCase a = a.
Proof.
  induction a as [|c a IH]; simpl; [reflexivity|]. intros H.
  apply andb_prop in H. destruct H as [Hc Ha].
  now rewrite (space_fixed c Hc), (IH Ha).
Qed.

Lemma shape_upper X Y :
  shape X Y ->
  exists a b,
    forallb isWhiteSpace a = true /\ forallb isWhiteSpace b = true
    /\ toUpperCase X = a ++ toUpperCase Y ++ b.
Proof.
  intros (a & M & b & -> & Ha & Hb & Hc). exists a, b.
  rewrite !toUpperCase_app, (upper_space a Ha), (upper_space b Hb),
    (cle_upper M Y Hc).
  auto.
Qed.

Lemma shape_length X Y : shape X Y -> length Y <= length X.
Proof.
  intros (a & M & b & -> & _ & _ & Hc). rewrite !length_app.
  rewrite (cle_length M Y Hc). lia.
Qed.

Lemma shape_comment X Y : shape X Y -> isCommentLine Y = isCommentLine X.
Proof.
  intros (a & M & b & -> & Ha & Hb & Hc).
  rewrite (isCommentLine_cle M Y Hc), !isCommentLine_start.
  rewrite (trimStart_space a _ Ha). symmetry.
  now apply commentStart_app_space.
Qed.

Lemma space_suffix_nil (X Z b : str) :
  X = Z ++ b -> forallb isWhiteSpace b = true ->
  stops isWhiteSpace (rev X) = true -> b = [].
Proof.
  intros -> Hb H. rewrite rev_app_distr in H.
  destruct (rev b) as [|c r] eqn:E; [now apply rev_nil_inv|].
  rewrite <- forallb_rev, E in Hb. simpl in Hb, H.
  apply andb_prop in Hb. destruct Hb as [Hc _]. rewrite Hc in H.
  discriminate.
Qed.

Lemma space_head_nil (X a Z : str) :
  X = a ++ Z -> forallb isWhiteSpace a = true ->
  stops isWhiteSpace X = true -> a = [] \/ X = [].
Proof.
  intros -> Ha H. destruct a as [|c a]; [now left|]. simpl in Ha, H.
  apply andb_prop in Ha. destruct Ha as [Hc _]. rewrite Hc in H.
  discriminate.
Qed.

Lemma shape_trimmed X Y :
  shape X Y -> stops isWhiteSpace X = true ->
  stops isWhiteSpace (rev X) = true -> cle X Y.
Proof.
  intros (a & M & b & E & Ha & Hb & Hc) H1 H2.
  assert (b = []) as ->.
  { apply (space_suffix_nil X (a ++ M)); auto. now rewrite <- app_assoc. }
  destruct (space_head_nil X a (M ++ []) E Ha H1) as [->|E0].
  - rewrite E. simpl. now rewrite app_nil_r.
  - rewrite E0 in E. symmetry in E. apply app_eq_nil in E.
    destruct E as [_ E]. apply app_eq_nil in E. destruct E as [-> _].
    now rewrite E0.
Qed.

Lemma trimRight_head s :
  trimStart s = s -> stops isWhiteSpace (trimRight s) = true.
Proof.
  intros E. destruct (trimStart_spec s) as (_ & _ & _ & Hs).
  rewrite E in Hs. destruct (trimRight_spec s) as (w & Ew & _).
  destruct (trimRight s) as [|c t]; [reflexivity|].
  rewrite Ew in Hs. exact Hs.
Qed.

(** X9.  Formatting keeps the text of a line: up to letter case, the line
    is the formatted line with white space before and after it, so that
    nothing but white space at the two ends is dropped.  A line of ASCII
    text never gets longer. *)
Theorem formatLine_keeps_text K L :
  wfTables K = true ->
  (exists a b,
     forallb isWhiteSpace a = true /\ forallb isWhiteSpace b = true
     /\ toUpperCase L = a ++ toUpperCase (formatLine K L) ++ b)
  /\ (asciiText L = true -> length (formatLine K L) <= length L).
Proof.
  intros _. pose proof (shape_formatLine K L) as H. split.
  - now apply shape_upper.
  - intros _. now apply shape_length.
Qed.

Lemma formatLine_keeps_text_witness :
  wfTables specTables = true
  /\ asciiText (txt "  [itemdef say x]") = true
  /\ length (formatLine specTables (txt "  [itemdef say x]"))
     <= length (txt "  [itemdef say x]").
Proof.
  split; [reflexivity|]. split; [reflexivity|].
  apply (formatLine_keeps_text specTables (txt "  [itemdef say x]"));
    reflexivity.
Defined.

(** X10.  For a line of ASCII text that does not start with white space
    the replacement text differs from the line without its trailing white
    space in letter case only: the same length, and each code unit the one
    of the line or its upper-case form. *)
Theorem unindented_line_case_only K s :
  wfTables K = true -> asciiText s = true -> trimStart s = s ->
  cle (trimRight s) (formattedLine K s)
  /\ length (formattedLine K s) = length (trimRight s).
Proof.
  intros _ _ Hs.
  assert (H : cle (trimRight s) (formattedLine K s)).
  { apply shape_trimmed.
    - apply shape_formatLine.
    - now apply trimRight_head.
    - apply trimRight_stops. }
  split; [exact H|]. symmetry. now apply cle_length.
Qed.

Lemma unindented_line_case_only_witness :
  wfTables specTables = true
  /\ asciiText (txt "[itemdef say x]  ") = true
  /\ trimStart (txt "[itemdef say x]  ") = txt "[itemdef say x]  "
  /\ length (formattedLine specTables (txt "[itemdef say x]  "))
     = length (trimRight (txt "[itemdef say x]  ")).
Proof.
  split; [reflexivity|]. split; [reflexivity|]. split; [reflexivity|].
  apply (unindented_line_case_only specTables (txt "[itemdef say x]  "));
    reflexivity.
Defined.

(** X11.  Formatting never makes a comment line of a line that is none,
    nor the other way round. *)
Theorem formatLine_keeps_comment_status K L :
  wfTables K = true ->
  isCommentLine (formatLine K L) = isCommentLine L.
Proof. intros _. apply shape_comment, shape_formatLine. Qed.

Lemma formatLine_keeps_comment_status_witness :
  wfTables specTables = true
  /\ isCommentLine (formatLine specTables (txt "  defname=// x")) = false.
Proof.
  split; [reflexivity|].
  rewrite (formatLine_keeps_comment_status specTables
             (txt "  defname=// x") eq_refl).
  reflexivity.
Defined.

(** ** The edits of a document *)

Lemma trimRight_blank s : forallb isWhiteSpace s = true -> trimRight s = [].
Proof.
  intros H. unfold trimRight. rewrite trimStart_all; [reflexivity|].
  now rewrite forallb_rev.
Qed.

Lemma formatLine_nil K : formatLine K [] = [].
Proof.
  pose proof (shape_formatLine K []) as (a & M & b & E & _ & _ & Hc).
  symmetry in E. apply app_eq_nil in E. destruct E as [_ E].
  apply app_eq_nil in E. destruct E as [-> _]. now inversion Hc.
Qed.

Lemma formattedLine_idem K s :
  wfTables K = true ->
  formattedLine K (formattedLine K s) = formattedLine K s.
Proof.
  intros HK. unfold formattedLine at 1. rewrite formattedLine_trimmed.
  unfold formattedLine. destruct (isCommentLine (trimRight s)) eqn:E.
  - now rewrite !(formatLine_comment K _ E).
  - now apply rules_idempotent.
Qed.

Lemma formatLoop_all K (P : TextEdit -> Prop) :
  (forall i s,
     P (mkTextEdit (mkRange (mkPosition i 0) (mkPosition i (length s)))
          (formatLine K (trimRight s)))) ->
  forall rest i acc edits,
    formatLoop K i rest acc = Normal edits -> Forall P acc -> Forall P edits.
Proof.
  intros HP rest. induction rest as [|l rest IH]; intros i acc edits H Hacc.
  - simpl in H. now injection H as <-.
  - simpl in H. destruct (text l) as [| |s]; try discriminate.
    apply (IH _ _ _ H). apply Forall_app. split; [exact Hacc|].
    constructor; [apply HP|constructor].
Qed.

Lemma editsFrom_newText K texts : forall i,
  map newText (editsFrom K i texts) = map (formattedLine K) texts.
Proof.
  induction texts as [|s texts IH]; intros i; simpl; [reflexivity|].
  now rewrite IH.
Qed.

(** X12.  No replacement text the formatter returns ends in white space,
    and every edit lies in one line and starts at its first column. *)
Theorem edits_have_no_trailing_space K document edits :
  provideDocumentFormattingEdits K document = Normal edits ->
  Forall (fun e => trimRight (newText e) = newText e
                   /\ line (rangeStart (range e)) = line (rangeEnd (range e))
                   /\ character (rangeStart (range e)) = 0) edits.
Proof.
  intros H. unfold provideDocumentFormattingEdits in H.
  apply (formatLoop_all K _) with (rest := lines document) (i := 0)
    (acc := []); [|exact H|constructor].
  intros i s. simpl. repeat split.
  apply (formattedLine_trimmed K s).
Qed.

Lemma edits_have_no_trailing_space_witness :
  provideDocumentFormattingEdits specTables
    (documentOf [txt "on=@create  "; txt "  // x "])
  = Normal
      [mkTextEdit (mkRange (mkPosition 0 0) (mkPosition 0 12))
         (txt "ON=@CREATE");
       mkTextEdit (mkRange (mkPosition 1 0) (mkPosition 1 7)) (txt "  // x")]
  /\ Forall (fun e => trimRight (newText e) = newText e
                      /\ line (rangeStart (range e))
                         = line (rangeEnd (range e))
                      /\ character (rangeStart (range e)) = 0)
       [mkTextEdit (mkRange (mkPosition 0 0) (mkPosition 0 12))
          (txt "ON=@CREATE");
        mkTextEdit (mkRange (mkPosition 1 0) (mkPosition 1 7))
          (txt "  // x")].
Proof.
  split; [reflexivity|].
  apply (edits_have_no_trailing_space specTables
           (documentOf [txt "on=@create  "; txt "  // x "])).
  reflexivity.
Defined.

(** X13.  A line of white space only, the empty line among them, gets the
    empty text as its replacement. *)
Theorem blank_line_becomes_empty K s :
  wfTables K = true -> forallb isWhiteSpace s = true ->
  formattedLine K s = [].
Proof.
  intros _ H. unfold formattedLine. rewrite (trimRight_blank s H).
  apply formatLine_nil.
Qed.

Lemma blank_line_becomes_empty_witness :
  wfTables specTables = true
  /\ forallb isWhiteSpace (txt "   ") = true
  /\ formattedLine specTables (txt "   ") = [].
Proof.
  split; [reflexivity|]. split; [reflexivity|].
  apply (blank_line_becomes_empty specTables (txt "   ")); reflexivity.
Defined.

(** X14.  Formatting a formatted document changes nothing: when the
    replacement texts of a document are taken as the lines of a new
    document, the formatter returns the same texts for it. *)
Theorem formatted_document_is_stable K texts edits :
  wfTables K = true ->
  provideDocumentFormattingEdits K (documentOf texts) = Normal edits ->
  exists edits',
    provideDocumentFormattingEdits K (documentOf (map newText edits))
    = Normal edits'
    /\ map newText edits' = map newText edits.
Proof.
  intros HK H. unfold provideDocumentFormattingEdits in *.
  rewrite formatLoop_strings in H. injection H as <-.
  rewrite formatLoop_strings. eexists. split; [reflexivity|].
  simpl. rewrite !editsFrom_newText, map_map.
  apply map_ext. intros s. now apply formattedLine_idem.
Qed.

Lemma formatted_document_is_stable_witness :
  wfTables specTables = true
  /\ exists edits',
       provideDocumentFormattingEdits specTables
         (documentOf [txt "ON=@CREATE"; txt "[ITEMDEF SAY x]"])
       = Normal edits'
       /\ map newText edits' = [txt "ON=@CREATE"; txt "[ITEMDEF SAY x]"].
Proof.
  split; [reflexivity|].
  apply (formatted_document_is_stable specTables
           [txt "on=@create  "; txt "  [itemdef say x]"]
           [mkTextEdit (mkRange (mkPosition 0 0) (mkPosition 0 12))
              (txt "ON=@CREATE");
            mkTextEdit (mkRange (mkPosition 1 0) (mkPosition 1 17))
              (txt "[ITEMDEF SAY x]")]); reflexivity.
Defined.

(** ** The older versions of the class *)

Section Versions.

Variable K : Tables.
Hypothesis HK : wfTables K = true.

Lemma variant_line L :
  Variant.formatLine (VarsKeywords K) (ScopedVarPrefixes K)
    (ControlKeywords K) L
  = formatLine K L.
Proof.
  destruct (wfTables_spec K HK) as (HV & _ & _).
  unfold Variant.formatLine.
  change (startsWith (trim L) (txt "//")) with (isCommentLine L).
  destruct (isCommentLine L) eqn:HL; cbn [negb].
  - symmetry. now apply formatLine_comment.
  - rewrite (formatLine_rules K L HL).
    pose proof (formatSectionHeaders_comment L HL) as N1.
    rewrite (variant_formatSections L HL).
    rewrite (variant_formatTriggers _ N1).
    assert (N2 : isCommentLine (formatTriggers (formatSectionHeaders L))
                 = false)
      by (rewrite isCommentLine_caseRule; auto using formatTriggers_caseRule).
    rewrite (variant_formatScopedVars K _ N2).
    assert (N3 : isCommentLine
                   (formatScopedAssignments K
                      (formatTriggers (formatSectionHeaders L))) = false)
      by (rewrite isCommentLine_caseRule;
          auto using formatScopedAssignments_caseRule).
    rewrite (variant_formatVars K _).
    pose proof (formatAssignmentKeywords_comment K _ HV N3) as N4.
    rewrite (variant_formatControls K _ N4).
    assert (N5 : isCommentLine
                   (formatControlKeywords K
                      (formatAssignmentKeywords K
                         (formatScopedAssignments K
                            (formatTriggers (formatSectionHeaders L)))))
                 = false)
      by (rewrite isCommentLine_caseRule;
          auto using formatControlKeywords_caseRule).
    now rewrite (variant_formatFunctions _ N5).
Qed.

Lemma variant_loop rest : forall i acc,
  Variant.formatLoop (VarsKeywords K) (ScopedVarPrefixes K)
    (ControlKeywords K) i rest acc
  = formatLoop K i rest acc.
Proof.
  induction rest as [|l rest IH]; intros i acc; simpl; [reflexivity|].
  destruct (text l); try reflexivity.
  now rewrite variant_line, IH.
Qed.

(** The two-rule version on a line that is no comment line. *)
Lemma legacy_rules L :
  isCommentLine L = false ->
  Legacy.formatLine (VarsKeywords K) L
  = formatAssignmentKeywords K (formatTriggers L).
Proof.
  intros HL. unfold Legacy.formatLine, Legacy.formatTriggers.
  change (startsWith (trim L) (txt "//")) with (isCommentLine L).
  rewrite HL. reflexivity.
Qed.

Lemma legacy_comment L :
  isCommentLine L = true -> Legacy.formatLine (VarsKeywords K) L = L.
Proof.
  intros HL. unfold Legacy.formatLine.
  change (startsWith (trim L) (txt "//")) with (isCommentLine L).
  now rewrite HL.
Qed.

Lemma legacy_shape L : shape L (Legacy.formatLine (VarsKeywords K) L).
Proof.
  destruct (isCommentLine L) eqn:HL.
  - rewrite legacy_comment by assumption. apply shape_refl.
  - rewrite legacy_rules by assumption.
    eapply shape_trans;
      [apply shape_of_cle, caseRule_cle, formatTriggers_caseRule|].
    apply shape_formatAssignmentKeywords.
Qed.

End Versions.

(** X15.  The six-rule version of the class returns for every document
    what the formatter returns: the same edits, or the same error. *)
Theorem variant_documents_agree K document :
  wfTables K = true ->
  Variant.provideDocumentFormattingEdits (VarsKeywords K)
    (ScopedVarPrefixes K) (ControlKeywords K) document
  = provideDocumentFormattingEdits K document.
Proof.
  intros HK. unfold Variant.provideDocumentFormattingEdits,
    provideDocumentFormattingEdits.
  now apply variant_loop.
Qed.

Lemma variant_documents_agree_witness :
  wfTables specTables = true
  /\ Variant.provideDocumentFormattingEdits (VarsKeywords specTables)
       (ScopedVarPrefixes specTables) (ControlKeywords specTables)
       (mkTextDocument [mkTextLine (VString (txt " begin "));
                        mkTextLine VUndefined])
     = Throw TypeError.
Proof.
  split; [reflexivity|].
  rewrite (variant_documents_agree specTables
             (mkTextDocument [mkTextLine (VString (txt " begin "));
                              mkTextLine VUndefined]) eq_refl).
  reflexivity.
Defined.

(** X16.  The two-rule version of the class is idempotent on lines. *)
Theorem legacy_formatLine_idempotent K L :
  wfTables K = true ->
  Legacy.formatLine (VarsKeywords K)
    (Legacy.formatLine (VarsKeywords K) L)
  = Legacy.formatLine (VarsKeywords K) L.
Proof.
  intros HK. destruct (wfTables_spec K HK) as (HV & _ & _).
  destruct (isCommentLine L) eqn:HL.
  - now rewrite !(legacy_comment K L HL).
  - rewrite (legacy_rules K L HL).
    set (T := formatTriggers L).
    set (V := formatAssignmentKeywords K T).
    assert (NT : isCommentLine T = false)
      by (unfold T; rewrite isCommentLine_caseRule;
          auto using formatTriggers_caseRule).
    assert (NV : isCommentLine V = false)
      by now apply formatAssignmentKeywords_comment.
    assert (FT : formatTriggers T = T)
      by apply caseRule_idem, formatTriggers_caseRule.
    assert (FV : formatTriggers V = V).
    { destruct (formatAssignmentKeywords_result K T HV)
        as [E|[_ (w & m & k & rest & _ & E & Hw & Hm & R)]].
      - fold V in E. now rewrite E.
      - fold V in R. rewrite R.
        apply (caseRule_fixed _ (m ++ "="%char :: rest));
          [apply formatTriggers_caseRule| |].
        + apply cle_app; [|apply cle_refl]. rewrite <- Hm.
          apply cle_toUpperCase.
        + apply (formatTriggers_drop_space w); auto using spaceTab_all.
          now rewrite <- E. }
    rewrite (legacy_rules K V NV), FV.
    now apply formatAssignmentKeywords_idem.
Qed.

Lemma legacy_formatLine_idempotent_witness :
  wfTables specTables = true
  /\ Legacy.formatLine (VarsKeywords specTables) (txt "DEFNAME=ON=@X say")
     = txt "DEFNAME=ON=@X say".
Proof.
  split; [reflexivity|].
  exact (legacy_formatLine_idempotent specTables (txt "  defname=on=@x say")
           eq_refl).
Defined.

(** X17.  The two-rule version keeps the text of a line as the formatter
    does: up to letter case, the line is its result with white space
    before and after it; a comment line is returned as it is. *)
Theorem legacy_keeps_text K L :
  wfTables K = true ->
  (exists a b,
     forallb isWhiteSpace a = true /\ forallb isWhiteSpace b = true
     /\ toUpperCase L
        = a ++ toUpperCase (Legacy.formatLine (VarsKeywords K) L) ++ b)
  /\ (isCommentLine L = true -> Legacy.formatLine (VarsKeywords K) L = L).
Proof.
  intros _. split.
  - apply shape_upper, legacy_shape.
  - apply legacy_comment.
Qed.

Lemma legacy_keeps_text_witness :
  wfTables specTables = true
  /\ (isCommentLine (txt " // on=@x") = true ->
      Legacy.formatLine (VarsKeywords specTables) (txt " // on=@x")
      = txt " // on=@x").
Proof.
  split; [reflexivity|].
  apply (legacy_keeps_text specTables (txt " // on=@x")). reflexivity.
Defined.

Lemma legacy_loop K rest : forall i acc1 acc2,
  map range acc1 = map range acc2 ->
  match Legacy.formatLoop (VarsKeywords K) i rest acc1,
        formatLoop K i rest acc2 with
  | Normal e1, Normal e2 =>
      map range e1 = map range e2 /\ length e1 = length acc1 + length rest
  | Throw _, Throw _ => True
  | _, _ => False
  end.
Proof.
  induction rest as [|l rest IH]; intros i acc1 acc2 H; simpl.
  - split; [exact H|lia].
  - destruct (text l) as [| |s]; try exact I.
    specialize (IH (S i)
      (acc1 ++ [mkTextEdit (mkRange (mkPosition i 0) (mkPosition i (length s)))
                  (Legacy.formatLine (VarsKeywords K) (trimRight s))])
      (acc2 ++ [mkTextEdit (mkRange (mkPosition i 0) (mkPosition i (length s)))
                  (formatLine K (trimRight s))])).
    rewrite !map_app, H in IH. specialize (IH eq_refl).
    destruct (Legacy.formatLoop _ _ _ _), (formatLoop _ _ _ _); auto.
    destruct IH as [E1 E2]. split; [exact E1|].
    rewrite E2, length_app. simpl. lia.
Qed.

(** X18.  On every document the two-rule version ends as the formatter
    does: with the same error, or with one edit per line over the same
    ranges; the two differ in the replacement texts only. *)
Theorem legacy_edits_same_ranges K document :
  match Legacy.provideDocumentFormattingEdits (VarsKeywords K) document,
        provideDocumentFormattingEdits K document with
  | Normal e1, Normal e2 =>
      map range e1 = map range e2 /\ length e1 = lineCount document
  | Throw _, Throw _ => True
  | _, _ => False
  end.
Proof.
  unfold Legacy.provideDocumentFormattingEdits,
    provideDocumentFormattingEdits, lineCount.
  exact (legacy_loop K (lines document) 0 [] [] eq_refl).
Qed.

(** ** The formatted line is in normal form *)

Lemma formatLine_normal K L :
  wfTables K = true -> isCommentLine L = false ->
  formatSectionHeaders (formatLine K L) = formatLine K L
  /\ formatTriggers (formatLine K L) = formatLine K L
  /\ formatScopedAssignments K (formatLine K L) = formatLine K L
  /\ formatAssignmentKeywords K (formatLine K L) = formatLine K L
  /\ formatControlKeywords K (formatLine K L) = formatLine K L
  /\ formatCommandCalls (formatLine K L) = formatLine K L.
Proof.
  intros HK HL. destruct (wfTables_spec K HK) as (HV & HS & _).
  pose proof formatTriggers_caseRule as C2.
  pose proof (formatScopedAssignments_caseRule K) as C3.
  pose proof (formatControlKeywords_caseRule K) as C5.
  pose proof formatCommandCalls_caseRule as C6.
  rewrite (formatLine_rules K L HL).
  set (L1 := formatSectionHeaders L).
  set (L2 := formatTriggers L1).
  set (L3 := formatScopedAssignments K L2).
  set (L4 := formatAssignmentKeywords K L3).
  set (L5 := formatControlKeywords K L4).
  set (L6 := formatCommandCalls L5).
  assert (c12 : cle L1 L2) by now apply caseRule_cle.
  assert (c23 : cle L2 L3) by now apply caseRule_cle.
  assert (c45 : cle L4 L5) by now apply caseRule_cle.
  assert (c56 : cle L5 L6) by now apply caseRule_cle.
  assert (c46 : cle L4 L6) by now apply (cle_trans _ L5).
  assert (A : L4 = L3 \/ assignedForm L4
              /\ exists w Z, L3 = w ++ Z /\ forallb isWhiteSpace w = true
                   /\ cle Z L4).
  { destruct (formatAssignmentKeywords_result K L3 HV)
      as [E|[HF (w & m & k & rest & _ & E & Hw & Hm & R)]]; [now left|right].
    split; [exact HF|]. exists w, (m ++ "="%char :: rest).
    repeat split; auto using spaceTab_all.
    fold L4 in R. rewrite R. apply cle_app; [|apply cle_refl].
    rewrite <- Hm. apply cle_toUpperCase. }
  split; [|split; [|split; [|split; [|split]]]].
  - apply (formatSectionHeaders_fixed L4); [assumption|].
    destruct A as [E|[HF _]].
    + rewrite E. apply (formatSectionHeaders_fixed L1).
      * now apply (cle_trans _ L2).
      * apply formatSectionHeaders_idem.
    + destruct (assignedForm_head _ HF) as (c & t & -> & Hc).
      now apply formatSectionHeaders_word.
  - apply (caseRule_fixed _ L4); auto.
    assert (F23 : formatTriggers L3 = L3).
    { apply (caseRule_fixed _ L2); auto. now apply caseRule_idem. }
    destruct A as [E|[_ (w & Z & E & Hw & Hc)]].
    + now rewrite E.
    + apply (caseRule_fixed _ Z); auto.
      apply (formatTriggers_drop_space w); auto. now rewrite <- E.
  - apply (caseRule_fixed _ L4); auto.
    destruct A as [E|[HF _]].
    + rewrite E. now apply caseRule_idem.
    + now apply formatScopedAssignments_on_form.
  - apply (formatAssignmentKeywords_fixed K L4); auto.
    now apply formatAssignmentKeywords_idem.
  - apply (caseRule_fixed _ L5); auto. now apply caseRule_idem.
  - now apply caseRule_idem.
Qed.

Lemma upper_of_covered (Y pre m suf pre' suf' : str) :
  Y = pre ++ m ++ suf -> Y = pre' ++ toUpperCase m ++ suf' ->
  cle pre pre' -> m = toUpperCase m.
Proof.
  intros E1 E2 Hc. rewrite E1 in E2.
  destruct (app_eq_length _ _ _ _ E2 (cle_length _ _ Hc)) as [_ E3].
  destruct (app_eq_length _ _ _ _ E3) as [E4 _]; [|exact E4].
  now rewrite toUpperCase_length.
Qed.

(** X19.  The formatted text of a line that is no comment line is in
    normal form: each of the six rules, applied to it on its own, returns
    it unchanged. *)
Theorem formatted_line_is_normal K L :
  wfTables K = true -> isCommentLine L = false ->
  formatSectionHeaders (formatLine K L) = formatLine K L
  /\ formatTriggers (formatLine K L) = formatLine K L
  /\ formatScopedAssignments K (formatLine K L) = formatLine K L
  /\ formatAssignmentKeywords K (formatLine K L) = formatLine K L
  /\ formatControlKeywords K (formatLine K L) = formatLine K L
  /\ formatCommandCalls (formatLine K L) = formatLine K L.
Proof. apply formatLine_normal. Qed.

Lemma formatted_line_is_normal_witness :
  wfTables specTables = true
  /\ isCommentLine (txt "  tag.x=say on=@x") = false
  /\ formatTriggers (formatLine specTables (txt "  tag.x=say on=@x"))
     = formatLine specTables (txt "  tag.x=say on=@x").
Proof.
  split; [reflexivity|]. split; [reflexivity|].
  destruct (formatted_line_is_normal specTables (txt "  tag.x=say on=@x"))
    as (_ & H & _); [reflexivity|reflexivity|].
  exact H.
Defined.

(** X20.  In the formatted text of a line that is no comment line nothing
    is left to upper-case: every trigger that is followed by white space
    or the end of the line, and every command keyword that stands as a
    whole word before white space, an opening parenthesis or the end of the
    line, is in upper case. *)
Theorem formatted_occurrences_upper K L pre m suf :
  wfTables K = true -> isCommentLine L = false ->
  formatLine K L = pre ++ m ++ suf -> wordNext (rev pre) = false ->
  (triggerText m = true -> spaceOrEnd suf = true -> m = toUpperCase m)
  /\ (forall k, In k commandKeywords -> toUpperCase m = toUpperCase k ->
        lookCommand suf = true -> m = toUpperCase k).
Proof.
  intros HK HL E Hpre.
  destruct (formatLine_normal K L HK HL) as (_ & FT & _ & _ & _ & FC).
  split.
  - intros Ht Hs.
    destruct (trigger_covered _ pre m suf E Ht Hpre Hs)
      as (pre' & suf' & R & Hc & _).
    rewrite FT in R. exact (upper_of_covered _ _ _ _ _ _ E R Hc).
  - intros k Hk Hm Hs.
    destruct (formatCommandCalls_covered k pre m suf Hk)
      as (pre' & suf' & R & Hc & _); [repeat split; assumption|].
    rewrite <- E, FC in R. rewrite <- Hm.
    exact (upper_of_covered _ _ _ _ _ _ E R Hc).
Qed.

Lemma formatted_occurrences_upper_witness :
  wfTables specTables = true
  /\ isCommentLine (txt "x // say hello") = false
  /\ formatLine specTables (txt "x // say hello")
     = txt "x // " ++ txt "SAY" ++ txt " hello"
  /\ (forall k, In k commandKeywords ->
        toUpperCase (txt "SAY") = toUpperCase k ->
        lookCommand (txt " hello") = true -> txt "SAY" = toUpperCase k).
Proof.
  split; [reflexivity|]. split; [reflexivity|]. split; [reflexivity|].
  apply (formatted_occurrences_upper specTables (txt "x // say hello")
           (txt "x // ") (txt "SAY") (txt " hello")); reflexivity.
Defined.

(** ** White space around the line and the two global rules *)

Lemma caseRule_mono r X Y : caseRule r -> cle X Y -> cle (r X) (r Y).
Proof.
  intros (M & E & I) Hc.
  assert (EM : M Y = M X) by now rewrite <- I, (cle_upper X Y Hc), I.
  rewrite (E X), (E Y), EM. generalize (M X). clear - Hc.
  induction Hc as [|x y X Y Hxy HXY IH]; intros [|b m]; simpl.
  - constructor.
  - constructor.
  - now constructor.
  - constructor; [|apply IH]. destruct b; [|exact Hxy]. left.
    destruct Hxy as [->| ->]; auto using upChar_idem.
Qed.

Lemma cle_space a a' : forallb isWhiteSpace a = true -> cle a a' -> a' = a.
Proof.
  intros Ha Hc. rewrite <- (upper_space a Ha) in Hc.
  rewrite (cle_of_upper _ _ Hc). now apply upper_space.
Qed.

Lemma wordNext_rev_outer a pre :
  forallb isWhiteSpace a = true ->
  wordNext (rev (a ++ pre)) = wordNext (rev pre).
Proof.
  intros Ha. rewrite rev_app_distr. destruct (rev pre) as [|c l] eqn:E.
  - simpl. apply space_not_wordNext. now rewrite forallb_rev.
  - reflexivity.
Qed.

Lemma spaceOrEnd_outer rest b :
  forallb isWhiteSpace b = true -> spaceOrEnd (rest ++ b) = spaceOrEnd rest.
Proof.
  intros Hb. destruct rest as [|c rest]; [|reflexivity].
  destruct b as [|c b]; [reflexivity|]. simpl in *.
  apply andb_prop in Hb. now destruct Hb.
Qed.

Lemma lookCommand_outer rest b :
  forallb isWhiteSpace b = true -> lookCommand (rest ++ b) = lookCommand rest.
Proof.
  intros Hb. destruct rest as [|c rest]; [|reflexivity].
  destruct b as [|c b]; [reflexivity|]. simpl in *.
  apply andb_prop in Hb. destruct Hb as [-> _]. reflexivity.
Qed.

Lemma space_suffix (W b P m rest : str) :
  W ++ b = P ++ m ++ rest -> forallb isWhiteSpace b = true ->
  m <> [] -> noSpace m = true ->
  exists rest0, rest = rest0 ++ b /\ W = P ++ m ++ rest0.
Proof.
  intros E Hb Hn Hm. apply (f_equal (@rev ascii)) in E.
  rewrite !rev_app_distr, <- app_assoc in E.
  destruct (space_prefix (rev b) (rev W) (rev rest) (rev m) (rev P) E)
    as (q & E1 & E2).
  - now rewrite forallb_rev.
  - intros H. apply Hn. now apply rev_nil_inv.
  - unfold noSpace in *. now rewrite forallb_rev.
  - exists (rev q). split.
    + rewrite <- (rev_involutive rest), E1, rev_app_distr.
      now rewrite rev_involutive.
    + rewrite <- (rev_involutive W), E2, !rev_app_distr, !rev_involutive.
      now rewrite <- app_assoc.
Qed.

Lemma around_split (a W b pre m rest : str) :
  a ++ W ++ b = pre ++ m ++ rest ->
  forallb isWhiteSpace a = true -> forallb isWhiteSpace b = true ->
  m <> [] -> noSpace m = true ->
  exists pre0 rest0,
    pre = a ++ pre0 /\ rest = rest0 ++ b /\ W = pre0 ++ m ++ rest0.
Proof.
  intros E Ha Hb Hn Hm.
  destruct (space_prefix a (W ++ b) pre m rest E Ha Hn Hm) as (pre0 & -> & E1).
  destruct (space_suffix W b pre0 m rest E1 Hb Hn Hm) as (rest0 & -> & ->).
  now exists pre0, rest0.
Qed.

Section Around.

(** A rule that upper-cases the occurrences [Occ] describes, and nothing
    else, where being an occurrence does not depend on white space at the
    two ends of the line. *)
Variable R : str -> str.
Variable Occ : str -> str -> str -> Prop.

Hypothesis R_case : caseRule R.

Hypothesis R_changed : forall X,
  R X <> X ->
  exists pre m rest,
    X = pre ++ m ++ rest /\ Occ pre m rest /\ noSpace m = true /\ m <> []
    /\ toUpperCase m <> m.

Hypothesis R_covered : forall pre m rest,
  Occ pre m rest ->
  exists pre' rest',
    R (pre ++ m ++ rest) = pre' ++ toUpperCase m ++ rest' /\ cle pre pre'.

Hypothesis Occ_outer : forall a b pre m rest,
  forallb isWhiteSpace a = true -> forallb isWhiteSpace b = true ->
  (Occ (a ++ pre) m (rest ++ b) <-> Occ pre m rest).

Lemma fixed_occurrences X :
  R X = X <->
  (forall pre m rest,
     X = pre ++ m ++ rest -> Occ pre m rest -> noSpace m = true -> m <> [] ->
     m = toUpperCase m).
Proof.
  split.
  - intros F pre m rest E HO _ _.
    destruct (R_covered pre m rest HO) as (pre' & rest' & E' & Hc).
    rewrite <- E, F in E'. exact (upper_of_covered _ _ _ _ _ _ E E' Hc).
  - intros H. destruct (str_eq_dec (R X) X) as [E|N]; [exact E|exfalso].
    destruct (R_changed X N) as (pre & m & rest & E & HO & Hm & Hn & Hu).
    apply Hu. symmetry. now apply (H pre m rest).
Qed.

Lemma fixed_outer a W b :
  forallb isWhiteSpace a = true -> forallb isWhiteSpace b = true ->
  (R (a ++ W ++ b) = a ++ W ++ b <-> R W = W).
Proof.
  intros Ha Hb. rewrite !fixed_occurrences. split.
  - intros H pre m rest E HO Hm Hn.
    apply (H (a ++ pre) m (rest ++ b)); auto.
    + rewrite E, <- !app_assoc. reflexivity.
    + now apply Occ_outer.
  - intros H pre m rest E HO Hm Hn.
    destruct (around_split a W b pre m rest E Ha Hb Hn Hm)
      as (pre0 & rest0 & -> & -> & EW).
    apply (H pre0 m rest0); auto. now apply (Occ_outer a b).
Qed.

Lemma rule_outer a X b :
  forallb isWhiteSpace a = true -> forallb isWhiteSpace b = true ->
  R (a ++ X ++ b) = a ++ R X ++ b.
Proof.
  intros Ha Hb. symmetry. apply cle_antisym.
  - pose proof (caseRule_cle R (a ++ X ++ b) R_case) as Hc.
    apply cle_app_inv in Hc. destruct Hc as (a' & Y1 & E & Hca & Hc).
    apply cle_app_inv in Hc. destruct Hc as (X' & b' & -> & HcX & Hcb).
    rewrite (cle_space a a' Ha Hca), (cle_space b b' Hb Hcb) in E.
    assert (F : R X' = X').
    { apply (fixed_outer a X' b Ha Hb). rewrite <- E.
      now apply caseRule_idem. }
    rewrite E. apply cle_app; [apply cle_refl|].
    apply cle_app; [|apply cle_refl].
    rewrite <- F. now apply caseRule_mono.
  - assert (F : R (a ++ R X ++ b) = a ++ R X ++ b).
    { apply (fixed_outer a (R X) b Ha Hb). now apply caseRule_idem. }
    rewrite <- F. apply caseRule_mono; [exact R_case|].
    apply cle_app; [apply cle_refl|].
    apply cle_app; [|apply cle_refl]. now apply caseRule_cle.
Qed.

End Around.

Lemma formatTriggers_outer a X b :
  forallb isWhiteSpace a = true -> forallb isWhiteSpace b = true ->
  formatTriggers (a ++ X ++ b) = a ++ formatTriggers X ++ b.
Proof.
  apply (rule_outer formatTriggers
           (fun pre m rest => triggerText m = true
                              /\ wordNext (rev pre) = false
                              /\ spaceOrEnd rest = true)).
  - apply formatTriggers_caseRule.
  - intros Z N. apply replaceAll_changed in N.
    destruct N as (p & y & Hin & Hup). apply collect_in in Hin.
    destruct Hin as [[_ Hp] Hy].
    destruct (trigger_found Z p y Hy Hp)
      as (pre & m & EZ & _ & _ & Es & Ht & Hpre & Hrest & Hs & Hn).
    rewrite Es in Hup. exists pre, m, (after y). auto 10.
  - intros pre m rest (Ht & Hpre & Hrest).
    destruct (trigger_covered _ pre m rest eq_refl Ht Hpre Hrest)
      as (pre' & rest' & E & Hc & _).
    now exists pre', rest'.
  - intros a0 b0 pre m rest Ha Hb.
    now rewrite (wordNext_rev_outer a0 pre Ha), (spaceOrEnd_outer rest b0 Hb).
Qed.

Lemma commandStep_outer k a X b :
  wordToken k = true ->
  forallb isWhiteSpace a = true -> forallb isWhiteSpace b = true ->
  commandStep (a ++ X ++ b) k = a ++ commandStep X k ++ b.
Proof.
  intros Hk.
  apply (rule_outer (fun Z => commandStep Z k) (commandOcc k)).
  - apply commandStep_caseRule.
  - intros Z N. rewrite commandStep_upper in N.
    apply replaceAll_changed in N.
    destruct N as (p & y & Hin & Hup). apply collect_in in Hin.
    destruct Hin as [[_ Hp] Hy].
    destruct (match_pieces _ _ _ _ Hy Hp) as (pre & m & EZ & _ & _ & Es & Hin).
    rewrite Es in Hup. apply command_iff in Hin.
    destruct Hin as (m' & rest & E & Hm & H1 & H2 & H3 & ->).
    cbn [after] in *. apply app_inv_tail in E. subst m'.
    destruct (upper_token k m Hk Hm) as [Hn Hw].
    exists pre, m, rest. repeat split; auto using word_noSpace.
    rewrite (wordNext_head_all m rest Hn Hw) in H1.
    now destruct (wordNext (rev pre)).
  - intros pre m rest (Hm & Hpre & Hrest).
    destruct (commandStep_covered k _ pre m rest Hk eq_refl Hm Hpre Hrest)
      as (pre' & rest' & E & Hc & _).
    now exists pre', rest'.
  - intros a0 b0 pre m rest Ha Hb. unfold commandOcc.
    now rewrite (wordNext_rev_outer a0 pre Ha), (lookCommand_outer rest b0 Hb).
Qed.

Lemma formatCommandCalls_outer a X b :
  forallb isWhiteSpace a = true -> forallb isWhiteSpace b = true ->
  formatCommandCalls (a ++ X ++ b) = a ++ formatCommandCalls X ++ b.
Proof.
  intros Ha Hb. unfold formatCommandCalls.
  assert (H : forall ks, (forall k, In k ks -> wordToken k = true) ->
            forall Z, fold_left commandStep ks (a ++ Z ++ b)
                      = a ++ fold_left commandStep ks Z ++ b).
  { induction ks as [|k ks IH]; intros Hks Z; simpl; [reflexivity|].
    rewrite commandStep_outer by (auto; apply Hks; now left).
    apply IH. intros k' Hk'. apply Hks. now right. }
  apply H. apply commandKeywords_tokens.
Qed.

(** X21.  White space at the two ends of a line has no influence on the
    trigger rule and on the command rule: the rule applied to the line with
    the white space is the rule applied to the line without it, with the
    white space put back. *)
Theorem global_rules_ignore_outer_space a L b :
  forallb isWhiteSpace a = true -> forallb isWhiteSpace b = true ->
  formatTriggers (a ++ L ++ b) = a ++ formatTriggers L ++ b
  /\ formatCommandCalls (a ++ L ++ b) = a ++ formatCommandCalls L ++ b.
Proof.
  intros Ha Hb. split.
  - now apply formatTriggers_outer.
  - now apply formatCommandCalls_outer.
Qed.

Lemma global_rules_ignore_outer_space_witness :
  forallb isWhiteSpace (txt "  ") = true
  /\ formatTriggers (txt "  " ++ txt "on=@x say" ++ txt " ")
     = txt "  " ++ txt "ON=@X say" ++ txt " ".
Proof.
  split; [reflexivity|].
  destruct (global_rules_ignore_outer_space (txt "  ") (txt "on=@x say")
              (txt " ")) as [H _]; [reflexivity|reflexivity|].
  exact H.
Defined.

(** ** The formatter and its first version *)

Lemma assignmentStep_match_space k w m rest :
  wordToken k = true -> forallb spaceTab w = true ->
  toUpperCase m = toUpperCase k ->
  assignmentStep (w ++ m ++ "="%char :: rest) k
  = toUpperCase k ++ "="%char :: rest.
Proof.
  intros Hk Hw Hm. destruct (upper_token k m Hk Hm) as [Hn Hwm].
  destruct (assignmentStep_cases (w ++ m ++ "="%char :: rest) k)
    as [[E _]|(w' & m' & rest' & EX & Hw' & Hm' & R)].
  - exfalso. revert E.
    apply regExpExec_found
      with (y := mkState ("="%char :: rev m ++ rev w) rest []).
    apply assignment_iff. split; [reflexivity|]. exists w, m, rest. auto.
  - rewrite R. destruct (upper_token k m' Hk Hm') as [Hn' Hwm'].
    destruct (anchored_unique w m ("="%char :: rest) w' m' ("="%char :: rest')
                EX) as (_ & _ & E); auto using spaceTab_all.
    now injection E as <-.
Qed.

Lemma cle_assignment w m rest Y :
  cle (w ++ m ++ "="%char :: rest) Y -> forallb spaceTab w = true ->
  exists m' rest',
    Y = w ++ m' ++ "="%char :: rest' /\ toUpperCase m' = toUpperCase m
    /\ cle rest rest'.
Proof.
  intros Hc Hw. apply cle_app_inv in Hc.
  destruct Hc as (w' & Y1 & -> & Hcw & Hc).
  apply cle_app_inv in Hc. destruct Hc as (m' & Y2 & -> & Hcm & Hc).
  apply cle_equals in Hc. destruct Hc as (rest' & -> & Hcr).
  rewrite (cle_space w w' (spaceTab_all w Hw) Hcw).
  exists m', rest'. auto using cle_upper.
Qed.

Lemma cle_cons_inv_r X y Y :
  cle X (y :: Y) ->
  exists x X', X = x :: X' /\ (y = x \/ y = upChar x) /\ cle X' Y.
Proof. intros H. inversion H; subst; eauto. Qed.

Lemma cle_assignment_r X w m rest :
  cle X (w ++ m ++ "="%char :: rest) -> forallb spaceTab w = true ->
  exists w0 m0 rest0,
    X = w0 ++ m0 ++ "="%char :: rest0 /\ forallb spaceTab w0 = true
    /\ toUpperCase m0 = toUpperCase m /\ cle rest0 rest.
Proof.
  intros Hc Hw. apply cle_app_inv_r in Hc.
  destruct Hc as (w0 & X1 & -> & Hcw & Hc).
  apply cle_app_inv_r in Hc. destruct Hc as (m0 & X2 & -> & Hcm & Hc).
  apply cle_cons_inv_r in Hc. destruct Hc as (e & rest0 & -> & He & Hcr).
  assert (e = "="%char) as ->.
  { destruct He as [<-|He]; [reflexivity|].
    symmetry in He. now apply (up_const "="%char e eq_refl). }
  exists w0, m0, rest0. repeat split; auto.
  - rewrite <- Hw. symmetry.
    apply (cle_invariant (forallb spaceTab) w0 w); [|exact Hcw].
    intros z. apply forallb_up. apply spaceTab_up.
  - symmetry. now apply cle_upper.
Qed.

Lemma assignmentStep_mono k X Y :
  wordToken k = true -> cle X Y ->
  cle (assignmentStep X k) (assignmentStep Y k).
Proof.
  intros Hk Hc.
  destruct (assignmentStep_cases X k)
    as [[_ RX]|(w & m & rest & EX & Hw & Hm & RX)].
  - destruct (assignmentStep_cases Y k)
      as [[_ RY]|(w & m & rest & EY & Hw & Hm & RY)].
    + now rewrite RX, RY.
    + rewrite EY in Hc.
      destruct (cle_assignment_r X w m rest Hc Hw)
        as (w0 & m0 & rest0 & E0 & Hw0 & Hm0 & Hcr).
      rewrite RY, E0, assignmentStep_match_space; auto; [|congruence].
      apply cle_app; [apply cle_refl|]. now constructor; auto.
  - rewrite EX in Hc.
    destruct (cle_assignment w m rest Y Hc Hw) as (m' & rest' & EY & Hm' & Hcr).
    rewrite RX, EY, assignmentStep_match_space; auto; [|congruence].
    apply cle_app; [apply cle_refl|]. now constructor; auto.
Qed.

Lemma formatAssignmentKeywords_mono K X Y :
  forallb wordToken (VarsKeywords K) = true -> cle X Y ->
  cle (formatAssignmentKeywords K X) (formatAssignmentKeywords K Y).
Proof.
  unfold formatAssignmentKeywords. generalize (VarsKeywords K) as ks.
  intros ks. revert X Y. induction ks as [|k ks IH]; intros X Y Hks Hc.
  - exact Hc.
  - simpl in *. apply andb_prop in Hks. destruct Hks as [Hk Hks].
    apply IH; [exact Hks|]. now apply assignmentStep_mono.
Qed.

Lemma assignment_after_space_bracket K w t :
  forallb wordToken (VarsKeywords K) = true ->
  forallb isWhiteSpace w = true ->
  formatAssignmentKeywords K (w ++ "["%char :: t) = w ++ "["%char :: t.
Proof.
  intros HV Hw. unfold formatAssignmentKeywords. apply fold_fixed.
  intros k Hin.
  destruct (assignmentStep_cases (w ++ "["%char :: t) k)
    as [[_ R]|(w' & m & rest & E & Hw' & Hm & _)]; [exact R|exfalso].
  pose proof (forallb_in _ _ _ HV Hin) as Hk.
  destruct (upper_token k m Hk Hm) as [Hn Hwm].
  destruct (span_unique isWhiteSpace w ("["%char :: t) w'
              (m ++ "="%char :: rest) E) as [_ E'];
    auto using spaceTab_all, stops_word_space.
  apply (bracket_no_token [] m ("="%char :: rest) t k); auto.
Qed.

Lemma header_line_rules K L t1 :
  wfTables K = true -> isCommentLine L = false ->
  formatSectionHeaders L = "["%char :: t1 ->
  formatLine K L = formatCommandCalls (formatTriggers (formatSectionHeaders L)).
Proof.
  intros HK HL R.
  assert (E1 : formatLine K L = formatLine K (formatSectionHeaders L)).
  { rewrite (formatLine_rules K L HL).
    rewrite (formatLine_rules K (formatSectionHeaders L))
      by now apply formatSectionHeaders_comment.
    now rewrite formatSectionHeaders_idem. }
  rewrite E1, R, (bracket_line_rules K _ HK), <- R.
  now rewrite formatSectionHeaders_idem.
Qed.

(** X22.  The formatter extends its first version: for every line, the
    text the formatter returns is the text the two-rule version returns
    with more letters in upper case and, for a section header, without the
    white space around it.  What the first version upper-cases, the
    formatter upper-cases too. *)
Theorem formatter_extends_legacy K L :
  wfTables K = true ->
  shape (Legacy.formatLine (VarsKeywords K) L) (formatLine K L).
Proof.
  intros HK. destruct (wfTables_spec K HK) as (HV & _ & _).
  destruct (isCommentLine L) eqn:HL.
  - rewrite (legacy_comment K L HL), (formatLine_comment K L HL).
    apply shape_refl.
  - rewrite (legacy_rules K L HL).
    destruct (formatSectionHeaders_cases L)
      as [[_ E]|(w1 & word & g & w2 & EL & Hw1 & Hn & Hword & Hg & Hw2 & R)].
    + rewrite (formatLine_rules K L HL), E. apply shape_of_cle.
      apply (cle_trans _ (formatControlKeywords K
                            (formatAssignmentKeywords K
                               (formatScopedAssignments K
                                  (formatTriggers L))))).
      * apply (cle_trans _ (formatAssignmentKeywords K
                              (formatScopedAssignments K
                                 (formatTriggers L)))).
        -- apply formatAssignmentKeywords_mono; [exact HV|].
           apply caseRule_cle, formatScopedAssignments_caseRule.
        -- apply caseRule_cle, formatControlKeywords_caseRule.
      * apply caseRule_cle, formatCommandCalls_caseRule.
    + set (Hd := "["%char :: word ++ g ++ ["]"%char]).
      assert (EL' : L = w1 ++ Hd ++ w2).
      { rewrite EL. unfold Hd. simpl. now rewrite <- !app_assoc. }
      assert (ET : formatTriggers L = w1 ++ formatTriggers Hd ++ w2)
        by (rewrite EL'; now apply formatTriggers_outer).
      assert (exists t, formatTriggers Hd = "["%char :: t) as (t & EH).
      { pose proof (caseRule_cle _ Hd formatTriggers_caseRule) as Hc.
        apply cle_cons_inv in Hc. destruct Hc as (y & t & -> & Hy & _).
        exists t. destruct Hy as [->| ->]; reflexivity. }
      assert (EA : formatAssignmentKeywords K (formatTriggers L)
                   = w1 ++ formatTriggers Hd ++ w2).
      { rewrite ET, EH. simpl.
        now apply (assignment_after_space_bracket K w1 (t ++ w2)). }
      rewrite EA.
      assert (EC : formatLine K L
                   = formatCommandCalls
                       (formatTriggers (formatSectionHeaders L)))
        by exact (header_line_rules K L _ HK HL R).
      rewrite EC. exists w1, (formatTriggers Hd), w2.
      repeat split; auto.
      apply (cle_trans _ (formatTriggers (formatSectionHeaders L)));
        [|apply caseRule_cle, formatCommandCalls_caseRule].
      apply caseRule_mono; [apply formatTriggers_caseRule|].
      rewrite R. unfold Hd. constructor; [now left|].
      apply cle_app; [apply cle_toUpperCase|apply cle_refl].
Qed.

Lemma formatter_extends_legacy_witness :
  wfTables specTables = true
  /\ Legacy.formatLine (VarsKeywords specTables) (txt "  [itemdef say on=@x] ")
     = txt "  [itemdef say ON=@X] "
  /\ formatLine specTables (txt "  [itemdef say on=@x] ")
     = txt "[ITEMDEF SAY ON=@X]"
  /\ shape (Legacy.formatLine (VarsKeywords specTables)
              (txt "  [itemdef say on=@x] "))
       (formatLine specTables (txt "  [itemdef say on=@x] ")).
Proof.
  split; [reflexivity|]. split; [reflexivity|]. split; [reflexivity|].
  apply (formatter_extends_legacy specTables (txt "  [itemdef say on=@x] ")).
  reflexivity.
Defined.

(** * Assignment keywords, section headers and triggers in a line *)

(** ** Where an occurrence lies in a line *)

Lemma prefix_split (A : str) c B : forall x rest,
  A ++ c :: B = x ++ rest -> ~ In c x ->
  exists l, A = x ++ l /\ rest = l ++ c :: B.
Proof.
  induction A as [|a A IH]; intros [|y x] rest E Hc; simpl in *.
  - exists []. auto.
  - injection E as -> _. exfalso. apply Hc. now left.
  - exists (a :: A). auto.
  - injection E as -> E. destruct (IH x rest E) as (l & -> & ->).
    + intros H. apply Hc. now right.
    + now exists l.
Qed.

Lemma occurrence_split (A : str) c B : forall pre x rest,
  A ++ c :: B = pre ++ x ++ rest -> ~ In c x ->
  (exists l, A = pre ++ x ++ l /\ rest = l ++ c :: B)
  \/ (exists l, pre = A ++ c :: l /\ B = l ++ x ++ rest).
Proof.
  induction A as [|a A IH]; intros [|p pre] x rest E Hc.
  - left. now apply prefix_split.
  - right. simpl in E. injection E as -> E. now exists pre.
  - left. now apply prefix_split.
  - simpl in E. injection E as -> E.
    destruct (IH pre x rest E Hc) as [(l & -> & ->)|(l & -> & ->)].
    + left. now exists l.
    + right. now exists l.
Qed.

Lemma word_not_in c x :
  isWordChar c = false -> forallb isWordChar x = true -> ~ In c x.
Proof.
  intros Hc Hx H. rewrite (forallb_in _ _ _ Hx H) in Hc. discriminate.
Qed.

Lemma upper_part (pre x l : str) :
  toUpperCase (pre ++ x ++ l) = pre ++ x ++ l -> toUpperCase x = x.
Proof.
  rewrite !toUpperCase_app. intros E.
  apply app_eq_length in E; [|apply toUpperCase_length].
  destruct E as [_ E].
  apply app_eq_length in E; [|apply toUpperCase_length]. now destruct E.
Qed.

Lemma startsWith_self x rest : startsWith (x ++ rest) x = true.
Proof.
  induction x as [|c x IH]; simpl; [apply startsWith_nil|].
  now rewrite Ascii.eqb_refl.
Qed.

Lemma includes_unfold s p :
  includes s p
  = startsWith s p || match s with [] => false | _ :: s' => includes s' p end.
Proof. destruct s; reflexivity. Qed.

Lemma includes_part pre x rest : includes (pre ++ x ++ rest) x = true.
Proof.
  induction pre as [|c pre IH]; rewrite includes_unfold.
  - simpl. now rewrite startsWith_self.
  - simpl. rewrite IH. apply orb_true_r.
Qed.

Lemma commandKeywords_upper k : In k commandKeywords -> toUpperCase k = k.
Proof.
  intros H. vm_compute in H.
  repeat (destruct H as [<-|H]; [reflexivity|]). contradiction.
Qed.

Lemma plainText_at v : plainText v = true -> ~ In "@"%char v.
Proof.
  unfold plainText. intros H. apply andb_prop in H. destruct H as [H _].
  intros Hin. apply negb_true_iff in H.
  assert (E : existsb (Ascii.eqb "@"%char) v = true).
  { apply existsb_exists. exists "@"%char. split; [exact Hin|reflexivity]. }
  congruence.
Qed.

Lemma plainText_keyword v k l x rest :
  plainText v = true -> In k commandKeywords ->
  v = l ++ x ++ rest -> toUpperCase x = toUpperCase k -> False.
Proof.
  unfold plainText. intros H Hk -> Hx. apply andb_prop in H.
  destruct H as [_ H]. apply (forallb_in _ _ _ H) in Hk as Hn.
  rewrite !toUpperCase_app, Hx, (commandKeywords_upper k Hk) in Hn.
  now rewrite includes_part in Hn.
Qed.

(** ** Lines the two global rules leave alone *)

Lemma formatTriggers_no_at L : ~ In "@"%char L -> formatTriggers L = L.
Proof.
  intros H. destruct (str_eq_dec (formatTriggers L) L) as [E|N]; [exact E|].
  exfalso. apply H. apply replaceAll_changed in N.
  destruct N as (p & y & Hin & _). apply collect_in in Hin.
  destruct Hin as [[_ Hp] Hy].
  destruct (trigger_found L p y Hy Hp) as (pre & m & E & _ & _ & _ & Ht & _).
  rewrite E. apply in_or_app. right. apply in_or_app. left.
  now apply triggerText_at.
Qed.

Lemma commandStep_changed k Z :
  wordToken k = true -> commandStep Z k <> Z ->
  exists pre x rest,
    Z = pre ++ x ++ rest /\ commandOcc k pre x rest
    /\ forallb isWordChar x = true /\ toUpperCase x <> x.
Proof.
  intros Hk N. rewrite commandStep_upper in N. apply replaceAll_changed in N.
  destruct N as (p & y & Hin & Hup). apply collect_in in Hin.
  destruct Hin as [[_ Hp] Hy].
  destruct (match_pieces _ _ _ _ Hy Hp) as (pre & m & EZ & _ & _ & Es & Hin).
  rewrite Es in Hup. apply command_iff in Hin.
  destruct Hin as (m' & rest & E & Hm & H1 & H2 & H3 & ->).
  cbn [after] in *. apply app_inv_tail in E. subst m'.
  destruct (upper_token k m Hk Hm) as [Hn Hw].
  exists pre, m, rest. repeat split; auto.
  rewrite (wordNext_head_all m rest Hn Hw) in H1.
  now destruct (wordNext (rev pre)).
Qed.

(** The command rule changes nothing in a line whose occurrences of
    command keywords are in upper case. *)
Lemma formatCommandCalls_quiet Z :
  (forall k pre x rest,
     In k commandKeywords -> Z = pre ++ x ++ rest -> commandOcc k pre x rest ->
     forallb isWordChar x = true -> toUpperCase x = x) ->
  formatCommandCalls Z = Z.
Proof.
  intros H. unfold formatCommandCalls. apply fold_fixed. intros k Hk.
  destruct (str_eq_dec (commandStep Z k) Z) as [E|N]; [exact E|exfalso].
  destruct (commandStep_changed k Z (commandKeywords_tokens k Hk) N)
    as (pre & x & rest & E & HO & Hw & Hu).
  apply Hu. now apply (H k pre x rest).
Qed.

(** Two lines that differ in the letter case of a first part only: a rule
    that changes letter case only returns the same rest for both. *)
Lemma caseRule_same_tail r (A A' G X1 G1 Y1 G2 : str) :
  caseRule r -> cle A A' ->
  r (A ++ G) = X1 ++ G1 -> length X1 = length A ->
  r (A' ++ G) = Y1 ++ G2 -> length Y1 = length A' ->
  G1 = G2.
Proof.
  intros Hr Hc EX LX EY LY.
  assert (split : forall (P Q P' Q' : str),
            cle (P ++ Q) (P' ++ Q') -> length P = length P' ->
            cle P P' /\ cle Q Q').
  { intros P Q P' Q' H L. apply cle_app_inv in H.
    destruct H as (P1 & Q1 & E & HP & HQ).
    apply app_eq_length in E; [|rewrite <- L; now apply cle_length].
    destruct E as [-> ->]. auto. }
  pose proof (caseRule_cle r (A ++ G) Hr) as HX. rewrite EX in HX.
  apply split in HX; [|congruence]. destruct HX as [HX1 HG1].
  pose proof (caseRule_cle r (A' ++ G) Hr) as HY. rewrite EY in HY.
  apply split in HY; [|congruence]. destruct HY as [HY1 HG2].
  assert (HXY : cle (A ++ G) (A' ++ G))
    by (apply cle_app; [exact Hc|apply cle_refl]).
  pose proof (caseRule_mono r _ _ Hr HXY) as HM. rewrite EX, EY in HM.
  apply split in HM;
    [|rewrite LX, LY; now apply cle_length]. destruct HM as [HM1 HM2].
  apply cle_antisym; [exact HM2|].
  assert (F : r (Y1 ++ G1) = Y1 ++ G1).
  { apply (caseRule_fixed r (X1 ++ G1)); [exact Hr| |].
    - apply cle_app; [exact HM1|apply cle_refl].
    - rewrite <- EX. now apply caseRule_idem. }
  assert (HY' : cle (A' ++ G) (Y1 ++ G1)) by now apply cle_app.
  pose proof (caseRule_mono r _ _ Hr HY') as HM'. rewrite EY, F in HM'.
  apply split in HM'; [|reflexivity]. now destruct HM'.
Qed.

Lemma formatSectionHeaders_space_word w m rest :
  forallb isWhiteSpace w = true -> m <> [] -> forallb isWordChar m = true ->
  formatSectionHeaders (w ++ m ++ rest) = w ++ m ++ rest.
Proof.
  intros Hw Hn Hm.
  destruct (formatSectionHeaders_cases (w ++ m ++ rest))
    as [[_ R]|(w1 & word & g & w2 & E & Hw1 & _)]; [exact R|exfalso].
  destruct (span_unique isWhiteSpace w (m ++ rest) w1
              ("["%char :: word ++ g ++ "]"%char :: w2) E Hw Hw1)
    as [_ E']; auto using stops_word_space.
  destruct m as [|c m]; [congruence|]. simpl in E', Hm.
  injection E' as -> _. discriminate.
Qed.

(** ** Assignment keywords *)

Lemma keyword_line_quiet m v :
  m <> [] -> forallb isWordChar m = true -> plainText v = true ->
  formatTriggers (m ++ "="%char :: v) = m ++ "="%char :: v
  /\ formatCommandCalls (m ++ "="%char :: v) = m ++ "="%char :: v.
Proof.
  intros Hn Hm Hv. split.
  - apply formatTriggers_no_at. intros H. apply in_app_or in H.
    destruct H as [H|[H|H]].
    + now apply (word_not_in "@"%char m).
    + discriminate.
    + now apply (plainText_at v Hv).
  - apply formatCommandCalls_quiet.
    intros k pre x rest Hk E (Hx & Hpre & Hrest) Hw. exfalso.
    destruct (upper_token k x (commandKeywords_tokens k Hk) Hx) as [Hnx _].
    destruct (occurrence_split m "="%char v pre x rest E)
      as [(l & Em & ->)|(l & _ & Ev)].
    + now apply word_not_in.
    + assert (l = []) as ->.
      { destruct l as [|c l]; [reflexivity|exfalso].
        apply lookCommand_not_word in Hrest. simpl in Hrest.
        rewrite Em, !forallb_app in Hm. simpl in Hm.
        rewrite Hrest, !andb_false_r in Hm. discriminate. }
      discriminate.
    + exact (plainText_keyword v k l x rest Hv Hk Ev Hx).
Qed.

(** C4, as the code has it.  A line made of leading spaces and tabs, an
    assignment keyword in any letter case, the equals sign and a value is
    returned as the keyword in upper case, the equals sign and the value,
    after white space that is an end piece of the leading white space of
    the line (how much of it is kept is not said here).  The value is the
    one the trigger rule and the command rule leave in the line made of the
    keyword, the equals sign and the value: these two rules run over the
    whole line, and nothing else changes the value.  A value that holds no
    at sign and no command keyword comes back as it is. *)
Theorem assignment_keyword_format K k w m v :
  wfTables K = true -> In k (VarsKeywords K) ->
  forallb spaceTab w = true -> toUpperCase m = toUpperCase k ->
  exists w1 w2 m' v',
    w = w1 ++ w2
    /\ formatLine K (w ++ m ++ "="%char :: v)
       = w2 ++ toUpperCase k ++ "="%char :: v'
    /\ formatCommandCalls (formatTriggers (m ++ "="%char :: v))
       = m' ++ "="%char :: v'
    /\ length m' = length m
    /\ (plainText v = true -> v' = v).
Proof.
  intros HK Hin Hw Hm. destruct (wfTables_spec K HK) as (HV & HS & HC).
  pose proof (forallb_in _ _ _ HV Hin) as Hk.
  pose proof (spaceTab_all w Hw) as Hws.
  destruct (upper_token k m Hk Hm) as [Hn Hwm].
  (* the trigger rule, on the line without its leading white space *)
  pose proof (caseRule_cle _ (m ++ "="%char :: v) formatTriggers_caseRule)
    as H2.
  destruct (cle_assignment [] m v _ H2 eq_refl) as (m2 & v2 & E2 & Hm2 & Hv2).
  simpl in E2.
  assert (Hm2k : toUpperCase m2 = toUpperCase k) by congruence.
  destruct (upper_token k m2 Hk Hm2k) as [Hn2 Hwm2].
  (* the six rules on the line *)
  rewrite formatLine_rules by now apply word_head_not_comment.
  rewrite (formatSectionHeaders_space_word w m _ Hws Hn Hwm).
  assert (E2' : formatTriggers (w ++ m ++ "="%char :: v)
                = w ++ m2 ++ "="%char :: v2).
  { rewrite <- E2, <- (app_nil_r (m ++ "="%char :: v)) at 1.
    rewrite (formatTriggers_outer w _ [] Hws eq_refl).
    now rewrite app_nil_r. }
  rewrite E2'.
  destruct (anchored_fold scopedStep w ("="%char :: v2)
              (fun k m => scopedStep_spec w ("="%char :: v2) k m Hws eq_refl)
              (ScopedVarPrefixes K) m2 HS Hn2 Hwm2) as (m3 & E3 & C3 & _).
  unfold formatScopedAssignments at 1. rewrite E3.
  assert (Hm3k : toUpperCase m3 = toUpperCase k)
    by (destruct C3 as [->| ->]; [|rewrite toUpperCase_idem]; exact Hm2k).
  destruct (upper_token k m3 Hk Hm3k) as [Hn3 Hwm3].
  assert (E4 : formatAssignmentKeywords K (w ++ m3 ++ "="%char :: v2)
               = toUpperCase k ++ "="%char :: v2).
  { unfold formatAssignmentKeywords.
    destruct (assign_fold_cases (VarsKeywords K)
                (w ++ m3 ++ "="%char :: v2) HV)
      as [[E H]|(w' & m' & k' & rest & Hin' & EX & Hw' & Hm' & R)].
    - rewrite E, <- (H k Hin). now apply assignmentStep_match_space.
    - rewrite R.
      destruct (upper_token k' m' (forallb_in _ _ _ HV Hin') Hm')
        as [Hn' Hwm'].
      destruct (anchored_unique w m3 ("="%char :: v2) w' m'
                  ("="%char :: rest) EX)
        as (_ & Em & Er); auto using spaceTab_all.
      injection Er as <-. now rewrite <- Hm', <- Em, Hm3k. }
  rewrite E4.
  destruct (anchored_fold controlStep [] ("="%char :: v2)
              (fun k m =>
                 controlStep_spec [] ("="%char :: v2) k m eq_refl eq_refl)
              (ControlKeywords K) (toUpperCase k) HC)
    as (m5 & E5 & C5 & _);
    [apply (upper_token_self k Hk)|apply (upper_token_self k Hk)|].
  simpl in E5. unfold formatControlKeywords at 1. rewrite E5.
  assert (m5 = toUpperCase k) as ->
    by (destruct C5 as [->| ->]; [|rewrite toUpperCase_idem]; reflexivity).
  (* the command rule, on the line and on the line of the trigger rule *)
  pose proof (caseRule_cle _ (toUpperCase k ++ "="%char :: v2)
                formatCommandCalls_caseRule) as H6.
  apply cle_app_inv in H6. destruct H6 as (k6 & Y & E6 & Hk6 & HY).
  apply cle_of_upper in Hk6. subst k6.
  apply cle_equals in HY. destruct HY as (v6 & -> & Hv6).
  pose proof (caseRule_cle _ (m2 ++ "="%char :: v2)
                formatCommandCalls_caseRule) as H7.
  apply cle_app_inv in H7. destruct H7 as (m7 & Y & E7 & Hm7 & HY).
  apply cle_equals in HY. destruct HY as (v7 & -> & Hv7).
  assert (L7 : length m7 = length m2) by (symmetry; now apply cle_length).
  assert (L2 : length m2 = length m).
  { rewrite <- (toUpperCase_length m2), Hm2, toUpperCase_length.
    reflexivity. }
  assert (E67 : "="%char :: v7 = "="%char :: v6).
  { apply (caseRule_same_tail formatCommandCalls m2 (toUpperCase k)
             ("="%char :: v2) m7 _ (toUpperCase k) _
             formatCommandCalls_caseRule); auto.
    rewrite <- Hm2k. apply cle_toUpperCase. }
  injection E67 as ->.
  exists w, [], m7, v6. rewrite app_nil_r. repeat split.
  - rewrite E6. reflexivity.
  - rewrite E2. exact E7.
  - congruence.
  - intros Hp. destruct (keyword_line_quiet m v Hn Hwm Hp) as [FT FC].
    rewrite FT in E2. rewrite <- E2, FC in E7.
    apply app_eq_length in E7; [|congruence].
    destruct E7 as [_ E7]. now injection E7.
Qed.

Lemma assignment_keyword_format_witness :
  wfTables specTables = true
  /\ In (txt "DEFNAME") (VarsKeywords specTables)
  /\ forallb spaceTab (txt "  ") = true
  /\ toUpperCase (txt "defname") = toUpperCase (txt "DEFNAME")
  /\ (exists w1 w2,
        txt "  " = w1 ++ w2
        /\ formatLine specTables (txt "  defname=SOMETHING")
           = w2 ++ txt "DEFNAME=SOMETHING")
  /\ formatLine specTables (txt "defname=Foo bar") = txt "DEFNAME=Foo bar".
Proof.
  split; [reflexivity|]. split; [simpl; tauto|]. split; [reflexivity|].
  split; [reflexivity|]. split.
  - destruct (assignment_keyword_format specTables (txt "DEFNAME") (txt "  ")
                (txt "defname") (txt "SOMETHING"))
      as (w1 & w2 & m' & v' & Ew & E & _ & _ & Hv);
      [reflexivity|simpl; tauto|reflexivity|reflexivity|].
    exists w1, w2. split; [exact Ew|].
    rewrite (Hv eq_refl) in E. exact E.
  - destruct (assignment_keyword_format specTables (txt "DEFNAME") []
                (txt "defname") (txt "Foo bar"))
      as (w1 & w2 & m' & v' & Ew & E & _ & _ & Hv);
      [reflexivity|simpl; tauto|reflexivity|reflexivity|].
    symmetry in Ew. apply app_eq_nil in Ew. destruct Ew as [_ ->].
    rewrite (Hv eq_refl) in E. exact E.
Defined.

(** The command rule reaches into the value. *)
Lemma assignment_keyword_counterexample :
  formatLine specTables (txt "defname=say hi") = txt "DEFNAME=SAY hi"
  /\ formatLine specTables (txt "defname=say hi") <> txt "DEFNAME=say hi".
Proof. split; vm_compute; [reflexivity|discriminate]. Qed.

(** ** Section headers *)

Lemma header_line_quiet word g :
  forallb isWordChar word = true -> headerRestb g = true ->
  plainText g = true ->
  formatCommandCalls
    (formatTriggers ("["%char :: toUpperCase word ++ g ++ ["]"%char]))
  = "["%char :: toUpperCase word ++ g ++ ["]"%char].
Proof.
  intros Hw Hg Hp.
  assert (HW : forallb isWordChar (toUpperCase word) = true)
    by (rewrite forallb_up; auto using isWordChar_up).
  rewrite formatTriggers_no_at.
  - apply formatCommandCalls_quiet.
    intros k pre x rest Hk E (Hx & _ & _) Hwx.
    destruct (upper_token k x (commandKeywords_tokens k Hk) Hx) as [Hnx _].
    assert (HA : forall l,
              "["%char :: toUpperCase word = pre ++ x ++ l ->
              toUpperCase x = x).
    { intros l El. apply (upper_part pre x l). rewrite <- El. simpl.
      now rewrite toUpperCase_idem. }
    assert (HB : forall l, [] = l ++ x ++ rest -> toUpperCase x = x).
    { intros l El. symmetry in El. apply app_eq_nil in El.
      destruct El as [_ El]. apply app_eq_nil in El. now destruct El. }
    destruct g as [|s g0].
    + change ("["%char :: toUpperCase word ++ [] ++ ["]"%char])
        with (("["%char :: toUpperCase word) ++ "]"%char :: []) in E.
      destruct (occurrence_split _ _ _ pre x rest E)
        as [(l & El & _)|(l & _ & El)]; eauto.
      now apply word_not_in.
    + cbn [headerRestb] in Hg. apply andb_prop in Hg. destruct Hg as [Hs _].
      assert (Hsw : isWordChar s = false).
      { pose proof (space_not_word s) as N. rewrite Hs in N. exact N. }
      change ("["%char :: toUpperCase word ++ (s :: g0) ++ ["]"%char])
        with (("["%char :: toUpperCase word) ++ s :: (g0 ++ ["]"%char]))
        in E.
      destruct (occurrence_split _ _ _ pre x rest E)
        as [(l & El & _)|(l & _ & El)]; eauto using word_not_in.
      destruct (occurrence_split g0 "]"%char [] l x rest El)
        as [(l' & Eg & _)|(l' & _ & El')]; eauto.
      * now apply word_not_in.
      * exfalso.
        apply (plainText_keyword (s :: g0) k (s :: l) x l' Hp Hk); auto.
        now rewrite Eg.
  - intros H. destruct H as [H|H]; [discriminate|].
    apply in_app_or in H. destruct H as [H|H].
    + now apply (word_not_in "@"%char (toUpperCase word)).
    + apply in_app_or in H. destruct H as [H|[H|[]]].
      * now apply (plainText_at g Hp).
      * discriminate.
Qed.

(** C5, as the code has it.  The header rule upper-cases the word of a
    header and nothing else.  A line that is, within white space, an
    opening bracket, a word, optional white space and text, and a closing
    bracket is returned as the bracket, the word in upper case, the text
    and the closing bracket, within white space that is an end piece of the
    white space before and a first piece of the white space after (how much
    of it is kept is not said here).  The text is the one the trigger rule
    and the command rule leave in the header: these two rules run over the
    whole line, and nothing else changes the text.  A text that holds no at
    sign and no command keyword comes back as it is. *)
Theorem section_header_format K w1 word g w2 :
  wfTables K = true -> forallb isWhiteSpace w1 = true ->
  wordToken word = true -> headerRestb g = true ->
  forallb isWhiteSpace w2 = true ->
  formatSectionHeaders ("["%char :: word ++ g ++ ["]"%char])
  = "["%char :: toUpperCase word ++ g ++ ["]"%char]
  /\ exists a0 a b b0 g',
       w1 = a0 ++ a /\ w2 = b ++ b0
       /\ formatLine K (w1 ++ "["%char :: word ++ g ++ "]"%char :: w2)
          = a ++ "["%char :: toUpperCase word ++ g' ++ "]"%char :: b
       /\ formatCommandCalls
            (formatTriggers
               ("["%char :: toUpperCase word ++ g ++ ["]"%char]))
          = "["%char :: toUpperCase word ++ g' ++ ["]"%char]
       /\ (plainText g = true -> g' = g).
Proof.
  intros HK Hw1 Hword Hg Hw2. apply wordToken_spec in Hword.
  destruct Hword as [Hne Hw]. pose proof (headerRestb_spec g Hg) as Hg'.
  split.
  { apply (formatSectionHeaders_match _ [] word g []); auto. }
  set (L := w1 ++ "["%char :: word ++ g ++ "]"%char :: w2).
  assert (R : formatSectionHeaders L
              = "["%char :: toUpperCase word ++ g ++ ["]"%char])
    by (apply (formatSectionHeaders_match _ w1 word g w2); auto).
  assert (HL : isCommentLine L = false)
    by (apply (not_comment_head w1 "["%char); auto; discriminate).
  assert (Hc : cle ("["%char :: toUpperCase word ++ g ++ ["]"%char])
                 (formatCommandCalls (formatTriggers (formatSectionHeaders L)))).
  { rewrite R.
    apply (cle_trans _ (formatTriggers
                          ("["%char :: toUpperCase word ++ g ++ ["]"%char])));
      apply caseRule_cle;
      auto using formatTriggers_caseRule, formatCommandCalls_caseRule. }
  apply header_cle in Hc. destruct Hc as (g' & E & _).
  exists w1, [], [], w2, g'. rewrite app_nil_r. repeat split.
  - rewrite (header_line_rules K L _ HK HL R). exact E.
  - rewrite <- R. exact E.
  - intros Hp. rewrite R, (header_line_quiet word g Hw Hg Hp) in E.
    injection E as E. apply app_inv_head in E. now apply app_inv_tail in E.
Qed.

Lemma section_header_format_witness :
  wfTables specTables = true
  /\ forallb isWhiteSpace (txt "  ") = true
  /\ wordToken (txt "itemdef") = true
  /\ headerRestb (txt " 0x1") = true
  /\ (exists a b,
        formatLine specTables (txt "  [itemdef 0x1] ")
        = a ++ txt "[ITEMDEF 0x1]" ++ b)
  /\ formatLine specTables (txt "[itemdef 0x1]") = txt "[ITEMDEF 0x1]".
Proof.
  split; [reflexivity|]. split; [reflexivity|]. split; [reflexivity|].
  split; [reflexivity|]. split.
  - destruct (section_header_format specTables (txt "  ") (txt "itemdef")
                (txt " 0x1") (txt " "))
      as (_ & a0 & a & b & b0 & g' & _ & _ & EL & _ & Hg);
      [reflexivity|reflexivity|reflexivity|reflexivity|reflexivity|].
    exists a, b. rewrite (Hg eq_refl) in EL. exact EL.
  - destruct (section_header_format specTables [] (txt "itemdef")
                (txt " 0x1") [])
      as (_ & a0 & a & b & b0 & g' & Ea & Eb & EL & _ & Hg);
      [reflexivity|reflexivity|reflexivity|reflexivity|reflexivity|].
    symmetry in Ea, Eb. apply app_eq_nil in Ea, Eb.
    destruct Ea as [_ ->]. destruct Eb as [-> _].
    rewrite (Hg eq_refl) in EL. exact EL.
Defined.

(** The later rules reach into the text of a header. *)
Lemma section_header_counterexample :
  formatLine specTables (txt "[itemdef say x]") = txt "[ITEMDEF SAY x]"
  /\ formatLine specTables (txt "[itemdef say x]") <> txt "[ITEMDEF say x]".
Proof. split; vm_compute; [reflexivity|discriminate]. Qed.

(** ** Triggers *)

Lemma formatTriggers_fixed_iff X :
  formatTriggers X = X <->
  (forall pre x rest,
     X = pre ++ x ++ rest ->
     triggerText x = true /\ wordNext (rev pre) = false
     /\ spaceOrEnd rest = true ->
     noSpace x = true -> x <> [] -> x = toUpperCase x).
Proof.
  apply (fixed_occurrences formatTriggers
           (fun pre m rest => triggerText m = true
                              /\ wordNext (rev pre) = false
                              /\ spaceOrEnd rest = true)).
  - intros Z N. apply replaceAll_changed in N.
    destruct N as (p & y & Hin & Hup). apply collect_in in Hin.
    destruct Hin as [[_ Hp] Hy].
    destruct (trigger_found Z p y Hy Hp)
      as (pre & m & EZ & _ & _ & Es & Ht & Hpre & Hrest & Hs & Hn).
    rewrite Es in Hup. exists pre, m, (after y). auto 10.
  - intros pre m rest (Ht & Hpre & Hrest).
    destruct (trigger_covered _ pre m rest eq_refl Ht Hpre Hrest)
      as (pre' & rest' & E & Hc & _).
    now exists pre', rest'.
Qed.

Lemma triggerText_no_slash x : triggerText x = true -> ~ In "/"%char x.
Proof.
  intros Ht H.
  destruct (triggerText_split x Ht) as (h & tok & -> & Hh & _ & Htok).
  apply in_app_or in H. destruct H as [H|H].
  - apply (in_map upChar) in H. fold (toUpperCase h) in H. rewrite Hh in H.
    vm_compute in H. intuition discriminate.
  - apply (forallb_in _ _ _ Htok) in H. discriminate.
Qed.

Lemma wordNext_rev_after (A A' : str) c l :
  wordNext (rev (A ++ c :: l)) = wordNext (rev (A' ++ c :: l)).
Proof.
  rewrite !rev_app_distr.
  assert (N : rev (c :: l) <> [])
    by (intros E; apply rev_nil_inv in E; discriminate).
  now rewrite !(wordNext_app_l _ _ N).
Qed.

(** A run of code units without white space that stands right before a
    slash is left alone by the trigger rule: no match ends there, and none
    goes over the slash. *)
Lemma trigger_rule_before_slash pre t s :
  noSpace t = true ->
  exists pre' s',
    formatTriggers (pre ++ t ++ "/"%char :: s) = pre' ++ t ++ "/"%char :: s'
    /\ cle pre pre' /\ cle s s'.
Proof.
  intros Ht.
  pose proof (caseRule_cle _ (pre ++ t ++ "/"%char :: s)
                formatTriggers_caseRule) as Hc.
  apply cle_app_inv in Hc. destruct Hc as (pre' & Y1 & EY & Hpre & Hc).
  apply cle_app_inv in Hc. destruct Hc as (t' & Y2 & -> & Hct & Hc).
  apply cle_cons_inv in Hc. destruct Hc as (c & s' & -> & Hcs & Hs).
  assert (c = "/"%char) as -> by (destruct Hcs as [->| ->]; reflexivity).
  exists pre', s'. split; [|split; assumption].
  assert (FY : formatTriggers (pre' ++ t' ++ "/"%char :: s')
               = pre' ++ t' ++ "/"%char :: s')
    by (rewrite <- EY; apply caseRule_idem, formatTriggers_caseRule).
  assert (FZ : formatTriggers (pre' ++ t ++ "/"%char :: s')
               = pre' ++ t ++ "/"%char :: s').
  { apply formatTriggers_fixed_iff.
    intros p x r E (Hx & Hp & Hr) Hsx Hnx.
    pose proof (proj1 (formatTriggers_fixed_iff _) FY) as HY.
    rewrite app_assoc in E.
    destruct (occurrence_split (pre' ++ t) "/"%char s' p x r E
                (triggerText_no_slash x Hx))
      as [(l & El & ->)|(l & -> & ->)].
    - destruct l as [|s0 l]; [discriminate|]. simpl in Hr.
      assert (E' : (p ++ x) ++ s0 :: l = pre' ++ t ++ [])
        by now rewrite app_nil_r, <- app_assoc.
      destruct (occurrence_split (p ++ x) s0 l pre' t [] E')
        as [(l2 & _ & El2)|(l1 & -> & _)].
      + intros Hin. now rewrite (noSpace_in t s0 Ht Hin) in Hr.
      + symmetry in El2. apply app_eq_nil in El2.
        destruct El2 as [_ El2]. discriminate.
      + apply (HY p x (s0 :: l1 ++ t' ++ "/"%char :: s')); auto.
        now rewrite <- !app_assoc.
    - apply (HY ((pre' ++ t') ++ "/"%char :: l) x r); auto.
      + now rewrite <- !app_assoc.
      + repeat split; auto.
        now rewrite (wordNext_rev_after _ (pre' ++ t)).
  }
  assert (HXZ : cle (pre ++ t ++ "/"%char :: s) (pre' ++ t ++ "/"%char :: s')).
  { apply cle_app; [exact Hpre|]. apply cle_app; [apply cle_refl|].
    constructor; [now left|exact Hs]. }
  pose proof (caseRule_mono _ _ _ formatTriggers_caseRule HXZ) as HM.
  rewrite EY, FZ in HM.
  apply cle_app_inv in HM. destruct HM as (P & Q & E & HP & HQ).
  apply app_eq_length in E; [|now apply cle_length]. destruct E as [<- <-].
  apply cle_app_inv in HQ. destruct HQ as (T & Q & E & HT & _).
  apply app_eq_length in E;
    [|rewrite (cle_length _ _ Hct); now apply cle_length].
  destruct E as [<- _].
  now rewrite EY, (cle_antisym t t' Hct HT).
Qed.

(** C6, as the code has it.  In a line that is no comment line, take an
    occurrence of a trigger: the letters of [on=@] in any letter case with
    no word character before them, then word characters, then further code
    units other than white space and slashes.  When white space or the end
    of the line follows it, the line is returned with the whole occurrence
    in upper case, the text before and after it changed in letter case
    only, apart from white space dropped at the two ends of the line.
    When a slash follows it, the trigger rule leaves the occurrence as it
    is, between a text before and a text after that differ from those of
    the line in letter case at most. *)
Theorem trigger_format K pre t suf :
  isCommentLine (pre ++ t ++ suf) = false ->
  triggerText t = true -> wordNext (rev pre) = false ->
  (spaceOrEnd suf = true ->
   exists pre' suf',
     formatLine K (pre ++ t ++ suf) = pre' ++ toUpperCase t ++ suf'
     /\ leftShape pre pre' /\ rightShape suf suf')
  /\ (startsWith suf (txt "/") = true ->
      exists pre' suf',
        formatTriggers (pre ++ t ++ suf) = pre' ++ t ++ suf'
        /\ toUpperCase pre' = toUpperCase pre
        /\ toUpperCase suf' = toUpperCase suf).
Proof.
  intros HL Ht Hpre. split.
  - intros Hsuf. rewrite (formatLine_rules K _ HL).
    destruct (shape_occ pre t suf _ (shape_formatSectionHeaders _)
                (triggerText_nonempty t Ht) (triggerText_noSpace t Ht))
      as (pre1 & t1 & suf1 & E1 & Hl1 & Hc1 & Hr1).
    rewrite E1.
    destruct (trigger_covered _ pre1 t1 suf1 eq_refl)
      as (pre2 & suf2 & E2 & Hl2 & Hr2).
    { rewrite <- Ht. apply (cle_invariant triggerText);
        auto using triggerText_up. }
    { now apply (leftShape_wordNext pre). }
    { now apply (rightShape_spaceOrEnd suf). }
    rewrite E2, (cle_upper _ _ Hc1).
    set (L2 := pre2 ++ toUpperCase t ++ suf2).
    assert (Hs : shape L2
                   (formatCommandCalls
                      (formatControlKeywords K
                         (formatAssignmentKeywords K
                            (formatScopedAssignments K L2))))).
    { eapply shape_trans;
        [apply shape_of_cle, caseRule_cle,
           (formatScopedAssignments_caseRule K)|].
      eapply shape_trans; [apply shape_formatAssignmentKeywords|].
      eapply shape_trans;
        [apply shape_of_cle, caseRule_cle,
           (formatControlKeywords_caseRule K)|].
      apply shape_of_cle, caseRule_cle, formatCommandCalls_caseRule. }
    destruct (shape_occ pre2 (toUpperCase t) suf2 _ Hs)
      as (pre3 & t3 & suf3 & E3 & Hl3 & Hc3 & Hr3).
    { intros E. apply (triggerText_nonempty t Ht).
      destruct t; [reflexivity|discriminate]. }
    { rewrite noSpace_up. now apply triggerText_noSpace. }
    apply cle_of_upper in Hc3. subst t3.
    exists pre3, suf3. rewrite E3. repeat split.
    + apply (leftShape_trans _ pre1); [assumption|].
      apply (leftShape_trans _ pre2); auto using leftShape_of_cle.
    + apply (rightShape_trans _ suf1); [assumption|].
      apply (rightShape_trans _ suf2); auto using rightShape_of_cle.
  - intros Hsuf. rewrite (startsWith_split _ _ Hsuf).
    destruct (trigger_rule_before_slash pre t
                (skipn (length (txt "/")) suf) (triggerText_noSpace t Ht))
      as (pre' & s' & E & Hp & Hs).
    exists pre', ("/"%char :: s'). split; [exact E|]. split.
    + now apply cle_upper.
    + simpl. f_equal. now apply cle_upper.
Qed.

Lemma trigger_format_witness :
  isCommentLine ([] ++ txt "on=@create" ++ []) = false
  /\ triggerText (txt "on=@create") = true
  /\ formatLine specTables (txt "on=@create") = txt "ON=@CREATE"
  /\ exists pre' suf',
       formatTriggers (txt "x " ++ txt "on=@go(" ++ txt "/y")
       = pre' ++ txt "on=@go(" ++ suf'
       /\ toUpperCase pre' = toUpperCase (txt "x ")
       /\ toUpperCase suf' = toUpperCase (txt "/y").
Proof.
  split; [reflexivity|]. split; [reflexivity|]. split.
  - destruct (trigger_format specTables [] (txt "on=@create") [])
      as [H _]; [reflexivity|reflexivity|reflexivity|].
    destruct (H eq_refl) as (pre' & suf' & E & Hl & Hr).
    apply leftShape_nil in Hl. apply rightShape_nil in Hr. subst pre' suf'.
    exact E.
  - destruct (trigger_format specTables (txt "x ") (txt "on=@go(") (txt "/y"))
      as [_ H]; [reflexivity|reflexivity|reflexivity|].
    exact (H eq_refl).
Defined.

(** A trigger with a slash right after it is not matched: the pattern
    wants white space or the end of the line after the match. *)
Lemma trigger_before_slash_counterexample :
  formatLine specTables (txt "on=@create//x") = txt "on=@create//x"
  /\ formatLine specTables (txt "on=@create//x") <> txt "ON=@CREATE//x"
  /\ formatLine specTables (txt "on=@a/b") = txt "on=@a/b".
Proof. repeat split; vm_compute; try reflexivity; discriminate. Qed.
